(** * vimb: key mapping engine (src/map.c) and ex command line (src/ex.c)

    A shallow embedding of the two interpreters of vimb, the properties of
    them that the specification states, and further properties of the code.

    Conventions of the embedding.
    - A C [int] is a [Z], wrapped to 32 bits where the source computes with
      it ([arg->count]); a [char] in memory is the value of its byte,
      [0..255], and [int_of_char] is the [int] that it is converted to where
      the source reads it into one, negative from 0x80 on where plain [char]
      is signed.
    - A NUL terminated C string is the list of the bytes before the
      terminator; [cstr] reads it the way C does (a NUL after the last byte).
    - A [char] buffer that is written by index ([map.queue]) is a total
      function from the index to the byte.  The indices from
      [MAP_QUEUE_SIZE] on are not part of the array: in C a write there goes
      into [map.qlen] and what follows it, and the behaviour is undefined
      from then on.  The embedding keeps such a byte in the function and does
      not follow the damage; [splice_fits] says that a splice stays inside
      the array, and the theorems about runs of the queue are stated for runs
      that do, but for the one on the capacity of the queue, which exhibits
      the splice that does not.
    - Loops of the source are [Fixpoint]s named after what they do; the
      loop of [map_handle_keys] that may run forever takes fuel. *)

From Stdlib Require Import ZArith String Ascii List Lia Bool Permutation.
From stdpp Require Import list.
Import ListNotations.
Open Scope Z_scope.

(** ** C strings and bytes *)

Module C.

Definition ch (a : ascii) : Z := Z.of_N (N_of_ascii a).
Arguments ch a%_char.

(** The bytes of a string literal. *)
Definition str (s : string) : list Z := map ch (list_ascii_of_string s).
Arguments str s%_string.

(** [p[i]] for a NUL terminated string [p]. *)
Definition cstr (l : list Z) : Z -> Z :=
  fun i => if i <? 0 then 0 else nth (Z.to_nat i) l 0.

(** [strlen]: the bytes before the first NUL. *)
Fixpoint strlen (l : list Z) : Z :=
  match l with
  | [] => 0
  | c :: l' => if c =? 0 then 0 else 1 + strlen l'
  end.

(** [strncmp(s1, s2, n)], both read from index [i] on: compare at most [n]
    bytes and stop behind a NUL. *)
Fixpoint strncmp_from (s1 s2 : Z -> Z) (i : Z) (n : nat) : Z :=
  match n with
  | O => 0
  | S n' =>
    let c1 := s1 i in
    let c2 := s2 i in
    if c1 =? c2
    then if c1 =? 0 then 0 else strncmp_from s1 s2 (i + 1) n'
    else c1 - c2
  end.

Definition strncmp (s1 s2 : Z -> Z) (n : Z) : Z :=
  strncmp_from s1 s2 0 (Z.to_nat n).

(** [strcmp(s1, s2)] of two NUL terminated strings. *)
Fixpoint strcmp (s1 s2 : list Z) : Z :=
  match s1, s2 with
  | [], [] => 0
  | [], c2 :: _ => 0 - c2
  | c1 :: _, [] => c1
  | c1 :: s1', c2 :: s2' =>
    if c1 =? c2 then if c1 =? 0 then 0 else strcmp s1' s2' else c1 - c2
  end.

(** [isdigit] of ctype.h. *)
Definition isdigit (c : Z) : bool := (ch "0" <=? c) && (c <=? ch "9").

(** A 32 bit [int] with the wrap-around of two's complement. *)
Definition int_wrap (z : Z) : Z := (z + 2 ^ 31) mod 2 ^ 32 - 2 ^ 31.

(** The [int] that a [char] holding the byte [b] is converted to.  Whether
    plain [char] is signed is the choice of the C implementation; where it
    is, the bytes from 0x80 on are negative. *)
Definition int_of_char (signed : bool) (b : Z) : Z :=
  if (0x80 <=? b) && signed then b - 0x100 else b.

End C.
Import C.

(** ** src/map.c *)

Module Map.

(** Key symbols and modifier masks of GDK (gdk/gdkkeysyms.h, gdktypes.h). *)
Definition GDK_SHIFT_MASK : Z := 1.
Definition GDK_CONTROL_MASK : Z := 4.
Definition GDK_BackSpace : Z := 0xff08.
Definition GDK_Tab : Z := 0xff09.
Definition GDK_Linefeed : Z := 0xff0a.
Definition GDK_Return : Z := 0xff0d.
Definition GDK_Escape : Z := 0xff1b.
Definition GDK_Left : Z := 0xff51.
Definition GDK_Up : Z := 0xff52.
Definition GDK_Right : Z := 0xff53.
Definition GDK_Down : Z := 0xff54.
Definition GDK_KP_Tab : Z := 0xff89.
Definition GDK_F1 : Z := 0xffbe.
Definition GDK_F2 : Z := 0xffbf.
Definition GDK_F3 : Z := 0xffc0.
Definition GDK_F4 : Z := 0xffc1.
Definition GDK_F5 : Z := 0xffc2.
Definition GDK_F6 : Z := 0xffc3.
Definition GDK_F7 : Z := 0xffc4.
Definition GDK_F8 : Z := 0xffc5.
Definition GDK_F9 : Z := 0xffc6.
Definition GDK_F10 : Z := 0xffc7.
Definition GDK_F11 : Z := 0xffc8.
Definition GDK_F12 : Z := 0xffc9.
Definition GDK_ISO_Left_Tab : Z := 0xfe20.
Definition GDK_ISO_Enter : Z := 0xfe34.
Definition GDK_3270_Enter : Z := 0xfd1e.

(** [typedef struct { char *in; int inlen; char *mapped; int mappedlen;
    char mode; } Map] *)
Record Map := {
  in_ : list Z;       (* input keys *)
  inlen : Z;          (* length of the input keys *)
  mapped : list Z;    (* mapped keys *)
  mappedlen : Z;      (* length of the mapped keys string *)
  mode : Z            (* mode for which the map is available *)
}.

(** [MapState], the result of [map_handle_keys] (map.h). *)
Inductive MapState := MAP_DONE | MAP_AMBIGUOUS | MAP_NOMATCH.

(** The part of [vb.mode] the resolver reads and writes. *)
Record Mode := { id : Z; flags : Z }.

(** The static [map] of map.c together with what the resolver reaches of
    [vb]: the active mode and, in [sent], the keys handed to
    [mode_handle_key] so far, oldest first.  The GLib timer id is left out:
    arming and removing the timer touches nothing else. *)
Record state := {
  maps : list Map;        (* map.list *)
  queue : Z -> Z;         (* map.queue *)
  qlen : Z;               (* map.qlen *)
  resolved : Z;           (* map.resolved *)
  vb_mode : Mode;         (* vb.mode *)
  sent : list Z
}.

Section Engine.

(** Constants and macros of headers that are not part of the two files. *)
Variable MAP_QUEUE_SIZE : Z.           (* config.h *)
Variable CSI : Z.                      (* ascii.h; CSI_STR is the same byte *)
Variable TERMCAP2KEY : Z -> Z -> Z.    (* ascii.h *)
Variable FLAG_NOMAP : Z.               (* mode.h *)
Variable char_signed : bool.           (* whether plain [char] is signed *)
Variables KEY_TAB KEY_NL KEY_CR KEY_ESC KEY_BS : Z.   (* map.h *)

(** Collaborators. [gdk_keyval_to_unicode] is GDK's; [mode_handle_key] is
    the downstream consumer, the parser of the active mode: given the keys it
    has seen, the active mode, [map.list] and the next key it says which mode
    is active afterwards and what [map.list] is then.  The parser of the
    command line reaches map.c through [map_insert] and [map_delete] (ex.c:
    [ex_map], [ex_unmap]), which change [map.list] and leave the queue alone;
    the parser is taken not to call back into [map_handle_keys]. *)
Variable gdk_keyval_to_unicode : Z -> Z.
Variable mode_handle_key : list Z -> Mode -> list Map -> Z -> Mode * list Map.

(** *** convert_keylabel *)

(** The table [keys] of [convert_keylabel]: label, len, ch, chlen. *)
Definition keys : list (list Z * Z * list Z * Z) :=
  [ (str "<CR>",    4, str (String "010" ""), 1);
    (str "<Tab>",   5, str (String "009" ""), 1);
    (str "<S-Tab>", 7, CSI :: str "kB", 3);
    (str "<Esc>",   5, str (String "027" ""), 1);
    (str "<Up>",    4, CSI :: str "ku", 3);
    (str "<Down>",  6, CSI :: str "kd", 3);
    (str "<Left>",  6, CSI :: str "kl", 3);
    (str "<Right>", 7, CSI :: str "kr", 3);
    (str "<F1>",    4, CSI :: str "k1", 3);
    (str "<F2>",    4, CSI :: str "k2", 3);
    (str "<F3>",    4, CSI :: str "k3", 3);
    (str "<F4>",    4, CSI :: str "k4", 3);
    (str "<F5>",    4, CSI :: str "k5", 3);
    (str "<F6>",    4, CSI :: str "k6", 3);
    (str "<F7>",    4, CSI :: str "k7", 3);
    (str "<F8>",    4, CSI :: str "k8", 3);
    (str "<F9>",    4, CSI :: str "k9", 3);
    (str "<F10>",   5, CSI :: str "k;", 3);
    (str "<F11>",   5, CSI :: str "F1", 3);
    (str "<F12>",   5, CSI :: str "F2", 3) ].

(** The [for] loop of [convert_keylabel] over the rest of the table. *)
Fixpoint convert_keylabel_loop (tbl : list (list Z * Z * list Z * Z))
    (p : list Z) (inlen : Z) : option (list Z) * Z :=
  match tbl with
  | [] => (None, 0)
  | (label, len, c, chlen) :: tbl' =>
    if (inlen =? len) && (strncmp (cstr label) (cstr p) inlen =? 0)
    then (Some c, chlen)
    else convert_keylabel_loop tbl' p inlen
  end.

(** [convert_keylabel(in, inlen, &len)]: the raw keys and [*len]. *)
Definition convert_keylabel (p : list Z) (inlen : Z) : option (list Z) * Z :=
  convert_keylabel_loop keys p inlen.

(** *** convert_keys *)

(** The [do ... while] that searches the [>] of a label; [p] points to the
    [<] and ends where [in] ends. *)
Fixpoint search_gt (fuel : nat) (p : list Z) (symlen : nat) : nat :=
  match fuel with
  | O => symlen
  | S fuel' =>
    match p !! symlen with
    | None => symlen
    | Some c =>
      if (c =? ch "<") || (c =? ch " ") then symlen
      else if negb (c =? ch ">") then search_gt fuel' p (S symlen)
      else S symlen
    end
  end.

(** One label at [p] (which starts with [<]): [symlen], [raw], [rawlen]. *)
Definition convert_one (p : list Z) : nat * list Z * Z :=
  let symlen := search_gt (length p) p 1 in
  let p_ := cstr p in
  let '(raw, rawlen) :=
    if p_ (Z.of_nat symlen - 1) =? ch ">" then
      let '(raw, rawlen) :=
        if (Z.of_nat symlen =? 5) && (p_ 2 =? ch "-") then
          if p_ 1 =? ch "C" then
            if (0x41 <=? p_ 3) && (p_ 3 <=? 0x5d) then (Some [p_ 3 - 0x40], 1)
            else if (0x61 <=? p_ 3) && (p_ 3 <=? 0x7a) then (Some [p_ 3 - 0x60], 1)
            else (None, 0)
          else (None, 0)
        else (None, 0) in
      if rawlen =? 0 then convert_keylabel p (Z.of_nat symlen) else (raw, rawlen)
    else (None, 0) in
  if rawlen =? 0
  then (symlen, take symlen p, Z.of_nat symlen)
  else (symlen, take (Z.to_nat rawlen) (default [] raw), rawlen).

(** The [for] loop of [convert_keys]; every round consumes a byte or more. *)
Fixpoint convert_keys_loop (fuel : nat) (p : list Z) (dest : list Z) (len : Z)
    : list Z * Z :=
  match fuel with
  | O => (dest, len)
  | S fuel' =>
    match p with
    | [] => (dest, len)
    | c :: p' =>
      if negb (c =? ch "<") then convert_keys_loop fuel' p' (dest ++ [c]) (len + 1)
      else
        let '(symlen, raw, rawlen) := convert_one p in
        convert_keys_loop fuel' (drop symlen p) (dest ++ raw) (len + rawlen)
    end
  end.

(** [convert_keys(in, inlen, &len)]: the raw key sequence and [*len]. *)
Definition convert_keys (in_ : list Z) : list Z * Z :=
  convert_keys_loop (length in_) in_ [] 0.

(** *** keyval_to_string *)

(** The bytes [utf_char2bytes] writes to [buf]; the result is their number. *)
Definition utf_char2bytes (c : Z) : list Z :=
  if c <? 0x80 then [c]
  else if c <? 0x800 then
    [0xc0 + Z.shiftr c 6; 0x80 + Z.land c 0x3f]
  else if c <? 0x10000 then
    [0xe0 + Z.shiftr c 12; 0x80 + Z.land (Z.shiftr c 6) 0x3f; 0x80 + Z.land c 0x3f]
  else if c <? 0x200000 then
    [0xf0 + Z.shiftr c 18; 0x80 + Z.land (Z.shiftr c 12) 0x3f;
     0x80 + Z.land (Z.shiftr c 6) 0x3f; 0x80 + Z.land c 0x3f]
  else if c <? 0x4000000 then
    [0xf8 + Z.shiftr c 24; 0x80 + Z.land (Z.shiftr c 18) 0x3f;
     0x80 + Z.land (Z.shiftr c 12) 0x3f; 0x80 + Z.land (Z.shiftr c 6) 0x3f;
     0x80 + Z.land c 0x3f]
  else
    [0xfc + Z.shiftr c 30; 0x80 + Z.land (Z.shiftr c 24) 0x3f;
     0x80 + Z.land (Z.shiftr c 18) 0x3f; 0x80 + Z.land (Z.shiftr c 12) 0x3f;
     0x80 + Z.land (Z.shiftr c 6) 0x3f; 0x80 + Z.land c 0x3f].

(** [keyval_to_string(keyval, state, string)]: the bytes written to
    [string]; the result [len] is their number. *)
Definition keyval_to_string (keyval state : Z) : list Z :=
  if (keyval =? GDK_Tab) || (keyval =? GDK_KP_Tab) || (keyval =? GDK_ISO_Left_Tab)
  then [KEY_TAB]
  else if keyval =? GDK_Linefeed then [KEY_NL]
  else if (keyval =? GDK_Return) || (keyval =? GDK_ISO_Enter)
          || (keyval =? GDK_3270_Enter)
  then [KEY_CR]
  else if keyval =? GDK_Escape then [KEY_ESC]
  else if keyval =? GDK_BackSpace then [KEY_BS]
  else
    let uc := gdk_keyval_to_unicode keyval in
    if negb (uc =? 0) then
      if negb (Z.land state GDK_CONTROL_MASK =? 0) && (0x20 <=? uc) && (uc <? 0x80)
      then
        if ch "@" <=? uc then [Z.land uc 0x1f]
        else if uc =? ch "8" then [KEY_BS]
        else [uc]
      else utf_char2bytes uc
    else [].

(** *** The key queue *)

(** [q[i] = v] *)
Definition poke (q : Z -> Z) (i v : Z) : Z -> Z :=
  fun j => if j =? i then v else q j.

(** [g_memmove(q, q + k, n)] *)
Definition memmove (q : Z -> Z) (k n : Z) : Z -> Z :=
  fun j => if (0 <=? j) && (j <? n) then q (j + k) else q j.

(** [strncpy(q, src, n)], writing from index [i] on: [n] bytes, NULs once
    [src] has ended. *)
Fixpoint strncpy_from (q : Z -> Z) (src : list Z) (i : Z) (n : nat) : Z -> Z :=
  match n with
  | O => q
  | S n' =>
    match src with
    | [] => strncpy_from (poke q i 0) [] (i + 1) n'
    | c :: src' =>
      if c =? 0 then strncpy_from (poke q i 0) [] (i + 1) n'
      else strncpy_from (poke q i c) src' (i + 1) n'
    end
  end.

Definition strncpy (q : Z -> Z) (src : list Z) (n : Z) : Z -> Z :=
  strncpy_from q src 0 (Z.to_nat n).

(** The first [qlen] bytes of the queue. *)
Definition contents (s : state) : list Z :=
  map (fun i => queue s (Z.of_nat i)) (seq 0 (Z.to_nat (qlen s))).

(** *** map_handle_keys *)

(** [while (map.qlen < LENGTH(map.queue) && keylen > 0)]: copy the keys onto
    the end of the queue. *)
Fixpoint copy_keys (keys : list Z) (s : state) : state :=
  match keys with
  | [] => s
  | k :: keys' =>
    if qlen s <? MAP_QUEUE_SIZE
    then copy_keys keys'
           {| maps := maps s; queue := poke (queue s) (qlen s) k;
              qlen := qlen s + 1; resolved := resolved s;
              vb_mode := vb_mode s; sent := sent s |}
    else s
  end.

(** [vb.mode->flags &= ~FLAG_NOMAP] *)
Definition nomap_cleared (md : Mode) : Mode :=
  {| id := id md; flags := Z.land (flags md) (Z.lnot FLAG_NOMAP) |}.

(** [map.resolved = r] *)
Definition set_resolved (s : state) (r : Z) : state :=
  {| maps := maps s; queue := queue s; qlen := qlen s; resolved := r;
     vb_mode := vb_mode s; sent := sent s |}.

(** [map.queue[i]] read into an [int]. *)
Definition queue_int (s : state) (i : Z) : Z := int_of_char char_signed (queue s i).

(** The body of [while (map.resolved > 0)]: take the first key off the
    queue, a CSI triplet as one key when three bytes are there, and send it to
    the parser.  The key [qk] is an [int]: the bytes of the queue are
    converted on the way, also as arguments of [TERMCAP2KEY]. *)
Definition send_key (s : state) : state :=
  let csi := (Z.land (queue_int s 0) 0xff =? CSI) && (3 <=? qlen s) in
  let qk := if csi then TERMCAP2KEY (queue_int s 1) (queue_int s 2)
            else queue_int s 0 in
  let n := if csi then 3 else 1 in
  (* remove the nomap flag *)
  let m := nomap_cleared (vb_mode s) in
  (* send the key to the parser *)
  let after := mode_handle_key (sent s) m (maps s) qk in
  {| maps := snd after; queue := memmove (queue s) n (qlen s - n);
     qlen := qlen s - n; resolved := resolved s - n;
     vb_mode := fst after; sent := sent s ++ [qk] |}.

(** [while (map.resolved > 0)]: send any resolved key to the parser.  Every
    round takes one or three from [map.resolved]. *)
Fixpoint send_resolved (fuel : nat) (s : state) : state :=
  match fuel with
  | O => s
  | S fuel' => if 0 <? resolved s then send_resolved fuel' (send_key s) else s
  end.

(** The [for] loop over [map.list] that looks for matching maps: the new
    [match] and [ambiguous]. *)
Fixpoint find_maps (timeout : bool) (s : state) (l : list Map)
    (match_ : option Map) (ambiguous : Z) : option Map * Z :=
  match l with
  | [] => (match_, ambiguous)
  | m :: l' =>
    (* ignore maps for other modes *)
    if negb (mode m =? id (vb_mode s)) then find_maps timeout s l' match_ ambiguous
    else
      (* find ambiguous matches *)
      let ambiguous' :=
        if negb timeout && (qlen s <? inlen m)
           && (strncmp (cstr (in_ m)) (queue s) (qlen s) =? 0)
        then ambiguous + 1 else ambiguous in
      (* complete match or better/longer match than previous found *)
      let match' :=
        if (inlen m <=? qlen s)
           && (strncmp (cstr (in_ m)) (queue s) (inlen m) =? 0)
           && match match_ with None => true | Some m0 => inlen m0 <? inlen m end
        then Some m else match_ in
      find_maps timeout s l' match' ambiguous'
  end.

(** [for (i = .., j = map.qlen; j > match->inlen; ) map.queue[--i] =
    map.queue[--j]]: make some space within the queue. *)
Fixpoint make_space (n : nat) (q : Z -> Z) (i j inlen : Z) : Z -> Z :=
  match n with
  | O => q
  | S n' =>
    if inlen <? j then make_space n' (poke q (i - 1) (q (j - 1))) (i - 1) (j - 1) inlen
    else q
  end.

(** [for (i = .., j = match->inlen; i < map.qlen; ) map.queue[i++] =
    map.queue[j++]]: delete some keys. *)
Fixpoint delete_keys (n : nat) (q : Z -> Z) (i j qlen : Z) : Z -> Z :=
  match n with
  | O => q
  | S n' =>
    if i <? qlen then delete_keys n' (poke q i (q j)) (i + 1) (j + 1) qlen
    else q
  end.

(** The [if (match)] branch: replace the matched chars of the queue by the
    mapped string.  Neither loop nor the [strncpy] looks at
    [MAP_QUEUE_SIZE]; the result is what C does as long as [splice_fits]. *)
Definition replace_matched (m : Map) (s : state) : state :=
  let q1 :=
    if inlen m <? mappedlen m then
      make_space (Z.to_nat (qlen s - inlen m)) (queue s)
        (qlen s + mappedlen m - inlen m) (qlen s) (inlen m)
    else if mappedlen m <? inlen m then
      delete_keys (Z.to_nat (qlen s - mappedlen m)) (queue s)
        (mappedlen m) (inlen m) (qlen s)
    else queue s in
  {| maps := maps s;
     (* copy the mapped string into the queue *)
     queue := strncpy q1 (mapped m) (mappedlen m);
     qlen := qlen s + (mappedlen m - inlen m);
     resolved := if inlen m <=? mappedlen m then inlen m else mappedlen m;
     vb_mode := vb_mode s; sent := sent s |}.

(** [while (true)]: try to resolve keys against the map.  [None] when the
    fuel is used up before the loop returns. *)
Fixpoint resolve_keys (fuel : nat) (timeout use_map : bool)
    (match_ : option Map) (s : state) : option (MapState * state) :=
  match fuel with
  | O => None
  | S fuel' =>
    (* send any resolved key to the parser *)
    let s := send_resolved (Z.to_nat (resolved s)) s in
    (* if all keys where processed return MAP_DONE *)
    if qlen s =? 0 then
      Some (match match_ with Some _ => MAP_DONE | None => MAP_NOMATCH end,
            set_resolved s 0)
    else
      (* try to find matching maps *)
      let try := use_map && (Z.land (flags (vb_mode s)) FLAG_NOMAP =? 0) in
      let '(match_, ambiguous) :=
        if try then find_maps timeout s (maps s) None 0 else (None, 0) in
      if try && negb (ambiguous =? 0) then Some (MAP_AMBIGUOUS, s)
      else
        match match_ with
        | Some m => resolve_keys fuel' timeout use_map match_ (replace_matched m s)
        | None =>
          (* first char is not mapped but resolved *)
          resolve_keys fuel' timeout use_map match_ (set_resolved s 1)
        end
  end.

(** [map_handle_keys(keys, keylen, use_map)]; [keys] holds the [keylen]
    bytes.  A [keylen] of 0 signals a timeout. *)
Definition map_handle_keys (fuel : nat) (keys : list Z) (use_map : bool)
    (s : state) : option (MapState * state) :=
  let timeout := Z.of_nat (length keys) =? 0 in
  resolve_keys fuel timeout use_map None (copy_keys keys s).

(** [do_timeout]: signal the timeout to the key handler. *)
Definition do_timeout (fuel : nat) (s : state) : option (MapState * state) :=
  map_handle_keys fuel [] true s.

(** [map_handle_string(str, use_map)] *)
Definition map_handle_string (fuel : nat) (str : list Z) (use_map : bool)
    (s : state) : option (MapState * state) :=
  let '(keys, len) := convert_keys (take (Z.to_nat (strlen str)) str) in
  map_handle_keys fuel (take (Z.to_nat len) keys) use_map s.

(** *** map_insert, map_delete *)

(** [map_insert(in, mapped, mode)] on [map.list]. *)
Definition map_insert (in_ mapped : list Z) (mode : Z) (l : list Map) : list Map :=
  let '(lhs, inlen) := convert_keys (take (Z.to_nat (strlen in_)) in_) in
  let '(rhs, mappedlen) := convert_keys (take (Z.to_nat (strlen mapped)) mapped) in
  {| Map.in_ := lhs; inlen := inlen; Map.mapped := rhs; mappedlen := mappedlen;
     Map.mode := mode |} :: l.

(** The [for] loop of [map_delete]: whether a map was removed, and the list. *)
Fixpoint map_delete_loop (lhs : list Z) (len mode : Z) (l : list Map)
    : bool * list Map :=
  match l with
  | [] => (false, [])
  | m :: l' =>
    if (Map.mode m =? mode) && (inlen m =? len) && (strcmp (Map.in_ m) lhs =? 0)
    then (true, l')
    else let '(b, l'') := map_delete_loop lhs len mode l' in (b, m :: l'')
  end.

(** [map_delete(in, mode)] on [map.list]. *)
Definition map_delete (in_ : list Z) (mode : Z) (l : list Map) : bool * list Map :=
  let '(lhs, len) := convert_keys (take (Z.to_nat (strlen in_)) in_) in
  map_delete_loop lhs len mode l.

(** *** map_keypress *)

(** [special_keys]: state, keyval, one, two. *)
Definition special_keys : list (Z * Z * Z * Z) :=
  [ (GDK_SHIFT_MASK, GDK_Tab, ch "k", ch "B");
    (0, GDK_Up,    ch "k", ch "u");
    (0, GDK_Down,  ch "k", ch "d");
    (0, GDK_Left,  ch "k", ch "l");
    (0, GDK_Right, ch "k", ch "r");
    (0, GDK_F1,    ch "k", ch "1");
    (0, GDK_F2,    ch "k", ch "2");
    (0, GDK_F3,    ch "k", ch "3");
    (0, GDK_F4,    ch "k", ch "4");
    (0, GDK_F5,    ch "k", ch "5");
    (0, GDK_F6,    ch "k", ch "6");
    (0, GDK_F7,    ch "k", ch "7");
    (0, GDK_F8,    ch "k", ch "8");
    (0, GDK_F9,    ch "k", ch "9");
    (0, GDK_F10,   ch "k", ch ";");
    (0, GDK_F11,   ch "F", ch "1");
    (0, GDK_F12,   ch "F", ch "2") ].

(** The [for] loop over [special_keys]: the new [string]. *)
Fixpoint special_keys_loop (tbl : list (Z * Z * Z * Z)) (keyval state : Z)
    (string : list Z) : list Z :=
  match tbl with
  | [] => string
  | (st, kv, one, two) :: tbl' =>
    if (kv =? keyval) && ((st =? 0) || negb (Z.land state st =? 0))
    then [CSI; one; two]
    else special_keys_loop tbl' keyval state string
  end.

(** The bytes [map_keypress] hands to [map_handle_keys] for a key event. *)
Definition keypress_string (keyval state : Z) : list Z :=
  let string := keyval_to_string keyval state in
  (* translate iso left tab to shift tab *)
  let '(keyval, state) :=
    if keyval =? GDK_ISO_Left_Tab then (GDK_Tab, Z.lor state GDK_SHIFT_MASK)
    else (keyval, state) in
  if (length string =? 0)%nat || (length string =? 1)%nat
  then special_keys_loop special_keys keyval state string
  else string.

(** [map_keypress]: [None] for a key event that is left unhandled. *)
Definition map_keypress (fuel : nat) (keyval state : Z) (s : Map.state)
    : option (option (MapState * Map.state)) :=
  let string := keypress_string keyval state in
  if (length string =? 0)%nat then None
  else Some (map_handle_keys fuel string true s).

End Engine.

(** The splice of [m] stays inside [map.queue]: the loop that makes space
    writes up to index [qlen + mappedlen - inlen - 1], the loop that deletes
    keys reads up to index [qlen + inlen - mappedlen - 1], and both are below
    [MAP_QUEUE_SIZE]. *)
Definition splice_fits (MAP_QUEUE_SIZE : Z) (m : Map) (s : state) : Prop :=
  qlen s + Z.abs (mappedlen m - inlen m) <= MAP_QUEUE_SIZE.

(** A parser that leaves [map.list] as it is, given by the mode it leaves. *)
Definition leaves_maps (f : list Z -> Mode -> Z -> Mode)
    : list Z -> Mode -> list Map -> Z -> Mode * list Map :=
  fun h md l k => (f h md k, l).

(** The parser leaves the maps [l] as they are when it is sent one of the
    keys [ks]. *)
Definition keeps_maps (mode_handle_key : list Z -> Mode -> list Map -> Z -> Mode * list Map)
    (l : list Map) (ks : list Z) : Prop :=
  forall h md k, In k ks -> snd (mode_handle_key h md l k) = l.

(** Whatever the parser is sent, the maps it leaves have the property [P]
    when the maps it found had it. *)
Definition installs_only (mode_handle_key : list Z -> Mode -> list Map -> Z -> Mode * list Map)
    (P : Map -> Prop) : Prop :=
  forall h md l k, Forall P l -> Forall P (snd (mode_handle_key h md l k)).

(** The queue [q] of length [n] holds the bytes [l]. *)
Definition holds (q : Z -> Z) (n : Z) (l : list Z) : Prop :=
  n = Z.of_nat (length l) /\
  forall k, (k < length l)%nat -> q (Z.of_nat k) = nth k l 0.

(** The state [s] has the maps [rules], the bytes [l] in the queue, [r]
    resolved keys, the mode [md] and has sent the keys [h]. *)
Definition state_is (s : state) (rules : list Map) (l : list Z) (r : Z)
    (md : Mode) (h : list Z) : Prop :=
  maps s = rules /\ holds (queue s) (qlen s) l /\ resolved s = r /\
  vb_mode s = md /\ sent s = h.

(** A map as [map_insert] makes it of an input and a mapped string. *)
Definition rule (i o : list Z) (M : Z) : Map :=
  {| in_ := i; inlen := Z.of_nat (length i); mapped := o;
     mappedlen := Z.of_nat (length o); mode := M |}.

(** An exact candidate: a map of the active mode whose input the queue
    begins with. *)
Definition exact_candidate (s : state) (m : Map) : Prop :=
  mode m = id (vb_mode s) /\ inlen m <= qlen s /\
  strncmp (cstr (in_ m)) (queue s) (inlen m) = 0.

(** An ambiguous candidate: a map of the active mode that begins with the
    whole queue and is longer. *)
Definition ambiguous_candidate (s : state) (m : Map) : Prop :=
  mode m = id (vb_mode s) /\ qlen s < inlen m /\
  strncmp (cstr (in_ m)) (queue s) (qlen s) = 0.

(** What [convert_keys] leaves in a [Map]: the length of the input, which
    holds no NUL. *)
Definition well_formed (m : Map) : Prop :=
  inlen m = Z.of_nat (length (in_ m)) /\ Forall (fun c => c <> 0) (in_ m).

(** What the loop of [map_handle_keys] keeps: the length of the queue is
    not negative and no more keys are resolved than the queue holds. *)
Definition in_bounds (s : state) : Prop := 0 <= qlen s /\ resolved s <= qlen s.

(** A map with a key and with no more mapped keys than keys: its splice
    does not make the queue longer. *)
Definition not_growing (m : Map) : Prop :=
  0 < inlen m /\ 0 <= mappedlen m <= inlen m.

(** The keys of [special_keys] by the labels of [convert_keylabel] that name
    them: modifier, keyval, label. *)
Definition named_keys : list (Z * Z * list Z) :=
  [ (GDK_SHIFT_MASK, GDK_Tab, str "<S-Tab>");
    (0, GDK_Up,    str "<Up>");
    (0, GDK_Down,  str "<Down>");
    (0, GDK_Left,  str "<Left>");
    (0, GDK_Right, str "<Right>");
    (0, GDK_F1,    str "<F1>");
    (0, GDK_F2,    str "<F2>");
    (0, GDK_F3,    str "<F3>");
    (0, GDK_F4,    str "<F4>");
    (0, GDK_F5,    str "<F5>");
    (0, GDK_F6,    str "<F6>");
    (0, GDK_F7,    str "<F7>");
    (0, GDK_F8,    str "<F8>");
    (0, GDK_F9,    str "<F9>");
    (0, GDK_F10,   str "<F10>");
    (0, GDK_F11,   str "<F11>");
    (0, GDK_F12,   str "<F12>") ].

End Map.

(** ** src/ex.c *)

Module Ex.

Inductive ExCode :=
  | EX_BMA | EX_BMR | EX_EVAL | EX_CMAP | EX_IMAP | EX_NMAP
  | EX_CUNMAP | EX_IUNMAP | EX_NUNMAP | EX_OPEN
  | EX_QCLEAR | EX_QPOP | EX_QPUSH | EX_QUNSHIFT
  | EX_QUIT | EX_SAVE | EX_SCA | EX_SCD | EX_SCR | EX_SET
  | EX_SHELLCMD | EX_TABOPEN.

(** [ExArg]; the two [GString]s are the lists of their bytes. *)
Record ExArg := {
  count : Z;          (* commands count *)
  idx : nat;          (* index in commands array *)
  name : list Z;      (* name of the command *)
  code : ExCode;      (* id of the command *)
  bang : bool;        (* if the command was called with a bang ! *)
  lhs : list Z;       (* left hand side of the command - single word *)
  rhs : list Z        (* right hand side of the command - multiple words *)
}.

(** The functions an [ExInfo] can point to. *)
Inductive ExFunc :=
  | fn_ex_bookmark | fn_ex_eval | fn_ex_map | fn_ex_unmap | fn_ex_open
  | fn_ex_queue | fn_ex_quit | fn_ex_save | fn_ex_set | fn_ex_shellcmd
  | fn_ex_shortcut.

Definition EX_FLAG_NONE : Z := 0x000.
Definition EX_FLAG_BANG : Z := 0x001.
Definition EX_FLAG_LHS : Z := 0x002.
Definition EX_FLAG_RHS : Z := 0x004.

Record ExInfo := {
  i_name : list Z;    (* full name of the command even if called abreviated *)
  i_code : ExCode;    (* constant id for the command *)
  i_func : ExFunc;
  i_flags : Z
}.

Definition info (n : string) (c : ExCode) (f : ExFunc) (fl : Z) : ExInfo :=
  {| i_name := str n; i_code := c; i_func := f; i_flags := fl |}.

(** The table [commands]; its order is significant. *)
Definition commands : list ExInfo :=
  [ info "bma"              EX_BMA      fn_ex_bookmark EX_FLAG_RHS;
    info "bmr"              EX_BMR      fn_ex_bookmark EX_FLAG_RHS;
    info "cmap"             EX_CMAP     fn_ex_map      (Z.lor EX_FLAG_LHS EX_FLAG_RHS);
    info "cunmap"           EX_CUNMAP   fn_ex_unmap    EX_FLAG_LHS;
    info "eval"             EX_EVAL     fn_ex_eval     EX_FLAG_RHS;
    info "imap"             EX_IMAP     fn_ex_map      (Z.lor EX_FLAG_LHS EX_FLAG_RHS);
    info "iunmap"           EX_IUNMAP   fn_ex_unmap    EX_FLAG_LHS;
    info "nmap"             EX_NMAP     fn_ex_map      (Z.lor EX_FLAG_LHS EX_FLAG_RHS);
    info "nunmap"           EX_NUNMAP   fn_ex_unmap    EX_FLAG_LHS;
    info "open"             EX_OPEN     fn_ex_open     EX_FLAG_RHS;
    info "quit"             EX_QUIT     fn_ex_quit     EX_FLAG_NONE;
    info "qclear"           EX_QCLEAR   fn_ex_queue    EX_FLAG_RHS;
    info "qpop"             EX_QPOP     fn_ex_queue    EX_FLAG_NONE;
    info "qpush"            EX_QPUSH    fn_ex_queue    EX_FLAG_RHS;
    info "qunshift"         EX_QUNSHIFT fn_ex_queue    EX_FLAG_RHS;
    info "save"             EX_SAVE     fn_ex_save     EX_FLAG_RHS;
    info "set"              EX_SET      fn_ex_set      EX_FLAG_RHS;
    info "shellcmd"         EX_SHELLCMD fn_ex_shellcmd EX_FLAG_RHS;
    info "shortcut-add"     EX_SCA      fn_ex_shortcut EX_FLAG_RHS;
    info "shortcut-default" EX_SCD      fn_ex_shortcut EX_FLAG_RHS;
    info "shortcut-remove"  EX_SCR      fn_ex_shortcut EX_FLAG_RHS;
    info "tabopen"          EX_TABOPEN  fn_ex_open     EX_FLAG_RHS ].

(** [*input], a pointer into the NUL terminated command line: at the rest
    [s] of the line (at the terminator when [s] is empty), or moved behind
    the terminator. *)
Inductive cursor := At (s : list Z) | Past.

(** What a parsing function leaves: its result, or the [ExArg] at the
    moment it reads [**input] behind the terminator of the line. *)
Inductive outcome (A : Type) :=
  | Ret (a : A)
  | OutOfBounds (arg : ExArg).
Arguments Ret {A} a.
Arguments OutOfBounds {A} arg.

Definition bind {A B : Type} (m : outcome A) (k : A -> outcome B) : outcome B :=
  match m with
  | Ret a => k a
  | OutOfBounds arg => OutOfBounds arg
  end.

Notation "'get' p <- m 'in' k" := (bind m (fun x => let 'p := x in k))
  (at level 10, p pattern, m at level 100, k at level 200, only parsing).

(** [**input] *)
Definition deref (input : cursor) (arg : ExArg) : outcome Z :=
  match input with
  | At s => Ret (hd 0 s)
  | Past => OutOfBounds arg
  end.

(** Increment of [*input]. *)
Definition advance (input : cursor) : cursor :=
  match input with
  | At (_ :: s) => At s
  | _ => Past
  end.

Definition with_count (arg : ExArg) (n : Z) : ExArg :=
  {| count := n; idx := idx arg; name := name arg; code := code arg;
     bang := bang arg; lhs := lhs arg; rhs := rhs arg |}.

Definition with_lhs (arg : ExArg) (l : list Z) : ExArg :=
  {| count := count arg; idx := idx arg; name := name arg; code := code arg;
     bang := bang arg; lhs := l; rhs := rhs arg |}.

Definition with_rhs (arg : ExArg) (r : list Z) : ExArg :=
  {| count := count arg; idx := idx arg; name := name arg; code := code arg;
     bang := bang arg; lhs := lhs arg; rhs := r |}.

(** *** skip_whitespace *)

Fixpoint skip_spaces (s : list Z) : list Z :=
  match s with
  | [] => []
  | c :: s' => if negb (c =? 0) && (c =? ch " ") then skip_spaces s' else s
  end.

Definition skip_whitespace (input : cursor) (arg : ExArg) : outcome cursor :=
  match input with
  | At s => Ret (At (skip_spaces s))
  | Past => OutOfBounds arg
  end.

(** *** parse_count *)

(** The [do ... while] over the digits, entered at a digit [c]. *)
Fixpoint count_digits (c : Z) (s : list Z) (n : Z) : list Z * Z :=
  let n := int_wrap (n * 10 + (c - ch "0")) in
  match s with
  | [] => ([], n)
  | c' :: s' => if isdigit c' then count_digits c' s' n else (s, n)
  end.

Definition parse_count (input : cursor) (arg : ExArg) : outcome (bool * cursor * ExArg) :=
  get c <- deref input arg in
  if negb (isdigit c) then Ret (true, input, with_count arg 0)
  else
    match input with
    | At (c :: s) =>
      let '(s', n) := count_digits c s (count arg) in
      Ret (true, At s', with_count arg n)
    | _ => Ret (true, input, arg)
    end.

(** *** parse_command_name *)

(** The [for] loop over [commands] from [i] on ([tbl] is the table from
    there): the new [first] and [matches].  [cmd] holds the [len] bytes read
    so far, the last of which is [c]; no name of the table is longer than
    the 20 bytes of the buffer, at the byte behind a name the loop ends. *)
Fixpoint match_commands (tbl : list ExInfo) (i : nat) (cmd : list Z) (len : Z)
    (c : Z) (first matches : nat) : nat * nat :=
  match tbl with
  | [] => (first, matches)
  | e :: tbl' =>
    (* commands are grouped by their first letters, if we reached the
       end of the group there are no more possible matches to find *)
    if (1 <? len) && negb (strncmp (cstr (i_name e)) (cstr cmd) (len - 1) =? 0)
    then (first, matches)
    else if cstr (i_name e) (len - 1) =? c then
      (* partial match found *)
      match_commands tbl' (S i) cmd len c
        (if (matches =? 0)%nat then i else first) (S matches)
    else match_commands tbl' (S i) cmd len c first matches
  end.

(** The [do ... while] (matches left, no NUL, no space) with
    [*input] at [s]: [first], [matches] and [*input] behind the loop. *)
Fixpoint command_name_loop (tbl : list ExInfo) (s : list Z) (cmd : list Z)
    (first : nat) (arg : ExArg) : outcome (nat * nat * cursor) :=
  let c := hd 0 s in
  (* copy the next char into the cmd buffer *)
  let cmd := cmd ++ [c] in
  let '(first, matches) :=
    match_commands (drop first tbl) first cmd (Z.of_nat (length cmd)) c first 0 in
  match s with
  | [] => if (0 <? matches)%nat then OutOfBounds arg else Ret (first, matches, Past)
  | _ :: s' =>
    if (0 <? matches)%nat && negb (hd 0 s' =? 0) && negb (hd 0 s' =? ch " ")
    then command_name_loop tbl s' cmd first arg
    else Ret (first, matches, At s')
  end.

Definition parse_command_name (input : cursor) (arg : ExArg)
    : outcome (bool * cursor * ExArg) :=
  match input with
  | Past => OutOfBounds arg
  | At s =>
    get (first, matches, input) <- command_name_loop commands s [] 0 arg in
    if (matches =? 0)%nat then Ret (false, input, arg)
    else
      let e := nth first commands (info "" EX_BMA fn_ex_bookmark 0) in
      Ret (true, input,
           {| count := count arg; idx := first; name := i_name e; code := i_code e;
              bang := bang arg; lhs := lhs arg; rhs := rhs arg |})
  end.

(** *** parse_lhs, parse_rhs *)

Definition quote : Z := ch "\".

(** The [while] loop of [parse_lhs] (until a NUL or a space) with [*input] at
    [s]; [l] is [arg->lhs].  Behind a backslash the source tests [!*input],
    the pointer, which is never NULL: the branch that would keep only the
    backslash is not reached, and at the end of the line the last branch
    appends the backslash and the terminator and moves behind it. *)
Fixpoint parse_lhs_loop (s : list Z) (arg : ExArg) (l : list Z)
    : outcome (cursor * ExArg) :=
  match s with
  | [] => Ret (At s, with_lhs arg l)
  | c :: s' =>
    if (c =? 0) || (c =? ch " ") then Ret (At s, with_lhs arg l)
    else if c =? quote then
      (* move pointer to the next char *)
      match s' with
      | [] => OutOfBounds (with_lhs arg (l ++ [quote; 0]))
      | c' :: s'' =>
        if c' =? ch " "
        then (* escaped whitespace becomes only whitespace *)
          parse_lhs_loop s'' arg (l ++ [c'])
        else (* put escape char and next char into the result string *)
          parse_lhs_loop s'' arg (l ++ [quote; c'])
      end
    else (* unquoted char *)
      parse_lhs_loop s' arg (l ++ [c])
  end.

Definition parse_lhs (input : cursor) (arg : ExArg) : outcome (bool * cursor * ExArg) :=
  get c <- deref input arg in
  if c =? 0 then Ret (false, input, arg)
  else
    match input with
    | At s => get (input, arg) <- parse_lhs_loop s arg (lhs arg) in Ret (true, input, arg)
    | Past => OutOfBounds arg
    end.

(** The [while] loop of [parse_rhs] (until a NUL, a newline or a bar); the body is that of [parse_lhs] on [arg->rhs]. *)
Fixpoint parse_rhs_loop (s : list Z) (arg : ExArg) (r : list Z)
    : outcome (cursor * ExArg) :=
  match s with
  | [] => Ret (At s, with_rhs arg r)
  | c :: s' =>
    if (c =? 0) || (c =? 10) || (c =? ch "|") then Ret (At s, with_rhs arg r)
    else if c =? quote then
      match s' with
      | [] => OutOfBounds (with_rhs arg (r ++ [quote; 0]))
      | c' :: s'' =>
        if c' =? ch " "
        then parse_rhs_loop s'' arg (r ++ [c'])
        else parse_rhs_loop s'' arg (r ++ [quote; c'])
      end
    else parse_rhs_loop s' arg (r ++ [c])
  end.

Definition parse_rhs (input : cursor) (arg : ExArg) : outcome (bool * cursor * ExArg) :=
  get c <- deref input arg in
  if c =? 0 then Ret (false, input, arg)
  else
    match input with
    | At s => get (input, arg) <- parse_rhs_loop s arg (rhs arg) in Ret (true, input, arg)
    | Past => OutOfBounds arg
    end.

(** *** parse *)

(** The [while] loop of [parse] over leading colons and spaces. *)
Fixpoint skip_colons (s : list Z) : list Z :=
  match s with
  | [] => []
  | c :: s' =>
    if negb (c =? 0) && ((c =? ch ":") || (c =? ch " ")) then skip_colons s' else s
  end.

Definition parse (input : cursor) (arg : ExArg) : outcome (bool * cursor * ExArg) :=
  get c <- deref input arg in
  if c =? 0 then Ret (false, input, arg)
  else
    (* trunkacate string from potentially previous run *)
    let arg := with_rhs (with_lhs arg []) [] in
    (* remove leading whitespace and : *)
    let input := match input with At s => At (skip_colons s) | Past => Past end in
    get (_, input, arg) <- parse_count input arg in
    get input <- skip_whitespace input arg in
    get (ok, input, arg) <- parse_command_name input arg in
    if negb ok then Ret (false, input, arg)
    else
      (* get the command and it's flags to decide what to parse *)
      let cmd := nth (idx arg) commands (info "" EX_BMA fn_ex_bookmark 0) in
      (* parse the lhs if this is available *)
      get input <- skip_whitespace input arg in
      get (_, input, arg) <-
        (if negb (Z.land (i_flags cmd) EX_FLAG_LHS =? 0) then parse_lhs input arg
         else Ret (true, input, arg)) in
      (* parse the rhs if this is available *)
      get input <- skip_whitespace input arg in
      get (_, input, arg) <-
        (if negb (Z.land (i_flags cmd) EX_FLAG_RHS =? 0) then parse_rhs input arg
         else Ret (true, input, arg)) in
      get c <- deref input arg in
      Ret (true, if negb (c =? 0) then advance input else input, arg).

(** *** ex_fill_completion *)

(** [g_str_has_prefix(str, prefix)] of GLib:
    [strncmp(str, prefix, strlen(prefix)) == 0]. *)
Definition g_str_has_prefix (s prefix : list Z) : bool :=
  strncmp (cstr s) (cstr prefix) (strlen prefix) =? 0.

(** The first [for] loop of [ex_fill_completion], for an empty input: every
    command is appended to the store. *)
Fixpoint fill_all (tbl : list ExInfo) (store : list (list Z)) (found : bool)
    : bool * list (list Z) :=
  match tbl with
  | [] => (found, store)
  | cmd :: tbl' => fill_all tbl' (store ++ [i_name cmd]) true
  end.

(** The second [for] loop: the commands that begin with the input. *)
Fixpoint fill_matching (tbl : list ExInfo) (input : list Z)
    (store : list (list Z)) (found : bool) : bool * list (list Z) :=
  match tbl with
  | [] => (found, store)
  | cmd :: tbl' =>
    if g_str_has_prefix (i_name cmd) input
    then fill_matching tbl' input (store ++ [i_name cmd]) true
    else fill_matching tbl' input store found
  end.

(** [ex_fill_completion(store, input)]: [found] and the rows of the store
    (the names in the column [COMPLETION_STORE_FIRST]); [None] is a NULL
    [input]. *)
Definition ex_fill_completion (store : list (list Z)) (input : option (list Z))
    : bool * list (list Z) :=
  match input with
  | None => fill_all commands store false
  | Some s =>
    if hd 0 s =? 0 then fill_all commands store false
    else fill_matching commands s store false
  end.

(** *** execute and the ex commands *)

(** What the commands reach outside of ex.c: [map.list] of map.c and, in
    [dispatched], the commands handed to [execute] so far with the result
    of each, oldest first. *)
Record world := {
  maplist : list Map.Map;
  dispatched : list (ExArg * bool)
}.

Section Dispatch.

Variable CSI : Z.    (* ascii.h, for the key labels of map_insert *)

(** The collaborators (bookmarks, settings, web view, shell, ...): whether
    the operation an ex command hands over to succeeds, given the commands
    dispatched before and the command. *)
Variable collab : list (ExArg * bool) -> ExArg -> bool.

Definition g_len (g : list Z) : Z := Z.of_nat (length g).

(** [strchr(s, c) != NULL] for a NUL terminated [s] and [c] not NUL. *)
Fixpoint strchr (s : list Z) (c : Z) : bool :=
  match s with
  | [] => false
  | x :: s' => if x =? 0 then false else (x =? c) || strchr s' c
  end.

Definition ex_bookmark (arg : ExArg) (w : world) : bool * world :=
  (collab (dispatched w) arg, w).

Definition ex_eval (arg : ExArg) (w : world) : bool * world :=
  if g_len (rhs arg) =? 0 then (false, w)
  else (collab (dispatched w) arg, w).

Definition ex_map (arg : ExArg) (w : world) : bool * world :=
  if (g_len (lhs arg) =? 0) || (g_len (rhs arg) =? 0) then (false, w)
  else
    let mode :=
      match code arg with
      | EX_NMAP => ch "n"
      | EX_CMAP => ch "c"
      | _ => ch "i"
      end in
    (true, {| maplist := Map.map_insert CSI (lhs arg) (rhs arg) mode (maplist w);
              dispatched := dispatched w |}).

Definition ex_unmap (arg : ExArg) (w : world) : bool * world :=
  if g_len (lhs arg) =? 0 then (false, w)
  else
    let mode :=
      match code arg with
      | EX_NUNMAP => ch "n"
      | EX_CUNMAP => ch "c"
      | _ => ch "i"
      end in
    (true, {| maplist := snd (Map.map_delete CSI (lhs arg) mode (maplist w));
              dispatched := dispatched w |}).

Definition ex_open (arg : ExArg) (w : world) : bool * world :=
  (collab (dispatched w) arg, w).

Definition ex_queue (arg : ExArg) (w : world) : bool * world :=
  match code arg with
  | EX_QPUSH | EX_QUNSHIFT | EX_QPOP | EX_QCLEAR => (collab (dispatched w) arg, w)
  | _ => (false, w)
  end.

Definition ex_quit (arg : ExArg) (w : world) : bool * world := (true, w).

Definition ex_save (arg : ExArg) (w : world) : bool * world :=
  (collab (dispatched w) arg, w).

(** [ex_set] cuts [arg->rhs->str] at the [=] before it calls [setting_run];
    [parse] truncates the string before it is read again. *)
Definition ex_set (arg : ExArg) (w : world) : bool * world :=
  if g_len (rhs arg) =? 0 then (false, w)
  else (collab (dispatched w) arg, w).

Definition ex_shellcmd (arg : ExArg) (w : world) : bool * world :=
  if cstr (rhs arg) 0 =? 0 then (false, w)
  else (collab (dispatched w) arg, w).

Definition ex_shortcut (arg : ExArg) (w : world) : bool * world :=
  match code arg with
  | EX_SCA =>
    if negb (g_len (rhs arg) =? 0) && strchr (rhs arg) (ch "=")
    then (collab (dispatched w) arg, w)
    else (false, w)
  | EX_SCR | EX_SCD => (collab (dispatched w) arg, w)
  | _ => (false, w)
  end.

(** [execute(arg)]: call [commands[arg->idx].func]. *)
Definition execute (arg : ExArg) (w : world) : bool * world :=
  let '(ok, w') :=
    match i_func (nth (idx arg) commands (info "" EX_BMA fn_ex_bookmark 0)) with
    | fn_ex_bookmark => ex_bookmark arg w
    | fn_ex_eval => ex_eval arg w
    | fn_ex_map => ex_map arg w
    | fn_ex_unmap => ex_unmap arg w
    | fn_ex_open => ex_open arg w
    | fn_ex_queue => ex_queue arg w
    | fn_ex_quit => ex_quit arg w
    | fn_ex_save => ex_save arg w
    | fn_ex_set => ex_set arg w
    | fn_ex_shellcmd => ex_shellcmd arg w
    | fn_ex_shortcut => ex_shortcut arg w
    end in
  (ok, {| maplist := maplist w'; dispatched := dispatched w ++ [(arg, ok)] |}).

(** *** ex_run_string *)

(** How [ex_run_string] ends: with its result, or reading behind the
    terminator of the line. *)
Inductive run_result :=
  | Finished (ok : bool) (w : world)
  | Overrun (arg : ExArg) (w : world).

(** [while (input && *input)]; every round that goes on has consumed a byte
    of the line, [None] stands for fuel that did not suffice. *)
Fixpoint run_loop (fuel : nat) (input : cursor) (arg : ExArg) (w : world)
    : option run_result :=
  match fuel with
  | O => None
  | S fuel' =>
    match deref input arg with
    | OutOfBounds a => Some (Overrun a w)
    | Ret c =>
      if c =? 0 then Some (Finished true w)
      else
        match parse input arg with
        | OutOfBounds a => Some (Overrun a w)
        | Ret (ok, input', arg') =>
          if negb ok then Some (Finished false w)
          else
            let '(ok, w') := execute arg' w in
            if negb ok then Some (Finished false w')
            else run_loop fuel' input' arg' w'
        end
    end
  end.

(** The [ExArg] of [g_new0] with two empty strings. *)
Definition new_arg : ExArg :=
  {| count := 0; idx := 0; name := []; code := EX_BMA; bang := false;
     lhs := []; rhs := [] |}.

Definition ex_run_string (input : list Z) (w : world) : option run_result :=
  run_loop (S (length input)) (At input) new_arg w.

End Dispatch.

Definition world_of (r : run_result) : world :=
  match r with
  | Finished _ w => w
  | Overrun _ w => w
  end.

(** The number that the decimal digits [D] write behind the number [n]. *)
Definition digits_val (D : list Z) (n : Z) : Z :=
  fold_left (fun v c => v * 10 + (c - ch "0")) D n.

Definition digits (D : list Z) : Prop := Forall (fun c => isdigit c = true) D.

(** Whether [parse_command_name] accepts the bytes [p] as a whole. *)
Definition accepts (p : list Z) : bool :=
  match command_name_loop commands p [] 0 new_arg with
  | Ret (_, m, At []) => (0 <? m)%nat
  | _ => false
  end.

(** Entries [i] and [j] of the table agree on their first [n] bytes. *)
Definition share (i j n : nat) : bool :=
  let a := i_name (nth i commands (info "" EX_BMA fn_ex_bookmark 0)) in
  let b := i_name (nth j commands (info "" EX_BMA fn_ex_bookmark 0)) in
  negb (i =? j)%nat && (0 <? n)%nat && (n <=? length a)%nat && (n <=? length b)%nat
  && bool_decide (take n a = take n b).

(** Every beginning that two entries share is accepted. *)
Definition shared_accepted : bool :=
  forallb (fun i => forallb (fun j => forallb (fun n =>
    implb (share i j n)
      (accepts (take n (i_name (nth i commands (info "" EX_BMA fn_ex_bookmark 0))))))
    (seq 0 17)) (seq 0 22)) (seq 0 22).

(** Every name of the table has a first byte. *)
Definition names_ok (tbl : list ExInfo) : Prop :=
  Forall (fun e => hd 0 (i_name e) <> 0) tbl.

(** The commands that define a map and those that remove one: name, code,
    index in [commands], mode. *)
Definition map_commands : list (list Z * ExCode * nat * Z) :=
  [ (str "cmap", EX_CMAP, 2%nat, ch "c");
    (str "imap", EX_IMAP, 5%nat, ch "i");
    (str "nmap", EX_NMAP, 7%nat, ch "n") ].

Definition unmap_commands : list (list Z * ExCode * nat * Z) :=
  [ (str "cunmap", EX_CUNMAP, 3%nat, ch "c");
    (str "iunmap", EX_IUNMAP, 6%nat, ch "i");
    (str "nunmap", EX_NUNMAP, 8%nat, ch "n") ].

(** A word of a line: a byte or more, none of them a NUL, a space or a
    backslash. *)
Definition plain_word (l : list Z) : Prop :=
  l <> [] /\ Forall (fun c => c <> 0 /\ c <> ch " " /\ c <> quote) l.

(** A text that goes to the end of a line: no NUL, newline, bar or
    backslash, and a first byte that is not a space. *)
Definition plain_text (r : list Z) : Prop :=
  hd 0 r <> 0 /\ hd 0 r <> ch " " /\
  Forall (fun c => c <> 0 /\ c <> 10 /\ c <> ch "|" /\ c <> quote) r.

End Ex.

(** ** An instance for the examples *)

(** The theorems of this file hold for every value of the constants and for
    the collaborators that their sections take.  The examples are evaluated
    at the values below; the headers that define the constants are not among
    the sources. *)
Module Vimb.

Definition MAP_QUEUE_SIZE : Z := 500.
Definition CSI : Z := 0x9b.
Definition TERMCAP2KEY (a b : Z) : Z := - (a + Z.shiftl b 8).
Definition FLAG_NOMAP : Z := 0x0001.

(** Modelled from the spec: [KEY_BS] of map.h, the backspace control byte
    (0x08) that Control with the digit 8 is encoded as. *)
Definition KEY_BS : Z := 0x08.

(** Modelled from the spec: [KEY_TAB] of map.h, the control byte of the
    Tab key, which [convert_keylabel] writes for [<Tab>]. *)
Definition KEY_TAB : Z := 0x09.

(** Modelled from the spec: [KEY_CR] of map.h, the control byte of the
    Return key.  [convert_keylabel] writes a newline for [<CR>] and
    [ex_keypress] runs the line on a newline, so the byte is the newline. *)
Definition KEY_CR : Z := 0x0a.

(** Modelled from the spec: [KEY_NL] of map.h, the control byte of the
    Linefeed key; the newline being that of Return, it is the carriage
    return. *)
Definition KEY_NL : Z := 0x0d.

(** Modelled from the spec: [KEY_ESC] of map.h, the control byte of the
    Escape key, which [convert_keylabel] writes for [<Esc>]. *)
Definition KEY_ESC : Z := 0x1b.

(** GDK maps the Latin-1 key symbols to the character of the same code; the
    rest of its table is left out (0, no character). *)
Definition gdk_keyval_to_unicode (keyval : Z) : Z :=
  if ((0x20 <=? keyval) && (keyval <=? 0x7e))
     || ((0xa0 <=? keyval) && (keyval <=? 0xff))
  then keyval else 0.

(** Plain [char] is signed on the x86 targets of gcc. *)
Definition char_signed : bool := true.

(** A consumer that stays in its mode, *)
Definition stays (_ : list Z) (m : Map.Mode) (_ : Z) : Map.Mode := m.

(** and leaves [map.list] alone. *)
Definition mode_handle_key
    : list Z -> Map.Mode -> list Map.Map -> Z -> Map.Mode * list Map.Map :=
  Map.leaves_maps stays.

(** The empty queue in normal mode with the maps [l]. *)
Definition start (l : list Map.Map) : Map.state :=
  {| Map.maps := l; Map.queue := fun _ => 0; Map.qlen := 0; Map.resolved := 0;
     Map.vb_mode := {| Map.id := ch "n"; Map.flags := 0 |}; Map.sent := [] |}.

End Vimb.

(** The letters. *)
Definition letters : list Z :=
  map Z.of_nat (seq 65 26 ++ seq 97 26).

(** * Properties *)

(** ** C strings *)

Module CFacts.

Lemma cstr_nth (l : list Z) (k : nat) : cstr l (Z.of_nat k) = nth k l 0.
Proof.
  unfold cstr. destruct (Z.ltb_spec (Z.of_nat k) 0) as [H|H]; [lia|].
  now rewrite Nat2Z.id.
Qed.

Lemma cstr_cons (c : Z) (l : list Z) (k : Z) :
  0 <= k -> cstr (c :: l) (k + 1) = cstr l k.
Proof.
  intros H. unfold cstr.
  destruct (Z.ltb_spec (k + 1) 0); [lia|]. destruct (Z.ltb_spec k 0); [lia|].
  replace (Z.to_nat (k + 1)) with (S (Z.to_nat k)) by lia. reflexivity.
Qed.

Lemma cstr_app_l (l x : list Z) (k : nat) :
  (k < length l)%nat -> cstr (l ++ x) (Z.of_nat k) = cstr l (Z.of_nat k).
Proof. intros H. rewrite !cstr_nth. now apply app_nth1. Qed.

Lemma cstr_app_r (l x : list Z) : cstr (l ++ x) (Z.of_nat (length l)) = hd 0 x.
Proof.
  rewrite cstr_nth, app_nth2 by lia. rewrite Nat.sub_diag. now destruct x.
Qed.

(** [strncmp] is 0 exactly when the [n] bytes agree, as long as no NUL is
    met in both strings at once. *)
Lemma strncmp_from_zero (s1 s2 : Z -> Z) (n : nat) (i : Z) :
  (forall k, i <= k < i + Z.of_nat n -> s1 k <> 0 \/ s2 k <> 0) ->
  strncmp_from s1 s2 i n = 0 <->
  (forall k, i <= k < i + Z.of_nat n -> s1 k = s2 k).
Proof.
  revert i. induction n as [|n IH]; intros i Hnz.
  - simpl. split; [intros _ k Hk; lia | reflexivity].
  - cbn [strncmp_from].
    destruct (Z.eqb_spec (s1 i) (s2 i)) as [He|Hne].
    + destruct (Z.eqb_spec (s1 i) 0) as [Hz|Hz].
      * exfalso. destruct (Hnz i) as [H|H]; [lia | congruence | congruence].
      * rewrite IH by (intros k Hk; apply Hnz; lia).
        split; intros H k Hk.
        -- destruct (Z.eq_dec k i) as [->|Hki]; [assumption | apply H; lia].
        -- apply H; lia.
    + split; intros H.
      * exfalso. lia.
      * exfalso. apply Hne, H. lia.
Qed.

Lemma strncmp_zero (s1 s2 : Z -> Z) (n : Z) :
  (forall k, 0 <= k < n -> s1 k <> 0 \/ s2 k <> 0) ->
  strncmp s1 s2 n = 0 <-> (forall k, 0 <= k < n -> s1 k = s2 k).
Proof.
  intros Hnz. unfold strncmp. rewrite strncmp_from_zero.
  - split; intros H k Hk; apply H; lia.
  - intros k Hk. apply Hnz. lia.
Qed.

(** A list without NUL is a prefix of [l] exactly when [l] reads as it up
    to its length. *)
Lemma prefix_cstr (p l : list Z) :
  Forall (fun c => c <> 0) p ->
  p `prefix_of` l <->
  (forall k, 0 <= k < Z.of_nat (length p) -> cstr l k = cstr p k).
Proof.
  intros Hnz. split.
  - intros [x ->] k Hk. rewrite <- (Z2Nat.id k) by lia.
    apply cstr_app_l. lia.
  - revert l. induction Hnz as [|c p Hc Hp IH]; intros l H.
    + apply prefix_nil.
    + destruct l as [|d l].
      * exfalso. specialize (H 0). cbn in H. apply Hc. symmetry. apply H. lia.
      * assert (d = c) as ->. { specialize (H 0). cbn in H. apply H. lia. }
        apply prefix_cons, IH. intros k Hk.
        specialize (H (k + 1)). cbn [length] in H.
        rewrite !cstr_cons in H by lia. apply H. lia.
Qed.

Lemma strncmp_prefix (l p x : list Z) :
  Forall (fun c => c <> 0) p ->
  strncmp (cstr l) (cstr (p ++ x)) (Z.of_nat (length p)) = 0 <-> p `prefix_of` l.
Proof.
  intros Hnz. rewrite prefix_cstr by assumption. rewrite strncmp_zero.
  - split; intros H k Hk; specialize (H k Hk);
      assert (cstr (p ++ x) k = cstr p k)
        by (rewrite <- (Z2Nat.id k) by lia; apply cstr_app_l; lia);
      congruence.
  - intros k Hk. right. rewrite <- (Z2Nat.id k) by lia.
    rewrite cstr_app_l by lia. rewrite cstr_nth.
    rewrite Forall_forall in Hnz. apply Hnz, list_elem_of_In, nth_In. lia.
Qed.

(** The low byte of the [int] of a [char] is the byte. *)
Lemma land_int_of_char (signed : bool) (c : Z) :
  Z.land (int_of_char signed c) 0xff = Z.land c 0xff.
Proof.
  unfold int_of_char. destruct ((128 <=? c) && signed); [|reflexivity].
  change 255 with (Z.ones 8). rewrite !Z.land_ones by lia.
  change (2 ^ 8) with 256. replace (c - 256) with (c + (-1) * 256) by lia.
  apply Z_mod_plus_full.
Qed.

(** The bytes below 0x80 are their own [int]. *)
Lemma int_of_char_ascii (signed : bool) (c : Z) :
  c < 0x80 -> int_of_char signed c = c.
Proof.
  intros H. unfold int_of_char. destruct (Z.leb_spec 128 c); [lia | reflexivity].
Qed.

(** The two bytes of a letter with an umlaut in UTF-8, as [int]s of a signed
    and of an unsigned [char]. *)
Example int_of_char_umlaut :
  map (int_of_char true) [0xc3; 0xa4] = [-61; -92] /\
  map (int_of_char false) [0xc3; 0xa4] = [0xc3; 0xa4].
Proof. split; reflexivity. Qed.

End CFacts.

(** ** The ex command line *)

Module ExFacts.
Import CFacts Ex.

(** *** The name of a command *)

Lemma prefix_snoc (p l : list Z) (c : Z) :
  c <> 0 -> p `prefix_of` l -> cstr l (Z.of_nat (length p)) = c ->
  (p ++ [c]) `prefix_of` l.
Proof.
  intros Hc [x ->] H. rewrite cstr_app_r in H. destruct x as [|d x].
  - cbn in H. congruence.
  - cbn in H. subst d. exists x. now rewrite <- app_assoc.
Qed.

Lemma prefix_snoc_inv (p l : list Z) (c : Z) :
  (p ++ [c]) `prefix_of` l ->
  p `prefix_of` l /\ cstr l (Z.of_nat (length p)) = c.
Proof.
  intros [x ->]. rewrite <- app_assoc. split.
  - now exists ([c] ++ x).
  - now rewrite cstr_app_r.
Qed.

(** Once a match is found [first] stays. *)
Lemma match_commands_keep tbl i cmd len c first matches :
  (0 < matches)%nat ->
  fst (match_commands tbl i cmd len c first matches) = first /\
  (0 < snd (match_commands tbl i cmd len c first matches))%nat.
Proof.
  revert i matches. induction tbl as [|e tbl IH]; intros i matches Hm; cbn.
  - auto.
  - destruct (_ && _); [auto|].
    destruct (_ =? c).
    + destruct (Nat.eqb_spec matches 0); [lia|]. apply IH. lia.
    + now apply IH.
Qed.

(** The first match of a round is the first entry from [i] on that starts
    with the bytes read, and no entry before it does. *)
Lemma match_commands_first tbl i cmd c first :
  Forall (fun x => x <> 0) cmd -> c <> 0 ->
  let r := match_commands tbl i (cmd ++ [c]) (Z.of_nat (length (cmd ++ [c]))) c first 0 in
  (0 < snd r)%nat ->
  exists k e, tbl !! k = Some e /\ fst r = (i + k)%nat /\
    (cmd ++ [c]) `prefix_of` i_name e /\
    forall k' e', (k' < k)%nat -> tbl !! k' = Some e' ->
      ~ (cmd ++ [c]) `prefix_of` i_name e'.
Proof.
  intros Hcmd Hc. revert i.
  assert (Hlen : Z.of_nat (length (cmd ++ [c])) - 1 = Z.of_nat (length cmd)).
  { rewrite length_app. cbn. lia. }
  induction tbl as [|e tbl IH]; intros i r Hr; subst r;
    cbn [match_commands] in Hr |- *.
  - cbn in Hr. lia.
  - rewrite Hlen in *.
    destruct (_ && negb _) eqn:Hbrk; [cbn in Hr; lia|].
    (* the entry is reached: it begins with [cmd] *)
    assert (Hp : cmd `prefix_of` i_name e).
    { destruct cmd as [|x cmd']; [apply prefix_nil|].
      apply andb_false_iff in Hbrk as [Hb|Hb].
      - apply Z.ltb_ge in Hb. rewrite length_app in Hb. cbn in Hb. lia.
      - apply negb_false_iff, Z.eqb_eq in Hb.
        now apply (strncmp_prefix _ _ [c]). }
    destruct (Z.eqb_spec (cstr (i_name e) (Z.of_nat (length cmd))) c) as [Hm|Hm].
    + (* and goes on with [c]: the first match *)
      exists 0%nat, e. split; [reflexivity|]. split.
      * rewrite Nat.add_0_r. apply match_commands_keep. lia.
      * split; [now apply prefix_snoc | intros; lia].
    + destruct (IH (S i) Hr) as (k & e0 & Hk & Hf & Hpre & Hleast).
      exists (S k), e0. split; [exact Hk|]. split; [rewrite Hf; lia|].
      split; [exact Hpre|].
      intros [|k'] e' Hlt He'; cbn in He'.
      * injection He' as <-. intros Hq. apply prefix_snoc_inv in Hq. tauto.
      * apply (Hleast k'); [lia | exact He'].
Qed.

Lemma match_commands_nul tbl i first :
  names_ok tbl -> match_commands tbl i [0] 1 0 first 0 = (first, 0%nat).
Proof.
  intros H. revert i. induction H as [|e tbl He _ IH]; intros i; cbn.
  - reflexivity.
  - change (1 - 1) with 0.
    destruct (Z.eqb_spec (cstr (i_name e) 0) 0) as [Hz|_]; [|apply IH].
    exfalso. apply He. unfold cstr in Hz. cbn in Hz. now destruct (i_name e).
Qed.

(** The invariant of [parse_command_name]: when the loop ends with matches
    left, it has consumed a name [p], stands at the end of the line or at a
    space, and [first] is the first entry of the table that starts with [p]. *)
Lemma command_name_loop_first tbl s : forall cmd first arg f m input',
  names_ok tbl ->
  Forall (fun x => x <> 0) cmd ->
  cmd = [] \/ hd 0 s <> 0 ->
  (forall j e, (j < first)%nat -> tbl !! j = Some e -> ~ cmd `prefix_of` i_name e) ->
  command_name_loop tbl s cmd first arg = Ret (f, m, input') ->
  (0 < m)%nat ->
  exists p r, s = p ++ r /\ input' = At r /\ p <> [] /\
    (hd 0 r = 0 \/ hd 0 r = ch " ") /\
    exists e, tbl !! f = Some e /\ (cmd ++ p) `prefix_of` i_name e /\
      forall j e', (j < f)%nat -> tbl !! j = Some e' ->
        ~ (cmd ++ p) `prefix_of` i_name e'.
Proof.
  induction s as [|c s IH]; intros cmd first arg f m input' Hok Hcmd Hc Hinv Hrun Hm.
  - cbn in Hrun. destruct (match_commands _ _ _ _ _ _ _) as [f1 m1].
    destruct m1; [inversion Hrun; subst; lia | discriminate Hrun].
  - cbn [command_name_loop hd] in Hrun.
    destruct (Z.eq_dec c 0) as [->|Hnz].
    { destruct Hc as [-> | Hc]; [|cbn in Hc; congruence].
      cbn [app length] in Hrun. change (Z.of_nat 1) with 1 in Hrun.
      rewrite match_commands_nul in Hrun.
      2:{ unfold names_ok in *. rewrite <- (take_drop first tbl) in Hok.
          now apply Forall_app in Hok. }
      cbn in Hrun. inversion Hrun; subst; lia. }
    pose proof (match_commands_first (drop first tbl) first cmd c first Hcmd Hnz) as Hfirst.
    cbn zeta in Hfirst.
    destruct (match_commands _ _ _ _ _ _ _) as [f1 m1] eqn:Hmc. cbn [fst snd] in Hfirst.
    assert (Hstep : (0 < m1)%nat ->
      exists e, tbl !! f1 = Some e /\ (cmd ++ [c]) `prefix_of` i_name e /\
        forall j e', (j < f1)%nat -> tbl !! j = Some e' ->
          ~ (cmd ++ [c]) `prefix_of` i_name e').
    { intros H1. destruct (Hfirst H1) as (k & e & Hk & -> & Hpre & Hleast).
      rewrite lookup_drop in Hk. exists e. split; [exact Hk|]. split; [exact Hpre|].
      intros j e' Hj He' Hq.
      destruct (Nat.lt_ge_cases j first) as [Hlt|Hge].
      - apply (Hinv j e' Hlt He'). apply prefix_snoc_inv in Hq. tauto.
      - apply (Hleast (j - first)%nat e'); [lia| |exact Hq].
        rewrite lookup_drop. now replace (first + (j - first))%nat with j by lia. }
    destruct (Nat.ltb_spec 0 m1) as [H1|H1]; cbn [andb] in Hrun.
    2:{ inversion Hrun; subst; lia. }
    destruct (Z.eqb_spec (hd 0 s) 0) as [Hz|Hz]; cbn [negb andb] in Hrun.
    { inversion Hrun; subst. exists [c], s.
      repeat split; [discriminate | now left | now apply Hstep]. }
    destruct (Z.eqb_spec (hd 0 s) (ch " ")) as [Hsp|Hsp]; cbn [negb] in Hrun.
    { inversion Hrun; subst. exists [c], s.
      repeat split; [discriminate | now right | now apply Hstep]. }
    destruct (Hstep H1) as (e1 & He1 & Hpre1 & Hleast1).
    destruct (IH (cmd ++ [c]) f1 arg f m input') as (p & r & -> & -> & Hp & Hr & He);
      try assumption.
    + apply Forall_app. split; [assumption | now constructor].
    + now right.
    + exists (c :: p), r. repeat split; [discriminate | exact Hr |].
      destruct He as (e & He & Hpre & Hleast). exists e.
      rewrite <- app_assoc in Hpre. split; [exact He|]. split; [exact Hpre|].
      intros j e' Hj He'. specialize (Hleast j e' Hj He').
      now rewrite <- app_assoc in Hleast.
Qed.

Lemma commands_names_ok : names_ok commands.
Proof. unfold names_ok, commands. repeat constructor; discriminate. Qed.

Lemma command_name_loop_arg tbl s : forall cmd first arg arg' x,
  command_name_loop tbl s cmd first arg = Ret x ->
  command_name_loop tbl s cmd first arg' = Ret x.
Proof.
  induction s as [|c s IH]; intros cmd first arg arg' x; cbn [command_name_loop].
  - destruct (match_commands _ _ _ _ _ _ _) as [f1 m1].
    destruct (0 <? m1)%nat; [discriminate | trivial].
  - destruct (match_commands _ _ _ _ _ _ _) as [f1 m1].
    destruct (_ && _); [apply IH | trivial].
Qed.

(** What follows the name does not matter when it is the end of the line
    or a space. *)
Lemma command_name_loop_app tbl p r : forall cmd first arg f m,
  r = [] \/ hd 0 r = ch " " ->
  command_name_loop tbl p cmd first arg = Ret (f, m, At []) -> (0 < m)%nat ->
  command_name_loop tbl (p ++ r) cmd first arg = Ret (f, m, At r).
Proof.
  intros cmd first arg f m Hr. revert cmd first.
  induction p as [|c p IH]; intros cmd first Hrun Hm.
  - cbn [command_name_loop] in Hrun. destruct (match_commands _ _ _ _ _ _ _) as [f1 m1].
    destruct (0 <? m1)%nat; [discriminate Hrun | inversion Hrun].
  - cbn [command_name_loop app hd] in Hrun |- *.
    destruct (match_commands _ _ _ _ _ _ _) as [f1 m1].
    destruct p as [|d p].
    + cbn [app hd] in *.
      assert (Hg : negb (hd 0 r =? 0) && negb (hd 0 r =? ch " ") = false).
      { destruct Hr as [-> | ->]; reflexivity. }
      destruct (0 <? m1)%nat eqn:H1; cbn [andb] in Hrun |- *.
      * rewrite Hg.
        destruct (_ && _) in Hrun.
        -- cbn [command_name_loop] in Hrun.
           destruct (match_commands _ _ _ _ _ _ _) as [f2 m2].
           destruct (0 <? m2)%nat; [discriminate Hrun | inversion Hrun].
        -- inversion Hrun; subst. reflexivity.
      * inversion Hrun; subst. apply Nat.ltb_ge in H1. lia.
    + change ((d :: p) ++ r) with (d :: (p ++ r)) in *. cbn [hd] in *.
      destruct (_ && _).
      * now apply IH.
      * inversion Hrun.
Qed.

Lemma shared_accepted_true : shared_accepted = true.
Proof. vm_compute. reflexivity. Qed.

Lemma prefix_take_length (p l : list Z) :
  p `prefix_of` l -> take (length p) l = p /\ (length p <= length l)%nat.
Proof.
  intros [x ->]. split.
  - now rewrite take_app_length.
  - rewrite length_app. lia.
Qed.

(** C6. When the name read so far is, at the end of the line or at a space,
    still the beginning of more than one entry of [commands],
    [parse_command_name] succeeds and selects the first entry, in the order
    of the table, that begins with it. *)
Theorem parse_command_name_selects_first
    (p r : list Z) (arg : ExArg) (i j : nat) (ei ej : ExInfo) :
  p <> [] -> i <> j ->
  commands !! i = Some ei -> commands !! j = Some ej ->
  p `prefix_of` i_name ei -> p `prefix_of` i_name ej ->
  r = [] \/ hd 0 r = ch " " ->
  exists first e,
    parse_command_name (At (p ++ r)) arg =
      Ret (true, At r,
           {| count := count arg; idx := first; name := i_name e; code := i_code e;
              bang := bang arg; lhs := lhs arg; rhs := rhs arg |}) /\
    commands !! first = Some e /\
    p `prefix_of` i_name e /\
    forall k e', (k < first)%nat -> commands !! k = Some e' ->
      ~ p `prefix_of` i_name e'.
Proof.
  intros Hp Hij Hi Hj Hpi Hpj Hr.
  set (d := info "" EX_BMA fn_ex_bookmark 0).
  pose proof (lookup_lt_Some _ _ _ Hi) as Hil.
  pose proof (lookup_lt_Some _ _ _ Hj) as Hjl.
  change (length commands) with 22%nat in Hil, Hjl.
  apply prefix_take_length in Hpi as [Hti Hli], Hpj as [Htj Hlj].
  assert (Hn : (length p < 17)%nat).
  { assert (Hall : Forall (fun e => (length (i_name e) < 17)%nat) commands)
      by (unfold commands; repeat constructor).
    rewrite Forall_forall in Hall.
    specialize (Hall ei (list_elem_of_lookup_2 _ _ _ Hi)). lia. }
  (* the check of the table applies to [i], [j] and the length of [p] *)
  pose proof shared_accepted_true as Hchk. unfold shared_accepted in Hchk.
  rewrite forallb_forall in Hchk.
  specialize (Hchk i ltac:(apply in_seq; lia)). cbv beta in Hchk.
  rewrite forallb_forall in Hchk.
  specialize (Hchk j ltac:(apply in_seq; lia)). cbv beta in Hchk.
  rewrite forallb_forall in Hchk.
  specialize (Hchk (length p) ltac:(apply in_seq; lia)). fold d in Hchk.
  rewrite (nth_lookup_Some _ _ d _ Hi) in Hchk.
  assert (Hsh : share i j (length p) = true).
  { unfold share. fold d.
    rewrite (nth_lookup_Some _ _ d _ Hi), (nth_lookup_Some _ _ d _ Hj).
    rewrite Hti, Htj.
    repeat (apply andb_true_intro; split).
    - apply negb_true_iff, Nat.eqb_neq, Hij.
    - apply Nat.ltb_lt. destruct p; [congruence | cbn; lia].
    - now apply Nat.leb_le.
    - now apply Nat.leb_le.
    - now apply bool_decide_eq_true. }
  rewrite Hsh, Hti in Hchk. cbn [implb] in Hchk.
  unfold accepts in Hchk.
  destruct (command_name_loop commands p [] 0 new_arg) as [[[f m] c]|] eqn:Hloop;
    [|discriminate Hchk].
  destruct c as [[|x xs]|]; try discriminate Hchk. apply Nat.ltb_lt in Hchk.
  apply (command_name_loop_arg _ _ _ _ _ arg) in Hloop.
  apply (command_name_loop_app _ _ r) in Hloop; [|exact Hr|exact Hchk].
  destruct (command_name_loop_first commands (p ++ r) [] 0%nat arg f m (At r))
    as (p' & r' & Happ & Hat & _ & _ & e & He & Hpre & Hleast);
    [apply commands_names_ok | constructor | now left | intros; lia
    | exact Hloop | exact Hchk |].
  injection Hat as <-. apply app_inv_tail in Happ as <-. cbn [app] in Hpre, Hleast.
  exists f, e. split; [|auto].
  unfold parse_command_name. rewrite Hloop. cbn [bind].
  destruct (Nat.eqb_spec m 0); [lia|]. fold d.
  now rewrite (nth_lookup_Some _ _ d _ He).
Qed.

(** C6 at the example of the specification: [qp] selects [qpop], declared
    before [qpush]. *)
Lemma parse_command_name_selects_first_witness :
  exists first e,
    parse_command_name (At (str "qp" ++ [])) new_arg =
      Ret (true, At [],
           {| count := 0; idx := first; name := i_name e; code := i_code e;
              bang := false; lhs := []; rhs := [] |}) /\
    commands !! first = Some e /\
    str "qp" `prefix_of` i_name e /\
    forall k e', (k < first)%nat -> commands !! k = Some e' ->
      ~ str "qp" `prefix_of` i_name e'.
Proof.
  apply (parse_command_name_selects_first (str "qp") [] new_arg 12 13
           (info "qpop" EX_QPOP fn_ex_queue EX_FLAG_NONE)
           (info "qpush" EX_QPUSH fn_ex_queue EX_FLAG_RHS)).
  - discriminate.
  - lia.
  - reflexivity.
  - reflexivity.
  - exists (str "op"). reflexivity.
  - exists (str "ush"). reflexivity.
  - left. reflexivity.
Defined.

Example parse_command_name_qp :
  parse_command_name (At (str "qp")) new_arg =
  Ret (true, At [],
       {| count := 0; idx := 12; name := str "qpop"; code := EX_QPOP;
          bang := false; lhs := []; rhs := [] |}).
Proof. reflexivity. Qed.

(** *** The count *)

Lemma int_wrap_small (z : Z) : - 2 ^ 31 <= z < 2 ^ 31 -> int_wrap z = z.
Proof.
  intros H. unfold int_wrap. rewrite Z.mod_small; lia.
Qed.

Lemma isdigit_range (c : Z) : isdigit c = true -> 48 <= c <= 57.
Proof.
  unfold isdigit. intros H. apply andb_prop in H as [H0 H9].
  apply Z.leb_le in H0, H9. change (ch "0") with 48 in H0.
  change (ch "9") with 57 in H9. lia.
Qed.

Lemma digits_val_ge (D : list Z) (n : Z) :
  digits D -> 0 <= n -> n <= digits_val D n.
Proof.
  intros HD. revert n. induction HD as [|c D Hc _ IH]; intros n Hn; cbn.
  - lia.
  - apply isdigit_range in Hc.
    apply Z.le_trans with (n * 10 + (c - 48)); [lia|].
    apply (IH (n * 10 + (c - 48))). lia.
Qed.

Lemma digits_val_pow (D : list Z) (n : Z) :
  digits_val D n = n * 10 ^ Z.of_nat (length D) + digits_val D 0.
Proof.
  revert n. induction D as [|c D IH]; intros n.
  - cbn. lia.
  - cbn [digits_val fold_left length]. fold (digits_val D (n * 10 + (c - ch "0"))).
    fold (digits_val D (0 * 10 + (c - ch "0"))).
    rewrite (IH (n * 10 + _)), (IH (0 * 10 + _)).
    rewrite Nat2Z.inj_succ, Z.pow_succ_r by lia. lia.
Qed.

(** The digits [c :: D] take the count from [n] to the number they write
    behind it, as long as that number is an [int]. *)
Lemma count_digits_val (D r : list Z) : forall c n,
  digits (c :: D) -> isdigit (hd 0 r) = false ->
  0 <= n -> digits_val (c :: D) n < 2 ^ 31 ->
  count_digits c (D ++ r) n = (r, digits_val (c :: D) n).
Proof.
  induction D as [|d D IH]; intros c n HD Hr Hn Hb.
  - cbn [app count_digits]. inversion HD as [|? ? Hc _]; subst.
    apply isdigit_range in Hc.
    change (digits_val [c] n) with (n * 10 + (c - ch "0")) in *.
    change (ch "0") with 48 in *.
    destruct r as [|x r]; cbn [count_digits hd] in *; change (ch "0") with 48;
      rewrite ?Hr, int_wrap_small by lia; reflexivity.
  - inversion HD as [|? ? Hc HD']; subst.
    pose proof HD' as HD''. inversion HD'' as [|? ? Hd _]; subst.
    pose proof (isdigit_range _ Hc) as Hcr.
    cbn [app count_digits]. rewrite Hd.
    change (digits_val (c :: d :: D) n)
      with (digits_val (d :: D) (n * 10 + (c - ch "0"))) in *.
    change (ch "0") with 48 in *.
    pose proof (digits_val_ge (d :: D) (n * 10 + (c - 48)) HD' ltac:(lia)).
    rewrite int_wrap_small by lia.
    apply IH; [assumption | assumption | lia | assumption].
Qed.

(** *** What the parsing functions leave of the line and of the [ExArg] *)

Lemma skip_spaces_length (s : list Z) : (length (skip_spaces s) <= length s)%nat.
Proof.
  induction s as [|c s IH]; cbn; [lia|]. destruct (_ && _); cbn; lia.
Qed.

Lemma skip_colons_length (s : list Z) : (length (skip_colons s) <= length s)%nat.
Proof.
  induction s as [|c s IH]; cbn; [lia|]. destruct (_ && _); cbn; lia.
Qed.

Lemma count_digits_length (s : list Z) : forall c n,
  (length (fst (count_digits c s n)) <= length s)%nat.
Proof.
  induction s as [|d s IH]; intros c n; cbn; [lia|].
  destruct (isdigit d); cbn; [|lia]. specialize (IH d (int_wrap (n * 10 + (c - ch "0")))).
  lia.
Qed.

Lemma parse_count_shape (s : list Z) (arg : ExArg) :
  exists s' n, parse_count (At s) arg = Ret (true, At s', with_count arg n) /\
    (length s' <= length s)%nat.
Proof.
  unfold parse_count. cbn [deref bind].
  destruct (isdigit (hd 0 s)) eqn:Hd; cbn [negb].
  - destruct s as [|c s]; [discriminate Hd|].
    pose proof (count_digits_length s c (count arg)) as Hl.
    destruct (count_digits c s (count arg)) as [s' n]. exists s', n.
    split; [reflexivity | cbn in *; lia].
  - exists s, 0. split; [reflexivity | lia].
Qed.

Lemma command_name_loop_length tbl s : forall cmd first arg f m input',
  command_name_loop tbl s cmd first arg = Ret (f, m, input') ->
  (0 < m)%nat -> exists s', input' = At s' /\ (length s' < length s)%nat.
Proof.
  induction s as [|c s IH]; intros cmd first arg f m input' H Hm;
    cbn [command_name_loop] in H;
    destruct (match_commands _ _ _ _ _ _ _) as [f1 m1].
  - destruct (Nat.ltb_spec 0 m1); [discriminate H | inversion H; subst; lia].
  - destruct (_ && _).
    + destruct (IH _ _ _ _ _ _ H Hm) as (s' & -> & Hl). exists s'. cbn. split; [reflexivity|lia].
    + inversion H; subst. exists s. cbn. split; [reflexivity|lia].
Qed.

Lemma parse_command_name_shape (s : list Z) (arg : ExArg) input' arg' :
  parse_command_name (At s) arg = Ret (true, input', arg') ->
  count arg' = count arg /\ lhs arg' = lhs arg /\ rhs arg' = rhs arg /\
  exists s', input' = At s' /\ (length s' < length s)%nat.
Proof.
  unfold parse_command_name.
  destruct (command_name_loop commands s [] 0 arg) as [[[f m] i]|] eqn:Hl;
    cbn [bind]; [|discriminate].
  destruct (Nat.eqb_spec m 0) as [Hm|Hm]; [discriminate|].
  intros H. inversion H; subst. cbn. repeat split; try reflexivity.
  apply (command_name_loop_length _ _ _ _ _ _ _ _ Hl). lia.
Qed.

Lemma parse_lhs_loop_shape (n : nat) : forall s arg l input' arg',
  (length s <= n)%nat ->
  parse_lhs_loop s arg l = Ret (input', arg') ->
  exists s' l', input' = At s' /\ arg' = with_lhs arg l' /\
    (length s' <= length s)%nat.
Proof.
  induction n as [|n IH]; intros s arg l input' arg' Hn H.
  - destruct s; [|cbn in Hn; lia]. cbn in H. inversion H; subst. now exists [], l.
  - destruct s as [|c s]; cbn [parse_lhs_loop] in H.
    { inversion H; subst. now exists [], l. }
    destruct (_ || _). { inversion H; subst. now exists (c :: s), l. }
    cbn [length] in Hn.
    destruct (c =? quote).
    + destruct s as [|c' s]; [discriminate H|]. cbn [length] in Hn.
      destruct (c' =? ch " ");
        (apply IH in H; [|lia]); destruct H as (s' & l' & -> & -> & Hl);
        exists s', l'; cbn; repeat split; lia.
    + apply IH in H; [|lia]. destruct H as (s' & l' & -> & -> & Hl).
      exists s', l'; cbn; repeat split; lia.
Qed.

Lemma parse_rhs_loop_shape (n : nat) : forall s arg r input' arg',
  (length s <= n)%nat ->
  parse_rhs_loop s arg r = Ret (input', arg') ->
  exists s' r', input' = At s' /\ arg' = with_rhs arg r' /\
    (length s' <= length s)%nat.
Proof.
  induction n as [|n IH]; intros s arg r input' arg' Hn H.
  - destruct s; [|cbn in Hn; lia]. cbn in H. inversion H; subst. now exists [], r.
  - destruct s as [|c s]; cbn [parse_rhs_loop] in H.
    { inversion H; subst. now exists [], r. }
    destruct (_ || _). { inversion H; subst. now exists (c :: s), r. }
    cbn [length] in Hn.
    destruct (c =? quote).
    + destruct s as [|c' s]; [discriminate H|]. cbn [length] in Hn.
      destruct (c' =? ch " ");
        (apply IH in H; [|lia]); destruct H as (s' & r' & -> & -> & Hl);
        exists s', r'; cbn; repeat split; lia.
    + apply IH in H; [|lia]. destruct H as (s' & r' & -> & -> & Hl).
      exists s', r'; cbn; repeat split; lia.
Qed.

Lemma parse_lhs_shape (s : list Z) (arg : ExArg) b input' arg' :
  parse_lhs (At s) arg = Ret (b, input', arg') ->
  count arg' = count arg /\ idx arg' = idx arg /\
  exists s', input' = At s' /\ (length s' <= length s)%nat.
Proof.
  unfold parse_lhs. cbn [deref bind]. destruct (hd 0 s =? 0).
  - intros H. inversion H; subst. repeat split. now exists s.
  - destruct (parse_lhs_loop s arg (lhs arg)) as [[i a]|] eqn:Hl; cbn [bind]; [|discriminate].
    intros H. inversion H; subst.
    apply (parse_lhs_loop_shape (length s)) in Hl as (s' & l' & -> & -> & Hlen); [|lia].
    repeat split. now exists s'.
Qed.

Lemma parse_rhs_shape (s : list Z) (arg : ExArg) b input' arg' :
  parse_rhs (At s) arg = Ret (b, input', arg') ->
  count arg' = count arg /\ idx arg' = idx arg /\
  exists s', input' = At s' /\ (length s' <= length s)%nat.
Proof.
  unfold parse_rhs. cbn [deref bind]. destruct (hd 0 s =? 0).
  - intros H. inversion H; subst. repeat split. now exists s.
  - destruct (parse_rhs_loop s arg (rhs arg)) as [[i a]|] eqn:Hl; cbn [bind]; [|discriminate].
    intros H. inversion H; subst.
    apply (parse_rhs_loop_shape (length s)) in Hl as (s' & r' & -> & -> & Hlen); [|lia].
    repeat split. now exists s'.
Qed.

(** A successful [parse] has consumed a byte of the line or more, and the
    count it leaves is the one [parse_count] has computed. *)
Lemma parse_inv (s : list Z) (arg : ExArg) input' arg' :
  parse (At s) arg = Ret (true, input', arg') ->
  hd 0 s <> 0 /\
  exists s1 n,
    parse_count (At (skip_colons s)) (with_rhs (with_lhs arg []) []) =
      Ret (true, At s1, with_count (with_rhs (with_lhs arg []) []) n) /\
    count arg' = n /\
    exists s', input' = At s' /\ (length s' < length s)%nat.
Proof.
  unfold parse. cbn [deref bind].
  destruct (Z.eqb_spec (hd 0 s) 0) as [Hz|Hz]; [discriminate|].
  set (arg0 := with_rhs (with_lhs arg []) []).
  destruct (parse_count_shape (skip_colons s) arg0) as (s1 & n & Hpc & Hl1).
  pose proof (skip_colons_length s) as Hl0.
  rewrite Hpc. cbn [bind skip_whitespace].
  destruct (parse_command_name (At (skip_spaces s1)) (with_count arg0 n))
    as [[[ok i] a]|] eqn:Hpn; cbn [bind]; [|discriminate].
  destruct ok; cbn [negb]; [|discriminate].
  apply parse_command_name_shape in Hpn as (Hc & _ & _ & s2 & -> & Hl2).
  pose proof (skip_spaces_length s1) as Hl1'.
  cbn [skip_whitespace bind].
  set (cmd := nth (idx a) commands _).
  assert (Hlhs : forall b i2 a2,
    (if negb (Z.land (i_flags cmd) EX_FLAG_LHS =? 0)
     then parse_lhs (At (skip_spaces s2)) a
     else Ret (true, At (skip_spaces s2), a)) = Ret (b, i2, a2) ->
    count a2 = count a /\ exists s3, i2 = At s3 /\ (length s3 <= length s2)%nat).
  { intros b i2 a2. pose proof (skip_spaces_length s2). destruct (negb _).
    - intros H'. apply parse_lhs_shape in H' as (? & _ & s3 & -> & ?).
      split; [assumption|]. exists s3. split; [reflexivity | lia].
    - intros H'. inversion H'; subst. split; [reflexivity|].
      exists (skip_spaces s2). split; [reflexivity | lia]. }
  destruct (if negb (Z.land (i_flags cmd) EX_FLAG_LHS =? 0) then _ else _)
    as [[[b2 i2] a2]|]; cbn [bind]; [|discriminate].
  destruct (Hlhs _ _ _ eq_refl) as (Hc2 & s3 & -> & Hl3). clear Hlhs.
  cbn [skip_whitespace bind].
  assert (Hrhs : forall b i3 a3,
    (if negb (Z.land (i_flags cmd) EX_FLAG_RHS =? 0)
     then parse_rhs (At (skip_spaces s3)) a2
     else Ret (true, At (skip_spaces s3), a2)) = Ret (b, i3, a3) ->
    count a3 = count a2 /\ exists s4, i3 = At s4 /\ (length s4 <= length s3)%nat).
  { intros b i3 a3. pose proof (skip_spaces_length s3). destruct (negb _).
    - intros H'. apply parse_rhs_shape in H' as (? & _ & s4 & -> & ?).
      split; [assumption|]. exists s4. split; [reflexivity | lia].
    - intros H'. inversion H'; subst. split; [reflexivity|].
      exists (skip_spaces s3). split; [reflexivity | lia]. }
  destruct (if negb (Z.land (i_flags cmd) EX_FLAG_RHS =? 0) then _ else _)
    as [[[b3 i3] a3]|]; cbn [bind]; [|discriminate].
  destruct (Hrhs _ _ _ eq_refl) as (Hc3 & s4 & -> & Hl4). clear Hrhs.
  cbn [deref bind]. intros H. inversion H; subst.
  split; [assumption|]. exists s1, n. split; [reflexivity|].
  split; [cbn in Hc; congruence|].
  destruct s4 as [|x s4].
  - exists []. split; [reflexivity | cbn in *; lia].
  - cbn [hd]. destruct (negb (x =? 0)); cbn [advance].
    + exists s4. split; [reflexivity | cbn in *; lia].
    + exists (x :: s4). split; [reflexivity | cbn in *; lia].
Qed.

Lemma parse_count_no_digit (s : list Z) (arg : ExArg) :
  isdigit (hd 0 s) = false ->
  parse_count (At s) arg = Ret (true, At s, with_count arg 0).
Proof. intros H. unfold parse_count. cbn [deref bind]. now rewrite H. Qed.

Lemma parse_count_digits (D r : list Z) (arg : ExArg) :
  D <> [] -> digits D -> isdigit (hd 0 r) = false ->
  0 <= count arg ->
  count arg * 10 ^ Z.of_nat (length D) + digits_val D 0 < 2 ^ 31 ->
  parse_count (At (D ++ r)) arg =
  Ret (true, At r,
       with_count arg (count arg * 10 ^ Z.of_nat (length D) + digits_val D 0)).
Proof.
  intros HD Hd Hr Hn Hb. destruct D as [|c D]; [congruence|].
  rewrite <- digits_val_pow in *.
  unfold parse_count. cbn [deref bind app hd].
  inversion Hd as [|? ? Hc _]; subst. rewrite Hc. cbn [negb].
  now rewrite count_digits_val.
Qed.

Lemma skip_colons_digit (c : Z) (s : list Z) :
  isdigit c = true -> skip_colons (c :: s) = c :: s.
Proof.
  intros H. apply isdigit_range in H. cbn.
  destruct (Z.eqb_spec c (ch ":")) as [E|_]; [change (ch ":") with 58 in E; lia|].
  destruct (Z.eqb_spec c (ch " ")) as [E|_]; [change (ch " ") with 32 in E; lia|].
  now rewrite andb_false_r.
Qed.

(** The count a successful [parse] leaves when the line has no leading
    digits, and when it has. *)
Lemma parse_count_zero (s : list Z) (arg : ExArg) input' arg' :
  isdigit (hd 0 (skip_colons s)) = false ->
  parse (At s) arg = Ret (true, input', arg') -> count arg' = 0.
Proof.
  intros Hd H. apply parse_inv in H as (_ & s1 & n & Hpc & Hc & _).
  rewrite parse_count_no_digit in Hpc by assumption.
  inversion Hpc; congruence.
Qed.

Lemma parse_count_accumulates (D r : list Z) (arg : ExArg) input' arg' :
  D <> [] -> digits D -> isdigit (hd 0 r) = false ->
  0 <= count arg ->
  count arg * 10 ^ Z.of_nat (length D) + digits_val D 0 < 2 ^ 31 ->
  parse (At (D ++ r)) arg = Ret (true, input', arg') ->
  count arg' = count arg * 10 ^ Z.of_nat (length D) + digits_val D 0.
Proof.
  intros HD Hd Hr Hn Hb H. apply parse_inv in H as (_ & s1 & n & Hpc & Hc & _).
  destruct D as [|c D]; [congruence|]. change ((c :: D) ++ r) with (c :: (D ++ r)) in Hpc.
  rewrite skip_colons_digit in Hpc by (now inversion Hd).
  change (c :: (D ++ r)) with ((c :: D) ++ r) in Hpc.
  rewrite parse_count_digits in Hpc by assumption.
  change (count (with_rhs (with_lhs arg []) [])) with (count arg) in Hpc.
  apply (f_equal (fun o => match o with Ret (_, _, a) => count a | _ => 0 end)) in Hpc.
  cbn [count with_count] in Hpc. congruence.
Qed.

(** C8, amended. [ExArg.count] is an [int] and has no unset state: a
    line without leading digits leaves the count 0, and so does a line whose
    count is the digit 0 when the count was 0 before, as it is for the first
    command of a line. *)
Theorem parse_without_count_gives_zero (s : list Z) (arg : ExArg) input' arg' :
  isdigit (hd 0 (skip_colons s)) = false ->
  parse (At s) arg = Ret (true, input', arg') ->
  count arg' = 0 /\
  forall r i a,
    isdigit (hd 0 r) = false ->
    parse (At (ch "0" :: r)) new_arg = Ret (true, i, a) -> count a = 0.
Proof.
  intros Hd H. split.
  - exact (parse_count_zero _ _ _ _ Hd H).
  - intros r i a Hr Hp.
    rewrite (parse_count_accumulates [ch "0"] r new_arg i a); trivial.
    + discriminate.
    + repeat constructor.
    + reflexivity.
    + reflexivity.
Qed.

Lemma parse_without_count_gives_zero_witness :
  count {| count := 0; idx := 9; name := str "open"; code := EX_OPEN;
           bang := false; lhs := []; rhs := [] |} = 0 /\
  forall r i a,
    isdigit (hd 0 r) = false ->
    parse (At (ch "0" :: r)) new_arg = Ret (true, i, a) -> count a = 0.
Proof.
  apply (parse_without_count_gives_zero (str ":open") new_arg (At [])).
  - reflexivity.
  - reflexivity.
Defined.

(** C8 as stated fails: [:open] and [:0open] leave the same [ExArg], there
    is nothing by which a command could tell them apart. *)
Lemma count_unset_is_zero_counterexample :
  parse (At (str ":open")) new_arg = parse (At (str ":0open")) new_arg /\
  exists i a, parse (At (str ":open")) new_arg = Ret (true, i, a) /\ count a = 0.
Proof.
  split; [reflexivity|]. eexists _, _. split; reflexivity.
Qed.

(** *** ex_run_string *)

Section Run.

Variable CSI : Z.
Variable collab : list (ExArg * bool) -> ExArg -> bool.

Lemma execute_dispatched (arg : ExArg) (w : world) :
  dispatched (snd (execute CSI collab arg w)) =
  dispatched w ++ [(arg, fst (execute CSI collab arg w))].
Proof.
  unfold execute. destruct (match i_func _ with fn_ex_bookmark => _ | _ => _ end).
  reflexivity.
Qed.

(** Every round of the loop of [ex_run_string] ends, and a command whose
    operation reports a failure is the last one dispatched. *)
Lemma run_loop_stops (fuel : nat) : forall s arg w,
  (length s < fuel)%nat ->
  exists r l, run_loop CSI collab fuel (At s) arg w = Some r /\
    dispatched (world_of r) = dispatched w ++ l /\
    forall l1 a l2, l = l1 ++ (a, false) :: l2 ->
      l2 = [] /\ r = Finished false (world_of r).
Proof.
  induction fuel as [|fuel IH]; intros s arg w Hlen; [lia|].
  cbn [run_loop deref].
  assert (Hnil : forall (l1 : list (ExArg * bool)) a l2,
            [] = l1 ++ (a, false) :: l2 -> False)
    by (intros [|? ?] ? ? H; discriminate H).
  destruct (hd 0 s =? 0).
  { exists (Finished true w), []. rewrite app_nil_r.
    repeat split; try reflexivity; exfalso; eauto. }
  destruct (parse (At s) arg) as [[[ok input'] arg']|a] eqn:Hp.
  2:{ exists (Overrun a w), []. rewrite app_nil_r.
      repeat split; try reflexivity; exfalso; eauto. }
  destruct ok; cbn [negb].
  2:{ exists (Finished false w), []. rewrite app_nil_r.
      repeat split; try reflexivity; exfalso; eauto. }
  apply parse_inv in Hp as (_ & _ & _ & _ & _ & s' & -> & Hl).
  pose proof (execute_dispatched arg' w) as Hd.
  destruct (execute CSI collab arg' w) as [ok w'] eqn:He. cbn [fst snd] in Hd.
  destruct ok; cbn [negb].
  - destruct (IH s' arg' w' ltac:(lia)) as (r & l & Hr & Hdr & Hlast).
    exists r, ((arg', true) :: l). split; [exact Hr|]. split.
    + rewrite Hdr, Hd, <- app_assoc. reflexivity.
    + intros [|x l1] a l2 H; [discriminate H|].
      injection H as _ H. exact (Hlast _ _ _ H).
  - exists (Finished false w'), [(arg', false)]. split; [reflexivity|].
    split; [exact Hd|].
    intros [|x l1] a l2 H.
    + injection H as _ <-. split; reflexivity.
    + injection H as _ H. exfalso; eauto.
Qed.

(** C2, amended. [ex_run_string] always returns; of the commands it has
    dispatched, one whose operation reported a failure is the last, and the
    result is then false: a failure of [execute] aborts the rest of the line
    the way a failure of [parse] does, which dispatches nothing. *)
Theorem ex_run_string_aborts_on_first_failure (input : list Z) (w : world) :
  (exists r l, ex_run_string CSI collab input w = Some r /\
     dispatched (world_of r) = dispatched w ++ l /\
     forall l1 a l2, l = l1 ++ (a, false) :: l2 ->
       l2 = [] /\ r = Finished false (world_of r)) /\
  (forall fuel s arg i a,
     hd 0 s <> 0 -> parse (At s) arg = Ret (false, i, a) ->
     run_loop CSI collab (S fuel) (At s) arg w = Some (Finished false w)) /\
  (forall fuel s arg i a w',
     hd 0 s <> 0 -> parse (At s) arg = Ret (true, i, a) ->
     execute CSI collab a w = (false, w') ->
     run_loop CSI collab (S fuel) (At s) arg w = Some (Finished false w')).
Proof.
  split; [|split].
  - apply run_loop_stops. lia.
  - intros fuel s arg i a Hs Hp. cbn [run_loop deref].
    destruct (Z.eqb_spec (hd 0 s) 0); [contradiction|]. now rewrite Hp.
  - intros fuel s arg i a w' Hs Hp He. cbn [run_loop deref].
    destruct (Z.eqb_spec (hd 0 s) 0); [contradiction|]. now rewrite Hp, He.
Qed.

(** C10. In the loop of [ex_run_string] the [ExArg] of a command goes into
    the parsing of the next: when the rest of the line begins with the
    digits [D], the next command is dispatched with the count of the command
    before, times [10 ^ length D], plus [D]; a command without leading digits
    has the count 0. *)
Theorem count_carries_over_to_next_command
    (fuel : nat) (s D r : list Z) (arg arg1 arg2 : ExArg) (input2 : cursor)
    (w w1 : world) :
  parse (At s) arg = Ret (true, At (D ++ r), arg1) ->
  execute CSI collab arg1 w = (true, w1) ->
  D <> [] -> digits D -> isdigit (hd 0 r) = false ->
  0 <= count arg1 ->
  count arg1 * 10 ^ Z.of_nat (length D) + digits_val D 0 < 2 ^ 31 ->
  parse (At (D ++ r)) arg1 = Ret (true, input2, arg2) ->
  count arg2 = count arg1 * 10 ^ Z.of_nat (length D) + digits_val D 0 /\
  run_loop CSI collab (S (S fuel)) (At s) arg w =
    (let '(ok, w2) := execute CSI collab arg2 w1 in
     if negb ok then Some (Finished false w2)
     else run_loop CSI collab fuel input2 arg2 w2) /\
  (forall s' a i a',
     isdigit (hd 0 (skip_colons s')) = false ->
     parse (At s') a = Ret (true, i, a') -> count a' = 0).
Proof.
  intros Hp1 He1 HD Hd Hr Hn Hb Hp2. split; [|split].
  - exact (parse_count_accumulates D r arg1 input2 arg2 HD Hd Hr Hn Hb Hp2).
  - pose proof (parse_inv _ _ _ _ Hp1) as (Hs & _).
    pose proof (parse_inv _ _ _ _ Hp2) as (Hs2 & _).
    cbn [run_loop deref].
    destruct (Z.eqb_spec (hd 0 s) 0); [contradiction|]. rewrite Hp1, He1.
    cbn [negb run_loop deref].
    destruct (Z.eqb_spec (hd 0 (D ++ r)) 0); [contradiction|].
    rewrite Hp2. reflexivity.
  - intros s' a i a'. apply parse_count_zero.
Qed.

End Run.

(** C10 at the example [:2open a|3open b]: the second [open] is
    dispatched with the count 23. *)
Lemma count_carries_over_to_next_command_witness :
  let open n r := {| count := n; idx := 9; name := str "open"; code := EX_OPEN;
                     bang := false; lhs := []; rhs := str r |} in
  let w0 := {| maplist := []; dispatched := [] |} in
  let w1 := {| maplist := []; dispatched := [(open 2 "a"%string, true)] |} in
  count (open 23 "b"%string) = 2 * 10 ^ 1 + 3 /\
  run_loop 155 (fun _ _ => true) 3 (At (str ":2open a|3open b")) new_arg w0 =
    Some (Finished true
      {| maplist := [];
         dispatched := [(open 2 "a"%string, true); (open 23 "b"%string, true)] |}) /\
  (forall s' a i a',
     isdigit (hd 0 (skip_colons s')) = false ->
     parse (At s') a = Ret (true, i, a') -> count a' = 0).
Proof.
  intros open w0 w1.
  apply (count_carries_over_to_next_command 155 (fun _ _ => true) 1
           (str ":2open a|3open b") (str "3") (str "open b")
           new_arg (open 2 "a"%string) (open 23 "b"%string) (At []) w0 w1).
  - reflexivity.
  - reflexivity.
  - discriminate.
  - repeat constructor.
  - reflexivity.
  - now vm_compute.
  - now vm_compute.
  - reflexivity.
Defined.

(** C2 as stated fails: in [set |nmap a b] the [set] without an argument
    reports a failure, and [nmap a b] behind it is not dispatched any more:
    [map.list] stays empty. *)
Lemma ex_run_string_failure_counterexample :
  ex_run_string 155 (fun _ _ => true) (str "set |nmap a b")
    {| maplist := []; dispatched := [] |} =
  Some (Finished false
    {| maplist := [];
       dispatched :=
         [({| count := 0; idx := 16; name := str "set"; code := EX_SET;
              bang := false; lhs := []; rhs := [] |}, false)] |}) /\
  ex_run_string 155 (fun _ _ => true) (str "nmap a b")
    {| maplist := []; dispatched := [] |} =
  Some (Finished true
    {| maplist := [{| Map.in_ := str "a"; Map.inlen := 1; Map.mapped := str "b";
                      Map.mappedlen := 1; Map.mode := ch "n" |}];
       dispatched :=
         [({| count := 0; idx := 7; name := str "nmap"; code := EX_NMAP;
              bang := false; lhs := str "a"; rhs := str "b" |}, true)] |}).
Proof. split; reflexivity. Qed.

Lemma ex_run_string_aborts_on_first_failure_witness :
  exists r l, ex_run_string 155 (fun _ _ => true) (str "set |nmap a b")
                {| maplist := []; dispatched := [] |} = Some r /\
     dispatched (world_of r) = [] ++ l /\
     forall l1 a l2, l = l1 ++ (a, false) :: l2 ->
       l2 = [] /\ r = Finished false (world_of r).
Proof.
  exact (proj1 (ex_run_string_aborts_on_first_failure 155 (fun _ _ => true)
                  (str "set |nmap a b") {| maplist := []; dispatched := [] |})).
Defined.

(** *** Backslashes in lhs and rhs *)

(** A backslash before a space leaves the space alone; a backslash before a
    byte that is neither a space nor the terminator leaves both. *)
Lemma parse_rhs_loop_escaped_space (s : list Z) (arg : ExArg) (r : list Z) :
  parse_rhs_loop (quote :: ch " " :: s) arg r = parse_rhs_loop s arg (r ++ [ch " "]).
Proof. reflexivity. Qed.

Lemma parse_rhs_loop_escaped_other (c : Z) (s : list Z) (arg : ExArg) (r : list Z) :
  c <> ch " " ->
  parse_rhs_loop (quote :: c :: s) arg r = parse_rhs_loop s arg (r ++ [quote; c]).
Proof.
  intros Hc. cbn [parse_rhs_loop]. change (quote =? 0) with false.
  change (quote =? 10) with false. change (quote =? ch "|") with false.
  change (quote =? quote) with true. cbn [orb].
  now destruct (Z.eqb_spec c (ch " ")).
Qed.

Lemma parse_lhs_loop_escaped_space (s : list Z) (arg : ExArg) (l : list Z) :
  parse_lhs_loop (quote :: ch " " :: s) arg l = parse_lhs_loop s arg (l ++ [ch " "]).
Proof. reflexivity. Qed.

Lemma parse_lhs_loop_escaped_other (c : Z) (s : list Z) (arg : ExArg) (l : list Z) :
  c <> ch " " ->
  parse_lhs_loop (quote :: c :: s) arg l = parse_lhs_loop s arg (l ++ [quote; c]).
Proof.
  intros Hc. cbn [parse_lhs_loop]. change (quote =? 0) with false.
  change (quote =? ch " ") with false. change (quote =? quote) with true.
  cbn [orb]. now destruct (Z.eqb_spec c (ch " ")).
Qed.

(** C7. A backslash that is the last byte of the line does not leave a lone
    backslash: the branch of the source for the end of the input is never
    taken, the backslash and the terminating NUL are appended, and the loop
    goes on to read behind the terminator.  So for the line [open a\]. *)
Theorem trailing_backslash_runs_over (arg : ExArg) (l : list Z) :
  parse_rhs_loop [quote] arg l = OutOfBounds (with_rhs arg (l ++ [quote; 0])) /\
  parse_lhs_loop [quote] arg l = OutOfBounds (with_lhs arg (l ++ [quote; 0])) /\
  parse (At (str "open a\")) new_arg =
    OutOfBounds {| count := 0; idx := 9; name := str "open"; code := EX_OPEN;
                   bang := false; lhs := []; rhs := str "a\" ++ [0] |}.
Proof. repeat split. Qed.
End ExFacts.

(** ** The key mapping engine *)

Module MapFacts.
Import CFacts Map.

(** *** Key labels and key events *)

Lemma letters_in (X : Z) :
  ch "A" <= X <= ch "Z" \/ ch "a" <= X <= ch "z" -> In X letters.
Proof.
  change (ch "A") with 65. change (ch "Z") with 90.
  change (ch "a") with 97. change (ch "z") with 122.
  intros H. unfold letters. rewrite <- (Z2Nat.id X) by lia.
  apply in_map, in_app_iff. rewrite !in_seq. lia.
Qed.

(** A string without [<] is its own key sequence, and [map_insert] makes
    the [rule] of two such strings. *)
Lemma convert_keys_loop_plain (p : list Z) : forall fuel dest len,
  Forall (fun c => c <> ch "<") p -> (length p <= fuel)%nat ->
  forall CSI, convert_keys_loop CSI fuel p dest len =
              (dest ++ p, len + Z.of_nat (length p)).
Proof.
  induction p as [|c p IH]; intros fuel dest len Hp Hfuel CSI.
  - destruct fuel; cbn; now rewrite app_nil_r, Z.add_0_r.
  - destruct fuel as [|fuel]; [cbn in Hfuel; lia|].
    inversion Hp as [|? ? Hc Hp']; subst. cbn [convert_keys_loop].
    destruct (Z.eqb_spec c (ch "<")); [contradiction|]. cbn [negb].
    rewrite IH by (auto; cbn in Hfuel; lia).
    rewrite <- app_assoc. cbn [app length]. f_equal. lia.
Qed.

Lemma strlen_no_nul (l : list Z) :
  Forall (fun c => c <> 0) l -> strlen l = Z.of_nat (length l).
Proof.
  induction 1 as [|c l Hc _ IH]; cbn [strlen length]; [reflexivity|].
  destruct (Z.eqb_spec c 0); [contradiction | lia].
Qed.

Lemma map_insert_rule (CSI : Z) (i o : list Z) (M : Z) (l : list Map) :
  Forall (fun c => c <> 0) i -> Forall (fun c => c <> ch "<") i ->
  Forall (fun c => c <> 0) o -> Forall (fun c => c <> ch "<") o ->
  map_insert CSI i o M l = rule i o M :: l.
Proof.
  intros Hi Hi' Ho Ho'. unfold map_insert, convert_keys.
  rewrite !strlen_no_nul, !Nat2Z.id, !firstn_all by assumption.
  now rewrite !convert_keys_loop_plain.
Qed.

Section Labels.

Variable CSI : Z.
Variables KEY_TAB KEY_NL KEY_CR KEY_ESC KEY_BS : Z.
Variable gdk_keyval_to_unicode : Z -> Z.

Local Abbreviation keypress_string :=
  (keypress_string CSI KEY_TAB KEY_NL KEY_CR KEY_ESC KEY_BS gdk_keyval_to_unicode).

(** C9, amended. For every letter X the label [<C-X>] converts to the byte
    that the key event of X with Control is encoded as: the code less 0x40
    for an upper case letter, less 0x60 for a lower case one.  Control with
    the digit 8 is the backspace byte for the key event only: the label
    [<C-8>] is no key label and stays the five bytes it is written with. *)
Theorem ctrl_letter_label_is_key_event (X state : Z) :
  ch "A" <= X <= ch "Z" \/ ch "a" <= X <= ch "z" ->
  gdk_keyval_to_unicode X = X ->
  gdk_keyval_to_unicode (ch "8") = ch "8" ->
  Z.land state GDK_CONTROL_MASK <> 0 ->
  fst (convert_keys CSI (str "<C-" ++ [X] ++ str ">")) = keypress_string X state /\
  keypress_string X state = [if X <=? ch "Z" then X - 0x40 else X - 0x60] /\
  keypress_string (ch "8") state = [KEY_BS] /\
  convert_keys CSI (str "<C-8>") = (str "<C-8>", 5).
Proof.
  intros HX Hgdk Hgdk8 Hctrl. apply letters_in in HX.
  apply Z.eqb_neq in Hctrl.
  assert (H8 : keypress_string (ch "8") state = [KEY_BS]).
  { unfold Map.keypress_string, keyval_to_string. rewrite Hgdk8.
    change (ch "8") with 56. cbn -[Z.land]. rewrite Hctrl. reflexivity. }
  assert (Hev : keypress_string X state =
                [if X <=? ch "Z" then X - 0x40 else X - 0x60]).
  { unfold Map.keypress_string, keyval_to_string. rewrite Hgdk.
    unfold letters in HX. cbn in HX.
    repeat (destruct HX as [<- | HX];
            [cbn -[Z.land]; rewrite Hctrl; reflexivity|]).
    contradiction. }
  split; [|split; [exact Hev|split; [exact H8|reflexivity]]].
  rewrite Hev. unfold letters in HX. cbn in HX.
  repeat (destruct HX as [<- | HX]; [reflexivity|]). contradiction.
Qed.

End Labels.

Lemma ctrl_letter_label_is_key_event_witness :
  fst (convert_keys Vimb.CSI (str "<C-" ++ [ch "a"] ++ str ">")) =
    keypress_string Vimb.CSI Vimb.KEY_TAB Vimb.KEY_NL Vimb.KEY_CR Vimb.KEY_ESC
      Vimb.KEY_BS Vimb.gdk_keyval_to_unicode (ch "a") GDK_CONTROL_MASK /\
  keypress_string Vimb.CSI Vimb.KEY_TAB Vimb.KEY_NL Vimb.KEY_CR Vimb.KEY_ESC
    Vimb.KEY_BS Vimb.gdk_keyval_to_unicode (ch "a") GDK_CONTROL_MASK = [1] /\
  keypress_string Vimb.CSI Vimb.KEY_TAB Vimb.KEY_NL Vimb.KEY_CR Vimb.KEY_ESC
    Vimb.KEY_BS Vimb.gdk_keyval_to_unicode (ch "8") GDK_CONTROL_MASK = [Vimb.KEY_BS] /\
  convert_keys Vimb.CSI (str "<C-8>") = (str "<C-8>", 5).
Proof.
  apply (ctrl_letter_label_is_key_event Vimb.CSI Vimb.KEY_TAB Vimb.KEY_NL
           Vimb.KEY_CR Vimb.KEY_ESC Vimb.KEY_BS Vimb.gdk_keyval_to_unicode
           (ch "a") GDK_CONTROL_MASK).
  - right. vm_compute. split; discriminate.
  - reflexivity.
  - reflexivity.
  - vm_compute. discriminate.
Defined.

(** C9 as stated fails for Control with the digit 8: the key event is the
    backspace byte, the label [<C-8>] converts to itself. *)
Lemma ctrl_8_label_counterexample :
  keypress_string Vimb.CSI Vimb.KEY_TAB Vimb.KEY_NL Vimb.KEY_CR Vimb.KEY_ESC
    Vimb.KEY_BS Vimb.gdk_keyval_to_unicode (ch "8") GDK_CONTROL_MASK = [0x08] /\
  fst (convert_keys Vimb.CSI (str "<C-8>")) = str "<C-8>" /\
  fst (convert_keys Vimb.CSI (str "<C-8>")) <>
    keypress_string Vimb.CSI Vimb.KEY_TAB Vimb.KEY_NL Vimb.KEY_CR Vimb.KEY_ESC
      Vimb.KEY_BS Vimb.gdk_keyval_to_unicode (ch "8") GDK_CONTROL_MASK.
Proof. repeat split. discriminate. Qed.


(** *** Which map is taken *)

Section Matching.

Variable timeout : bool.
Variable s : state.

Lemma exact_candidate_test (m : Map) :
  exact_candidate s m <->
  (mode m =? id (vb_mode s)) = true /\
  (inlen m <=? qlen s) && (strncmp (cstr (in_ m)) (queue s) (inlen m) =? 0) = true.
Proof.
  unfold exact_candidate. rewrite andb_true_iff, Z.eqb_eq, Z.leb_le, Z.eqb_eq.
  tauto.
Qed.

(** The loop keeps an exact candidate in [match] that no exact candidate met
    so far is longer than. *)
Lemma find_maps_longest (l : list Map) : forall match_ ambiguous,
  match match_ with Some m1 => exact_candidate s m1 | None => True end ->
  match fst (find_maps timeout s l match_ ambiguous) with
  | None => match_ = None /\ forall m', In m' l -> ~ exact_candidate s m'
  | Some m =>
    exact_candidate s m /\ (match_ = Some m \/ In m l) /\
    (forall m1, match_ = Some m1 -> inlen m1 <= inlen m) /\
    (forall m', In m' l -> exact_candidate s m' -> inlen m' <= inlen m)
  end.
Proof.
  induction l as [|m l IH]; intros match_ ambiguous Hinv; cbn [find_maps fst].
  - destruct match_ as [m1|].
    + split; [exact Hinv|]. split; [now left|].
      split; [intros ? [= <-]; lia | intros ? []].
    + split; [reflexivity | intros ? []].
  - destruct (Z.eqb_spec (mode m) (id (vb_mode s))) as [Hmode|Hmode]; cbn [negb].
    2:{ (* a map for another mode *)
        assert (Hexm : ~ exact_candidate s m) by (intros [Hex _]; contradiction).
        specialize (IH match_ ambiguous Hinv).
        destruct (fst (find_maps timeout s l match_ ambiguous)) as [m2|].
        - destruct IH as (He & Hin & Hge & Hmax).
          split; [exact He|]. split; [destruct Hin; [now left | right; now right]|].
          split; [exact Hge|].
          intros m' [<-|Hm'] Hex; [contradiction | auto].
        - destruct IH as [-> Hnone]. split; [reflexivity|].
          intros m' [<-|Hm'] Hex; [contradiction | exact (Hnone _ Hm' Hex)]. }
    match goal with |- context [find_maps _ _ l _ ?a] => set (amb := a) end.
    destruct ((inlen m <=? qlen s)
              && (strncmp (cstr (in_ m)) (queue s) (inlen m) =? 0)) eqn:Hex.
    + (* [m] is an exact candidate *)
      assert (Hexm : exact_candidate s m).
      { apply exact_candidate_test. rewrite Hex. split; [now apply Z.eqb_eq | reflexivity]. }
      assert (Hnew : forall match0 : option Map,
        (forall m1, match_ = Some m1 -> inlen m1 <= inlen m) ->
        match fst (find_maps timeout s l (Some m) amb) with
        | None => match0 = None /\ forall m', In m' (m :: l) -> ~ exact_candidate s m'
        | Some m2 =>
          exact_candidate s m2 /\ (match_ = Some m2 \/ In m2 (m :: l)) /\
          (forall m1, match_ = Some m1 -> inlen m1 <= inlen m2) /\
          (forall m', In m' (m :: l) -> exact_candidate s m' -> inlen m' <= inlen m2)
        end).
      { intros match0 Hold. specialize (IH (Some m) amb Hexm).
        destruct (fst (find_maps timeout s l (Some m) amb)) as [m2|].
        - destruct IH as (He & Hin & Hge & Hmax). specialize (Hge m eq_refl).
          split; [exact He|].
          split; [right; destruct Hin as [[= <-]|Hin]; [now left | now right]|].
          split; [intros m1 H1; specialize (Hold m1 H1); lia|].
          intros m' [<-|Hm'] Hex'; [exact Hge | auto].
        - destruct IH as [[=] _]. }
      destruct match_ as [m1|]; cbn [andb].
      * destruct (Z.ltb_spec (inlen m1) (inlen m)) as [Hlt|Hge].
        -- apply (Hnew (Some m1)). intros ? [= <-]. lia.
        -- specialize (IH (Some m1) amb Hinv).
           destruct (fst (find_maps timeout s l (Some m1) amb)) as [m2|].
           ++ destruct IH as (He & Hin & Hge' & Hmax).
              split; [exact He|].
              split; [destruct Hin; [now left | right; now right]|].
              split; [exact Hge'|].
              intros m' [<-|Hm'] Hex'; [specialize (Hge' m1 eq_refl); lia | auto].
           ++ destruct IH as [[=] _].
      * apply (Hnew None). intros ? [=].
    + (* [m] is none *)
      assert (Hexm : ~ exact_candidate s m).
      { rewrite exact_candidate_test, Hex. intros [_ [=]]. }
      cbn [andb]. specialize (IH match_ amb Hinv).
      destruct (fst (find_maps timeout s l match_ amb)) as [m2|].
      * destruct IH as (He & Hin & Hge & Hmax).
        split; [exact He|]. split; [destruct Hin; [now left | right; now right]|].
        split; [exact Hge|].
        intros m' [<-|Hm'] Hex'; [contradiction | auto].
      * destruct IH as [-> Hnone]. split; [reflexivity|].
        intros m' [<-|Hm'] Hex'; [contradiction | exact (Hnone _ Hm' Hex')].
Qed.

(** [ambiguous] counts the ambiguous candidates, and none at a timeout. *)
Lemma find_maps_ambiguous_le (l : list Map) : forall match_ ambiguous,
  ambiguous <= snd (find_maps timeout s l match_ ambiguous).
Proof.
  induction l as [|m l IH]; intros match_ ambiguous; cbn [find_maps snd]; [lia|].
  destruct (negb (mode m =? id (vb_mode s))); [apply IH|].
  match goal with |- context [find_maps _ _ l ?x ?a] => specialize (IH x a) end.
  destruct (negb timeout && _ && _); lia.
Qed.

Lemma find_maps_not_ambiguous (l : list Map) : forall match_ ambiguous,
  timeout = true \/ (forall m, In m l -> ~ ambiguous_candidate s m) ->
  snd (find_maps timeout s l match_ ambiguous) = ambiguous.
Proof.
  induction l as [|m l IH]; intros match_ ambiguous H; cbn [find_maps snd];
    [reflexivity|].
  assert (H' : timeout = true \/ (forall m, In m l -> ~ ambiguous_candidate s m)).
  { destruct H as [H|H]; [now left | right; intros m' Hm'; apply H; now right]. }
  destruct (Z.eqb_spec (mode m) (id (vb_mode s))) as [Hmode|Hmode]; cbn [negb];
    [|now apply IH].
  destruct (negb timeout && (qlen s <? inlen m)
            && (strncmp (cstr (in_ m)) (queue s) (qlen s) =? 0)) eqn:Ha;
    [|now apply IH].
  exfalso. apply andb_prop in Ha as [Ha Hcmp]. apply andb_prop in Ha as [Ht Hlt].
  destruct H as [->|H]; [discriminate Ht|].
  apply (H m); [now left|].
  split; [exact Hmode|]. split; [now apply Z.ltb_lt | now apply Z.eqb_eq].
Qed.

Lemma find_maps_is_ambiguous (l : list Map) : forall match_ ambiguous m,
  timeout = false -> In m l -> ambiguous_candidate s m ->
  ambiguous < snd (find_maps timeout s l match_ ambiguous).
Proof.
  induction l as [|m0 l IH]; intros match_ ambiguous m Ht Hin Hamb;
    [destruct Hin|]. destruct Hin as [<-|Hin]; cbn [find_maps snd].
  - destruct Hamb as (Hmode & Hlt & Hcmp).
    destruct (Z.eqb_spec (mode m0) (id (vb_mode s))); [|contradiction]. cbn [negb].
    rewrite Ht. cbn [negb andb].
    destruct (Z.ltb_spec (qlen s) (inlen m0)); [|lia]. rewrite Hcmp. cbn [andb Z.eqb].
    match goal with |- context [find_maps _ _ l ?x ?a] =>
      pose proof (find_maps_ambiguous_le l x a) as Hle end.
    rewrite Ht in Hle. lia.
  - destruct (negb (mode m0 =? id (vb_mode s))); [now apply (IH _ _ m)|].
    match goal with |- context [find_maps _ _ l ?x ?a] =>
      pose proof (IH x a m Ht Hin Hamb) end.
    destruct (negb timeout && _ && _); lia.
Qed.

(** A well formed exact candidate is the beginning of the queue. *)
Lemma exact_candidate_input (m : Map) :
  well_formed m -> exact_candidate s m ->
  in_ m = map (fun i => queue s (Z.of_nat i)) (seq 0 (length (in_ m))).
Proof.
  intros [Hlen Hnz] (_ & _ & Hcmp). rewrite Hlen in Hcmp.
  rewrite strncmp_zero in Hcmp.
  - apply nth_ext with (d := 0) (d' := queue s (Z.of_nat 0)).
    + now rewrite length_map, length_seq.
    + intros n Hn.
      rewrite (map_nth (fun i => queue s (Z.of_nat i)) (seq 0 (length (in_ m))) 0%nat n).
      rewrite seq_nth by assumption. cbn [Nat.add].
      rewrite <- Hcmp by lia. now rewrite cstr_nth.
  - intros k Hk. left. rewrite <- (Z2Nat.id k) by lia. rewrite cstr_nth.
    rewrite Forall_forall in Hnz. apply Hnz, list_elem_of_In, nth_In. lia.
Qed.

End Matching.

(** *** The queue as a list *)

Lemma holds_contents (s : state) (l : list Z) :
  holds (queue s) (qlen s) l -> contents s = l.
Proof.
  intros [Hn Hq]. unfold contents. rewrite Hn, Nat2Z.id.
  apply nth_ext with (d := queue s (Z.of_nat 0)) (d' := 0).
  - now rewrite length_map, length_seq.
  - rewrite length_map, length_seq. intros k Hk.
    rewrite (map_nth (fun i => queue s (Z.of_nat i)) (seq 0 (length l)) 0%nat k).
    rewrite seq_nth by assumption. now apply Hq.
Qed.

Lemma holds_nil (q : Z -> Z) : holds q 0 [].
Proof. split; [reflexivity | cbn; lia]. Qed.

Lemma holds_ext (q q' : Z -> Z) (n : Z) (l : list Z) :
  (forall k, 0 <= k < n -> q' k = q k) -> holds q n l -> holds q' n l.
Proof.
  intros He [Hn Hq]. split; [exact Hn|]. intros k Hk.
  rewrite He by lia. now apply Hq.
Qed.

Lemma holds_snoc (q : Z -> Z) (n c : Z) (l : list Z) :
  holds q n l -> holds (poke q n c) (n + 1) (l ++ [c]).
Proof.
  intros [-> Hq]. split.
  - rewrite length_app. cbn. lia.
  - intros k Hk. rewrite length_app in Hk. cbn in Hk. unfold poke.
    destruct (Z.eqb_spec (Z.of_nat k) (Z.of_nat (length l))) as [E|E].
    + apply Nat2Z.inj in E. subst k. rewrite app_nth2, Nat.sub_diag by lia. reflexivity.
    + rewrite app_nth1 by lia. apply Hq. lia.
Qed.

(** The first byte goes, the rest moves up. *)
Lemma holds_memmove (q : Z -> Z) (n : Z) (l1 l2 : list Z) :
  holds q n (l1 ++ l2) ->
  holds (memmove q (Z.of_nat (length l1)) (n - Z.of_nat (length l1)))
        (n - Z.of_nat (length l1)) l2.
Proof.
  intros [-> Hq]. rewrite length_app, Nat2Z.inj_add. split; [lia|].
  intros k Hk. unfold memmove.
  destruct (Z.leb_spec 0 (Z.of_nat k)); [|lia].
  destruct (Z.ltb_spec (Z.of_nat k)
              (Z.of_nat (length l1) + Z.of_nat (length l2) - Z.of_nat (length l1)));
    [|lia].
  cbn [andb]. rewrite <- Nat2Z.inj_add, Hq by (rewrite length_app; lia).
  rewrite app_nth2 by lia. f_equal. lia.
Qed.

(** [strncmp] of a map's input and the queue, at the length of the input
    and at the length of the queue. *)
Lemma strncmp_holds_exact (q : Z -> Z) (n : Z) (l i : list Z) :
  holds q n l -> Forall (fun c => c <> 0) i -> (length i <= length l)%nat ->
  strncmp (cstr i) q (Z.of_nat (length i)) = 0 <-> i `prefix_of` l.
Proof.
  intros [Hn Hq] Hnz Hlen. rewrite strncmp_zero.
  - rewrite (prefix_cstr i l Hnz). split; intros H k Hk; specialize (H k Hk).
    + rewrite H. rewrite <- (Z2Nat.id k) by lia. rewrite Hq by lia.
      now rewrite cstr_nth.
    + rewrite <- H. rewrite <- (Z2Nat.id k) by lia. rewrite Hq by lia.
      now rewrite cstr_nth.
  - intros k Hk. left. rewrite <- (Z2Nat.id k) by lia. rewrite cstr_nth.
    rewrite Forall_forall in Hnz. apply Hnz, list_elem_of_In, nth_In. lia.
Qed.

Lemma strncmp_holds_ambiguous (q : Z -> Z) (n : Z) (l i : list Z) :
  holds q n l -> Forall (fun c => c <> 0) i -> (length l <= length i)%nat ->
  strncmp (cstr i) q n = 0 <-> l `prefix_of` i.
Proof.
  intros [Hn Hq] Hnz Hlen. subst n. rewrite strncmp_zero.
  - split.
    + intros H. assert (Hl : l = take (length l) i).
      { apply nth_ext with (d := 0) (d' := 0).
        - rewrite length_take. lia.
        - intros k Hk. rewrite <- Hq, <- H by lia. rewrite cstr_nth.
          rewrite !nth_lookup, lookup_take_lt by assumption. reflexivity. }
      rewrite Hl. apply prefix_take.
    + intros [x ->] k Hk. rewrite <- (Z2Nat.id k) by lia.
      rewrite Hq by lia. rewrite cstr_nth. apply app_nth1. lia.
  - intros k Hk. left. rewrite <- (Z2Nat.id k) by lia. rewrite cstr_nth.
    rewrite Forall_forall in Hnz. apply Hnz, list_elem_of_In, nth_In. lia.
Qed.

(** *** The loops that splice the queue *)

Lemma make_space_at (n : nat) : forall q i j inlen x,
  Z.of_nat n = j - inlen -> j <= i ->
  make_space n q i j inlen x =
  if (inlen + (i - j) <=? x) && (x <? i) then q (x - (i - j)) else q x.
Proof.
  induction n as [|n IH]; intros q i j inlen x Hn Hij; cbn [make_space].
  - destruct (Z.leb_spec (inlen + (i - j)) x); [|reflexivity].
    destruct (Z.ltb_spec x i); [lia | reflexivity].
  - destruct (Z.ltb_spec inlen j); [|lia].
    rewrite IH by lia. replace (i - 1 - (j - 1)) with (i - j) by lia.
    unfold poke.
    destruct (Z.leb_spec (inlen + (i - j)) x); cbn [andb].
    + destruct (Z.ltb_spec x (i - 1)).
      * destruct (Z.ltb_spec x i); [|lia].
        destruct (Z.eqb_spec (x - (i - j)) (i - 1)); [lia | reflexivity].
      * destruct (Z.eqb_spec x (i - 1)) as [->|].
        -- destruct (Z.ltb_spec (i - 1) i); [|lia]. f_equal. lia.
        -- destruct (Z.ltb_spec x i); [lia | reflexivity].
    + destruct (Z.eqb_spec x (i - 1)); [lia | reflexivity].
Qed.

Lemma delete_keys_at (n : nat) : forall q i j qlen x,
  Z.of_nat n = qlen - i -> i <= j ->
  delete_keys n q i j qlen x =
  if (i <=? x) && (x <? qlen) then q (x + (j - i)) else q x.
Proof.
  induction n as [|n IH]; intros q i j qlen x Hn Hij; cbn [delete_keys].
  - destruct (Z.leb_spec i x); [|reflexivity].
    destruct (Z.ltb_spec x qlen); [lia | reflexivity].
  - destruct (Z.ltb_spec i qlen); [|lia].
    rewrite IH by lia. replace (j + 1 - (i + 1)) with (j - i) by lia.
    unfold poke.
    destruct (Z.leb_spec (i + 1) x); cbn [andb].
    + destruct (Z.leb_spec i x); [|lia]. cbn [andb].
      destruct (Z.ltb_spec x qlen).
      * destruct (Z.eqb_spec (x + (j - i)) i); [lia | reflexivity].
      * destruct (Z.eqb_spec x i); [lia | reflexivity].
    + destruct (Z.eqb_spec x i) as [->|].
      * destruct (Z.leb_spec i i); [|lia]. destruct (Z.ltb_spec i qlen); [|lia].
        cbn [andb]. f_equal. lia.
      * destruct (Z.leb_spec i x); [lia | reflexivity].
Qed.

Lemma strncpy_from_at (n : nat) : forall q src i x,
  Forall (fun c => c <> 0) src -> (n <= length src)%nat ->
  strncpy_from q src i n x =
  if (i <=? x) && (x <? i + Z.of_nat n) then nth (Z.to_nat (x - i)) src 0 else q x.
Proof.
  induction n as [|n IH]; intros q src i x Hnz Hn; cbn [strncpy_from].
  - destruct (Z.leb_spec i x); [|reflexivity].
    destruct (Z.ltb_spec x (i + Z.of_nat 0)); [lia | reflexivity].
  - destruct src as [|c src]; [cbn in Hn; lia|].
    inversion Hnz as [|? ? Hc Hnz']; subst.
    destruct (Z.eqb_spec c 0); [contradiction|].
    rewrite IH by (cbn in Hn; auto; lia). unfold poke.
    destruct (Z.leb_spec (i + 1) x); cbn [andb].
    + destruct (Z.leb_spec i x); [|lia]. cbn [andb].
      destruct (Z.ltb_spec x (i + 1 + Z.of_nat n));
        destruct (Z.ltb_spec x (i + Z.of_nat (S n))); try lia.
      * replace (Z.to_nat (x - i)) with (S (Z.to_nat (x - (i + 1)))) by lia.
        reflexivity.
      * destruct (Z.eqb_spec x i); [lia | reflexivity].
    + destruct (Z.eqb_spec x i) as [->|].
      * destruct (Z.leb_spec i i); [|lia].
        destruct (Z.ltb_spec i (i + Z.of_nat (S n))); [|lia].
        cbn [andb]. now rewrite Z.sub_diag.
      * destruct (Z.leb_spec i x); [lia | reflexivity].
Qed.

(** The splice: the mapped keys, then the queue behind the matched input;
    the queue grows or shrinks by the difference of the two lengths, and
    [map.resolved] is the smaller of them. *)
Lemma replace_matched_holds (m : Map) (s : state) (l : list Z) :
  holds (queue s) (qlen s) l ->
  0 <= inlen m <= qlen s ->
  mappedlen m = Z.of_nat (length (mapped m)) ->
  Forall (fun c => c <> 0) (mapped m) ->
  holds (queue (replace_matched m s)) (qlen (replace_matched m s))
        (mapped m ++ drop (Z.to_nat (inlen m)) l) /\
  qlen (replace_matched m s) = qlen s + (mappedlen m - inlen m) /\
  resolved (replace_matched m s) = Z.min (inlen m) (mappedlen m).
Proof.
  intros [Hn Hq] Hin Hml Hnz. split; [|split].
  - split.
    { cbn [replace_matched qlen]. rewrite length_app, length_drop. lia. }
    intros k Hk. rewrite length_app, length_drop in Hk.
    cbn [replace_matched queue]. unfold strncpy.
    rewrite strncpy_from_at by (auto; lia).
    destruct (Z.leb_spec 0 (Z.of_nat k)); [|lia]. cbn [andb].
    rewrite Z2Nat.id by lia.
    destruct (Z.ltb_spec (Z.of_nat k) (0 + mappedlen m)).
    { rewrite Z.sub_0_r, Nat2Z.id. symmetry. apply app_nth1. lia. }
    rewrite app_nth2 by lia.
    rewrite nth_lookup, lookup_drop, <- nth_lookup.
    destruct (Z.ltb_spec (inlen m) (mappedlen m)).
    + rewrite make_space_at by lia.
      destruct (Z.leb_spec (inlen m + (qlen s + mappedlen m - inlen m - qlen s))
                  (Z.of_nat k)); [|lia].
      destruct (Z.ltb_spec (Z.of_nat k) (qlen s + mappedlen m - inlen m)); [|lia].
      cbn [andb].
      replace (Z.of_nat k - (qlen s + mappedlen m - inlen m - qlen s))
        with (Z.of_nat (Z.to_nat (inlen m) + (k - length (mapped m)))) by lia.
      apply Hq. lia.
    + destruct (Z.ltb_spec (mappedlen m) (inlen m)).
      * rewrite delete_keys_at by lia.
        destruct (Z.leb_spec (mappedlen m) (Z.of_nat k)); [|lia].
        destruct (Z.ltb_spec (Z.of_nat k) (qlen s)); [|lia].
        cbn [andb].
        replace (Z.of_nat k + (inlen m - mappedlen m))
          with (Z.of_nat (Z.to_nat (inlen m) + (k - length (mapped m)))) by lia.
        apply Hq. lia.
      * replace (Z.to_nat (inlen m) + (k - length (mapped m)))%nat with k by lia.
        apply Hq. lia.
  - reflexivity.
  - cbn [replace_matched resolved].
    destruct (Z.leb_spec (inlen m) (mappedlen m)); lia.
Qed.

(** *** The steps of the resolver *)

Section Resolver.

Variable MAP_QUEUE_SIZE : Z.
Variable CSI : Z.
Variable TERMCAP2KEY : Z -> Z -> Z.
Variable FLAG_NOMAP : Z.
Variable char_signed : bool.
Variable mode_handle_key : list Z -> Mode -> list Map -> Z -> Mode * list Map.

Local Abbreviation copy_keys := (copy_keys MAP_QUEUE_SIZE).
Local Abbreviation send_key := (send_key CSI TERMCAP2KEY FLAG_NOMAP char_signed mode_handle_key).
Local Abbreviation send_resolved :=
  (send_resolved CSI TERMCAP2KEY FLAG_NOMAP char_signed mode_handle_key).
Local Abbreviation resolve_keys :=
  (resolve_keys CSI TERMCAP2KEY FLAG_NOMAP char_signed mode_handle_key).
Local Abbreviation map_handle_keys :=
  (map_handle_keys MAP_QUEUE_SIZE CSI TERMCAP2KEY FLAG_NOMAP char_signed mode_handle_key).
Local Abbreviation do_timeout :=
  (do_timeout MAP_QUEUE_SIZE CSI TERMCAP2KEY FLAG_NOMAP char_signed mode_handle_key).

Local Abbreviation nomap_cleared := (nomap_cleared FLAG_NOMAP).
Local Abbreviation int_of_char := (int_of_char char_signed).

Lemma nomap_cleared_flag (md : Mode) :
  Z.land (flags (nomap_cleared md)) FLAG_NOMAP = 0.
Proof.
  cbn. rewrite <- Z.land_assoc, (Z.land_comm (Z.lnot _)), Z.land_lnot_diag.
  apply Z.land_0_r.
Qed.

(** Keys that fit are appended to the queue. *)
Lemma copy_keys_is (keys : list Z) : forall s rules l r md h,
  state_is s rules l r md h ->
  Z.of_nat (length l) + Z.of_nat (length keys) <= MAP_QUEUE_SIZE ->
  state_is (copy_keys keys s) rules (l ++ keys) r md h.
Proof.
  induction keys as [|k keys IH]; intros s rules l r md h Hs Hlen.
  - cbn. now rewrite app_nil_r.
  - destruct Hs as (Hm & Hq & Hr & Hmd & Hh). pose proof Hq as [Hn _].
    cbn [Map.copy_keys]. cbn [length] in Hlen.
    destruct (Z.ltb_spec (qlen s) MAP_QUEUE_SIZE); [|lia].
    replace (l ++ k :: keys) with ((l ++ [k]) ++ keys) by now rewrite <- app_assoc.
    apply IH.
    + repeat split; try assumption; cbn.
      * rewrite length_app. cbn. lia.
      * apply holds_snoc. exact Hq.
    + rewrite length_app. cbn [length]. lia.
Qed.

(** One key is sent: a single byte, as the [int] it converts to.  The mode
    and the maps are the ones the parser leaves. *)
Lemma send_key_is (s : state) rules c l r md h :
  state_is s rules (c :: l) r md h ->
  (Z.land c 0xff =? CSI) && (3 <=? qlen s) = false ->
  state_is (send_key s)
    (snd (mode_handle_key h (nomap_cleared md) rules (int_of_char c))) l (r - 1)
    (fst (mode_handle_key h (nomap_cleared md) rules (int_of_char c)))
    (h ++ [int_of_char c]).
Proof.
  intros (Hm & Hq & Hr & Hmd & Hh) Hcsi.
  assert (H0 : queue s 0 = c) by (destruct Hq as [_ Hq]; apply (Hq 0%nat); cbn; lia).
  unfold Map.send_key, queue_int. rewrite H0, land_int_of_char, Hcsi.
  repeat split; cbn [maps queue qlen resolved vb_mode sent].
  - now rewrite Hh, Hmd, Hm.
  - destruct Hq as [Hn _]. cbn [length] in Hn. lia.
  - intros k Hk. apply (holds_memmove (queue s) (qlen s) [c] l Hq). exact Hk.
  - now rewrite Hr.
  - now rewrite Hh, Hmd, Hm.
  - now rewrite Hh.
Qed.

(** One key is sent: a CSI triplet. *)
Lemma send_key_csi_is (s : state) rules c2 c3 l r md h :
  state_is s rules (CSI :: c2 :: c3 :: l) r md h ->
  Z.land CSI 0xff = CSI ->
  let qk := TERMCAP2KEY (int_of_char c2) (int_of_char c3) in
  state_is (send_key s) (snd (mode_handle_key h (nomap_cleared md) rules qk)) l
    (r - 3) (fst (mode_handle_key h (nomap_cleared md) rules qk)) (h ++ [qk]).
Proof.
  intros (Hm & Hq & Hr & Hmd & Hh) Hcsi qk. subst qk.
  pose proof Hq as [Hn Hq'].
  assert (H0 : queue s 0 = CSI) by (apply (Hq' 0%nat); cbn; lia).
  assert (H1 : queue s 1 = c2) by (apply (Hq' 1%nat); cbn; lia).
  assert (H2 : queue s 2 = c3) by (apply (Hq' 2%nat); cbn; lia).
  unfold Map.send_key, queue_int.
  rewrite H0, H1, H2, land_int_of_char, Hcsi, Z.eqb_refl.
  destruct (Z.leb_spec 3 (qlen s)); [|cbn [length] in Hn; lia]. cbn [andb].
  repeat split; cbn [maps queue qlen resolved vb_mode sent].
  - now rewrite Hh, Hmd, Hm.
  - cbn [length] in Hn. lia.
  - intros k Hk.
    apply (holds_memmove (queue s) (qlen s) [CSI; c2; c3] l Hq). exact Hk.
  - now rewrite Hr.
  - now rewrite Hh, Hmd, Hm.
  - now rewrite Hh.
Qed.

(** A parser that is given by the mode it leaves keeps every list of maps. *)
Lemma leaves_maps_keeps (f : list Z -> Mode -> Z -> Mode) rules ks :
  keeps_maps (leaves_maps f) rules ks.
Proof. intros h md k _. reflexivity. Qed.

Lemma keeps_maps_app rules ks1 ks2 :
  keeps_maps mode_handle_key rules (ks1 ++ ks2) ->
  keeps_maps mode_handle_key rules ks1 /\ keeps_maps mode_handle_key rules ks2.
Proof.
  intros H. split; intros h md k Hk; apply H, in_or_app; [now left | now right].
Qed.

Lemma send_resolved_none (fuel : nat) (s : state) :
  resolved s <= 0 -> send_resolved fuel s = s.
Proof.
  intros H. destruct fuel; cbn; [reflexivity|].
  destruct (Z.ltb_spec 0 (resolved s)); [lia | reflexivity].
Qed.

Lemma send_resolved_one (fuel : nat) (s : state) :
  0 < resolved s -> send_resolved (S fuel) s = send_resolved fuel (send_key s).
Proof.
  intros H. cbn [Map.send_resolved].
  destruct (Z.ltb_spec 0 (resolved s)); [reflexivity | lia].
Qed.

(** The splice, on a state. *)
Lemma replace_matched_is (m : Map) (s : state) rules l r md h :
  state_is s rules l r md h ->
  0 <= inlen m <= qlen s ->
  mappedlen m = Z.of_nat (length (mapped m)) ->
  Forall (fun c => c <> 0) (mapped m) ->
  state_is (replace_matched m s) rules
    (mapped m ++ drop (Z.to_nat (inlen m)) l)
    (Z.min (inlen m) (mappedlen m)) md h.
Proof.
  intros (Hm & Hq & Hr & Hmd & Hh) Hin Hml Hnz.
  destruct (replace_matched_holds m s l Hq Hin Hml Hnz) as (Hq' & _ & Hr').
  repeat split; try assumption; apply Hq'.
Qed.

(** Which candidates the queue has, by its bytes. *)
Lemma exact_candidate_is (m : Map) (s : state) rules l r md h :
  state_is s rules l r md h -> well_formed m ->
  exact_candidate s m <-> mode m = id md /\ in_ m `prefix_of` l.
Proof.
  intros (Hm & Hq & Hr & Hmd & Hh) [Hlen Hnz]. unfold exact_candidate.
  rewrite Hmd, Hlen. pose proof Hq as [Hn _]. split.
  - intros (Hmode & Hle & Hcmp). split; [exact Hmode|].
    apply (strncmp_holds_exact _ _ _ _ Hq Hnz); [lia | exact Hcmp].
  - intros (Hmode & Hpre). pose proof (prefix_length _ _ Hpre).
    split; [exact Hmode|]. split; [lia|].
    apply (strncmp_holds_exact _ _ _ _ Hq Hnz); [lia | exact Hpre].
Qed.

Lemma ambiguous_candidate_is (m : Map) (s : state) rules l r md h :
  state_is s rules l r md h -> well_formed m ->
  ambiguous_candidate s m <->
  mode m = id md /\ l `prefix_of` in_ m /\ (length l < length (in_ m))%nat.
Proof.
  intros (Hm & Hq & Hr & Hmd & Hh) [Hlen Hnz]. unfold ambiguous_candidate.
  rewrite Hmd, Hlen. pose proof Hq as [Hn _]. split.
  - intros (Hmode & Hlt & Hcmp). split; [exact Hmode|]. split; [|lia].
    apply (strncmp_holds_ambiguous _ _ _ _ Hq Hnz); [lia | exact Hcmp].
  - intros (Hmode & Hpre & Hlt). split; [exact Hmode|]. split; [lia|].
    apply (strncmp_holds_ambiguous _ _ _ _ Hq Hnz); [lia | exact Hpre].
Qed.


(** The four ways a round of the loop of [map_handle_keys] goes on. *)
Lemma resolve_keys_done (fuel : nat) (timeout use_map : bool) match_ s :
  qlen (send_resolved (Z.to_nat (resolved s)) s) = 0 ->
  resolve_keys (S fuel) timeout use_map match_ s =
  Some (match match_ with Some _ => MAP_DONE | None => MAP_NOMATCH end,
        set_resolved (send_resolved (Z.to_nat (resolved s)) s) 0).
Proof. intros H. cbn [Map.resolve_keys]. now rewrite H. Qed.

Lemma resolve_keys_ambiguous (fuel : nat) (timeout : bool) match_ s :
  let s1 := send_resolved (Z.to_nat (resolved s)) s in
  qlen s1 <> 0 -> Z.land (flags (vb_mode s1)) FLAG_NOMAP = 0 ->
  snd (find_maps timeout s1 (maps s1) None 0) <> 0 ->
  resolve_keys (S fuel) timeout true match_ s = Some (MAP_AMBIGUOUS, s1).
Proof.
  intros s1 Hq Hf Ha. cbn [Map.resolve_keys]. fold s1.
  destruct (Z.eqb_spec (qlen s1) 0); [contradiction|]. rewrite Hf. cbn [andb Z.eqb].
  destruct (find_maps timeout s1 (maps s1) None 0) as [m a]. cbn [snd] in Ha.
  destruct (Z.eqb_spec a 0); [contradiction|]. reflexivity.
Qed.

Lemma resolve_keys_match (fuel : nat) (timeout : bool) match_ s m :
  let s1 := send_resolved (Z.to_nat (resolved s)) s in
  qlen s1 <> 0 -> Z.land (flags (vb_mode s1)) FLAG_NOMAP = 0 ->
  find_maps timeout s1 (maps s1) None 0 = (Some m, 0) ->
  resolve_keys (S fuel) timeout true match_ s =
  resolve_keys fuel timeout true (Some m) (replace_matched m s1).
Proof.
  intros s1 Hq Hf Ha. cbn [Map.resolve_keys]. fold s1.
  destruct (Z.eqb_spec (qlen s1) 0); [contradiction|]. rewrite Hf. cbn [andb Z.eqb].
  rewrite Ha. reflexivity.
Qed.

Lemma resolve_keys_nomatch (fuel : nat) (timeout : bool) match_ s :
  let s1 := send_resolved (Z.to_nat (resolved s)) s in
  qlen s1 <> 0 -> Z.land (flags (vb_mode s1)) FLAG_NOMAP = 0 ->
  find_maps timeout s1 (maps s1) None 0 = (None, 0) ->
  resolve_keys (S fuel) timeout true match_ s =
  resolve_keys fuel timeout true None (set_resolved s1 1).
Proof.
  intros s1 Hq Hf Ha. cbn [Map.resolve_keys]. fold s1.
  destruct (Z.eqb_spec (qlen s1) 0); [contradiction|]. rewrite Hf. cbn [andb Z.eqb].
  rewrite Ha. reflexivity.
Qed.

(** The resolved bytes are sent one by one as long as none of them is a
    CSI byte at the head of three bytes or more.  The maps are the same
    afterwards when the parser keeps them on these keys. *)
Lemma send_resolved_bytes (p : list Z) : forall fuel s rules l md h,
  state_is s rules (p ++ l) (Z.of_nat (length p)) md h ->
  (forall p1 c p2, p = p1 ++ c :: p2 ->
     Z.land c 0xff <> CSI \/ (length p2 + length l < 2)%nat) ->
  (length p <= fuel)%nat ->
  exists md' rules',
    state_is (send_resolved fuel s) rules' l 0 md' (h ++ map int_of_char p) /\
    (keeps_maps mode_handle_key rules (map int_of_char p) -> rules' = rules).
Proof.
  induction p as [|c p IH]; intros fuel s rules l md h Hs Hp Hfuel.
  - exists md, rules. cbn [map]. rewrite app_nil_r.
    pose proof Hs as (Hm & Hq & Hr & Hmd & Hh).
    rewrite send_resolved_none by (cbn in Hr; lia).
    split; [exact Hs | reflexivity].
  - destruct fuel as [|fuel]; [cbn in Hfuel; lia|].
    pose proof Hs as (Hm & Hq & Hr & Hmd & Hh).
    rewrite send_resolved_one by (rewrite Hr; cbn; lia).
    assert (Hstep := send_key_is s rules c (p ++ l) _ md h Hs).
    assert (Hcsi : (Z.land c 255 =? CSI) && (3 <=? qlen s) = false).
    { destruct (Hp [] c p eq_refl) as [Hc|Hc].
      - apply Z.eqb_neq in Hc. now rewrite Hc.
      - destruct Hq as [Hn _]. cbn [app length] in Hn. rewrite length_app in Hn.
        destruct (Z.leb_spec 3 (qlen s)); [lia|]. apply andb_false_r. }
    specialize (Hstep Hcsi).
    replace (Z.of_nat (length (c :: p)) - 1) with (Z.of_nat (length p)) in Hstep
      by (cbn [length]; lia).
    destruct (IH fuel _ _ _ _ _ Hstep) as (md' & rules' & Hs' & Hkeep).
    + intros p1 c' p2 ->. apply (Hp (c :: p1)). reflexivity.
    + cbn in Hfuel. lia.
    + exists md', rules'. cbn [map]. rewrite <- app_assoc in Hs'.
      split; [exact Hs'|]. intros Hk.
      assert (E : snd (mode_handle_key h (nomap_cleared md) rules (int_of_char c))
                  = rules) by (apply Hk; now left).
      rewrite E in Hkeep. apply Hkeep.
      intros h' md0 k Hin. apply Hk. now right.
Qed.

(** A round of the loop at a queue without resolved keys. *)
Lemma round_ambiguous (fuel : nat) match_ s rules l md h m :
  state_is s rules l 0 md h -> l <> [] -> Z.land (flags md) FLAG_NOMAP = 0 ->
  In m rules -> ambiguous_candidate s m ->
  resolve_keys (S fuel) false true match_ s = Some (MAP_AMBIGUOUS, s).
Proof.
  intros (Hm & Hq & Hr & Hmd & Hh) Hl Hf Hin Hamb.
  pose proof (resolve_keys_ambiguous fuel false match_ s) as H. cbn zeta in H.
  rewrite Hr in H. rewrite send_resolved_none in H by (rewrite Hr; lia).
  apply H.
  - destruct Hq as [-> _]. destruct l; [congruence | cbn; lia].
  - now rewrite Hmd.
  - rewrite Hm.
    pose proof (find_maps_is_ambiguous false s rules None 0 m eq_refl Hin Hamb). lia.
Qed.

Lemma round_match (fuel : nat) (timeout : bool) match_ s rules l md h m :
  state_is s rules l 0 md h -> l <> [] -> Z.land (flags md) FLAG_NOMAP = 0 ->
  timeout = true \/ (forall m', In m' rules -> ~ ambiguous_candidate s m') ->
  fst (find_maps timeout s rules None 0) = Some m ->
  resolve_keys (S fuel) timeout true match_ s =
  resolve_keys fuel timeout true (Some m) (replace_matched m s).
Proof.
  intros (Hm & Hq & Hr & Hmd & Hh) Hl Hf Hamb Hfst.
  pose proof (resolve_keys_match fuel timeout match_ s m) as H. cbn zeta in H.
  rewrite Hr in H. rewrite send_resolved_none in H by (rewrite Hr; lia).
  apply H.
  - destruct Hq as [-> _]. destruct l; [congruence | cbn; lia].
  - now rewrite Hmd.
  - rewrite Hm. rewrite (surjective_pairing (find_maps _ _ _ _ _)), Hfst.
    now rewrite find_maps_not_ambiguous.
Qed.

(** The round that sends the whole queue and returns. *)
Lemma round_done (fuel : nat) (timeout use_map : bool) match_ s rules p md h :
  state_is s rules p (Z.of_nat (length p)) md h ->
  (forall p1 c p2, p = p1 ++ c :: p2 ->
     Z.land c 0xff <> CSI \/ (length p2 < 2)%nat) ->
  exists s' md' rules',
    resolve_keys (S fuel) timeout use_map match_ s =
      Some (match match_ with Some _ => MAP_DONE | None => MAP_NOMATCH end, s') /\
    state_is s' rules' [] 0 md' (h ++ map int_of_char p) /\
    (keeps_maps mode_handle_key rules (map int_of_char p) -> rules' = rules).
Proof.
  intros Hs Hp. pose proof Hs as (Hm & Hq & Hr & Hmd & Hh).
  destruct (send_resolved_bytes p (Z.to_nat (resolved s)) s rules [] md h)
    as (md' & rules' & Hs' & Hkeep).
  - now rewrite app_nil_r.
  - intros p1 c p2 E. destruct (Hp p1 c p2 E); [now left | right; cbn; lia].
  - rewrite Hr. lia.
  - exists (set_resolved (send_resolved (Z.to_nat (resolved s)) s) 0), md', rules'.
    split; [|split; [|exact Hkeep]].
    + apply resolve_keys_done. destruct Hs' as (_ & [Hn _] & _). exact Hn.
    + destruct Hs' as (H1 & H2 & H3 & H4 & H5).
      split; [exact H1|]. split; [exact H2|]. split; [reflexivity|].
      split; assumption.
Qed.

(** A round begins with sending the resolved keys. *)
Lemma resolve_keys_sent (fuel : nat) (timeout use_map : bool) match_ s :
  resolved (send_resolved (Z.to_nat (resolved s)) s) <= 0 ->
  resolve_keys (S fuel) timeout use_map match_ s =
  resolve_keys (S fuel) timeout use_map match_
    (send_resolved (Z.to_nat (resolved s)) s).
Proof.
  intros H. cbn [Map.resolve_keys].
  now rewrite (send_resolved_none _ (send_resolved _ s)) by exact H.
Qed.

(** A round at a timeout in which no map applies resolves one key. *)
Lemma round_literal (fuel : nat) (use_map : bool) match_ s rules l md h :
  state_is s rules l 0 md h -> l <> [] -> Forall well_formed rules ->
  (forall m, In m rules -> ~ in_ m `prefix_of` l) ->
  resolve_keys (S fuel) true use_map match_ s =
  resolve_keys fuel true use_map None (set_resolved s 1).
Proof.
  intros Hs Hl Hwf Hno. pose proof Hs as (Hm & Hq & Hr & Hmd & Hh).
  cbn [Map.resolve_keys]. rewrite send_resolved_none by (rewrite Hr; lia).
  destruct (Z.eqb_spec (qlen s) 0) as [Hz|_].
  { destruct Hq as [Hn _]. destruct l; [congruence | cbn in Hn; lia]. }
  destruct (use_map && (Z.land (flags (vb_mode s)) FLAG_NOMAP =? 0)); [|reflexivity].
  rewrite Hm. rewrite (surjective_pairing (find_maps _ _ _ _ _)).
  rewrite find_maps_not_ambiguous by now left.
  pose proof (find_maps_longest true s rules None 0 I) as H.
  destruct (fst (find_maps true s rules None 0)) as [m|]; [|reflexivity].
  exfalso. destruct H as (He & [Hin|Hin] & _); [discriminate Hin|].
  rewrite List.Forall_forall in Hwf.
  apply (exact_candidate_is m s rules _ _ _ _ Hs (Hwf m Hin)) in He as [_ He].
  exact (Hno m Hin He).
Qed.

(** At a timeout, keys that no map applies to are sent as they are, when
    the parser keeps the maps on them. *)
Lemma literal_rounds (rules : list Map) (t : list Z) :
  forall p fuel s md h use_map match_,
  state_is s rules (p ++ t) (Z.of_nat (length p)) md h ->
  Forall well_formed rules ->
  keeps_maps mode_handle_key rules (map int_of_char (p ++ t)) ->
  (forall p1 c p2, p ++ t = p1 ++ c :: p2 ->
     Z.land c 0xff <> CSI \/ (length p2 < 2)%nat) ->
  (forall t1 t2 m, t = t1 ++ t2 -> t2 <> [] -> In m rules ->
     ~ in_ m `prefix_of` t2) ->
  (length t < fuel)%nat ->
  exists s' md',
    resolve_keys fuel true use_map match_ s =
      Some (match t, match_ with [], Some _ => MAP_DONE | _, _ => MAP_NOMATCH end, s') /\
    state_is s' rules [] 0 md' (h ++ map int_of_char (p ++ t)).
Proof.
  induction t as [|c t IH];
    intros p fuel s md h use_map match_ Hs Hwf Hkeep Hcsi Hno Hfuel.
  - destruct fuel as [|fuel]; [cbn in Hfuel; lia|]. rewrite app_nil_r in *.
    destruct (round_done fuel true use_map match_ s rules p md h Hs Hcsi)
      as (s' & md' & rules' & Hrun & Hs' & Hsame).
    rewrite (Hsame Hkeep) in Hs'.
    exists s', md'. split; [|exact Hs']. rewrite Hrun. now destruct match_.
  - destruct fuel as [|fuel]; [cbn in Hfuel; lia|].
    pose proof Hs as (_ & _ & Hr & _).
    rewrite map_app in Hkeep. apply keeps_maps_app in Hkeep as [Hkp Hkt].
    destruct (send_resolved_bytes p (Z.to_nat (resolved s)) s rules (c :: t) md h Hs)
      as (md1 & rules1 & Hs1 & Hsame).
    { intros p1 x p2 ->. specialize (Hcsi p1 x (p2 ++ c :: t)).
      rewrite <- app_assoc in Hcsi. destruct (Hcsi eq_refl) as [H|H]; [now left|].
      right. rewrite length_app in H. cbn [length] in *. lia. }
    { rewrite Hr. lia. }
    rewrite (Hsame Hkp) in Hs1.
    rewrite resolve_keys_sent by (destruct Hs1 as (_ & _ & -> & _); lia).
    rewrite (round_literal fuel use_map match_ _ rules (c :: t) md1
               (h ++ map int_of_char p) Hs1);
      [|discriminate|exact Hwf|].
    2:{ intros m Hm. apply (Hno [] (c :: t) m eq_refl); [discriminate | exact Hm]. }
    destruct (IH [c] fuel
                (set_resolved (send_resolved (Z.to_nat (resolved s)) s) 1)
                md1 (h ++ map int_of_char p) use_map None) as (s' & md' & Hrun & Hs').
    + destruct Hs1 as (H1 & H2 & H3 & H4 & H5).
      split; [exact H1|]. split; [exact H2|]. split; [reflexivity|]. split; assumption.
    + exact Hwf.
    + exact Hkt.
    + intros p1 x p2 E. apply (Hcsi (p ++ p1) x p2).
      rewrite <- app_assoc. cbn [app] in E |- *. now rewrite <- E.
    + intros t1 t2 m E. apply (Hno (c :: t1) t2 m). cbn [app]. now rewrite E.
    + cbn [length] in Hfuel. lia.
    + exists s', md'. split.
      * rewrite Hrun. now destruct t.
      * rewrite <- app_assoc, <- map_app in Hs'. exact Hs'.
Qed.

(** C5, amended. The splice leaves the mapped keys at the head of the queue,
    the queue longer or shorter by the difference of the lengths and, for a
    splice that fits into the queue, within its [MAP_QUEUE_SIZE] bytes, and
    [map.resolved] the smaller of the two lengths.  When the mapped keys are
    longer than the input and none of the resolved ones is the CSI byte, the
    loop that follows sends just as many bytes as the input had, each as the
    [int] it converts to, and leaves the rest of the mapped keys in the queue
    for the next round, whatever the parser does with the keys.  A CSI byte
    at the head of three bytes or more goes out with the two bytes behind it
    as one key and takes three from [map.resolved]. *)
Theorem splice_resolves_shorter_length (m : Map) (s : state) rules l md h :
  state_is s rules l (resolved s) md h ->
  0 <= inlen m <= qlen s ->
  mappedlen m = Z.of_nat (length (mapped m)) ->
  Forall (fun c => c <> 0) (mapped m) ->
  splice_fits MAP_QUEUE_SIZE m s ->
  let s' := replace_matched m s in
  state_is s' rules (mapped m ++ drop (Z.to_nat (inlen m)) l)
    (Z.min (inlen m) (mappedlen m)) md h /\
  qlen s' = qlen s + (mappedlen m - inlen m) /\
  qlen s' <= MAP_QUEUE_SIZE /\
  (inlen m < mappedlen m ->
   Forall (fun c => Z.land c 0xff <> CSI) (take (Z.to_nat (inlen m)) (mapped m)) ->
   exists md' rules',
     state_is (send_resolved (Z.to_nat (resolved s')) s') rules'
       (drop (Z.to_nat (inlen m)) (mapped m) ++ drop (Z.to_nat (inlen m)) l)
       0 md'
       (h ++ map int_of_char (take (Z.to_nat (inlen m)) (mapped m)))) /\
  (forall c2 c3 t,
   mapped m = CSI :: c2 :: c3 :: t -> Z.land CSI 0xff = CSI ->
   let qk := TERMCAP2KEY (int_of_char c2) (int_of_char c3) in
   state_is (send_key s')
     (snd (mode_handle_key h (nomap_cleared md) rules qk))
     (t ++ drop (Z.to_nat (inlen m)) l)
     (Z.min (inlen m) (mappedlen m) - 3)
     (fst (mode_handle_key h (nomap_cleared md) rules qk))
     (h ++ [qk])).
Proof.
  intros Hs Hin Hml Hnz Hfit s'.
  pose proof (replace_matched_is m s rules l _ md h Hs Hin Hml Hnz) as Hs'.
  fold s' in Hs'. split; [exact Hs'|]. split; [reflexivity|]. split; [|split].
  - unfold splice_fits in Hfit. cbn [qlen s' replace_matched]. lia.
  - intros Hlt Hcsi.
    assert (Hres : resolved s' = Z.of_nat (length (take (Z.to_nat (inlen m)) (mapped m)))).
    { destruct Hs' as (_ & _ & -> & _). rewrite length_take. lia. }
    destruct (send_resolved_bytes (take (Z.to_nat (inlen m)) (mapped m))
                (Z.to_nat (resolved s')) s' rules
                (drop (Z.to_nat (inlen m)) (mapped m) ++ drop (Z.to_nat (inlen m)) l)
                md h) as (md' & rules' & Hsent & _).
    + rewrite <- Hres, app_assoc, take_drop.
      destruct Hs' as (H1 & H2 & H3 & H4 & H5).
      split; [exact H1|]. split; [exact H2|]. split; [reflexivity|].
      split; assumption.
    + intros p1 c p2 E. left. rewrite Forall_forall in Hcsi. apply Hcsi.
      rewrite E. apply list_elem_of_In, in_elt.
    + rewrite Hres, Nat2Z.id. lia.
    + now exists md', rules'.
  - intros c2 c3 t Hmap Hcsi. apply send_key_csi_is; [|exact Hcsi].
    rewrite Hmap in Hs'. exact Hs'.
Qed.

End Resolver.

Lemma splice_resolves_shorter_length_witness :
  let m := rule (str "a") (str "bc") (ch "n") in
  let md := {| id := ch "n"; flags := 0 |} in
  let s := {| maps := [m]; queue := cstr (str "a"); qlen := 1; resolved := 0;
              vb_mode := md; sent := [] |} in
  let s' := replace_matched m s in
  state_is s' [m] (str "bc" ++ []) (Z.min 1 2) md [] /\
  qlen s' = 1 + (2 - 1) /\
  qlen s' <= Vimb.MAP_QUEUE_SIZE /\
  (1 < 2 ->
   Forall (fun c => Z.land c 0xff <> Vimb.CSI) (take 1 (str "bc")) ->
   exists md' rules',
     state_is (send_resolved Vimb.CSI Vimb.TERMCAP2KEY Vimb.FLAG_NOMAP
                 Vimb.char_signed Vimb.mode_handle_key (Z.to_nat (resolved s')) s')
       rules' (drop 1 (str "bc") ++ []) 0 md'
       ([] ++ map (int_of_char Vimb.char_signed) (take 1 (str "bc")))) /\
  (forall c2 c3 t,
   str "bc" = Vimb.CSI :: c2 :: c3 :: t -> Z.land Vimb.CSI 0xff = Vimb.CSI ->
   let qk := Vimb.TERMCAP2KEY (int_of_char Vimb.char_signed c2)
               (int_of_char Vimb.char_signed c3) in
   state_is (send_key Vimb.CSI Vimb.TERMCAP2KEY Vimb.FLAG_NOMAP
               Vimb.char_signed Vimb.mode_handle_key s')
     (snd (Vimb.mode_handle_key [] (nomap_cleared Vimb.FLAG_NOMAP md) [m] qk))
     (t ++ []) (Z.min 1 2 - 3)
     (fst (Vimb.mode_handle_key [] (nomap_cleared Vimb.FLAG_NOMAP md) [m] qk))
     ([] ++ [qk])).
Proof.
  intros m md s s'.
  apply (splice_resolves_shorter_length Vimb.MAP_QUEUE_SIZE Vimb.CSI Vimb.TERMCAP2KEY
           Vimb.FLAG_NOMAP Vimb.char_signed Vimb.mode_handle_key m s [m] (str "a") md []).
  - repeat split. intros [|k] Hk; [reflexivity | cbn in Hk; lia].
  - cbn. lia.
  - reflexivity.
  - repeat constructor; discriminate.
  - now vm_compute.
Defined.

(** C5 as stated fails for a map to a special key: with [a] mapped to
    [<Left>], the CSI byte and two more, [map.resolved] is 1 and yet the
    three bytes go out as one key; the two behind the first do not meet the
    map of [k] that would take them if they were matched again. *)
Lemma splice_csi_counterexample :
  let rules :=
    map_insert Vimb.CSI (str "k") (str "Z") (ch "n")
      (map_insert Vimb.CSI (str "a") (str "<Left>") (ch "n") []) in
  let m := rule (str "a") (Vimb.CSI :: str "kl") (ch "n") in
  let s := copy_keys Vimb.MAP_QUEUE_SIZE (str "a") (Vimb.start rules) in
  let s' := replace_matched m s in
  In m rules /\
  resolved s' = Z.min 1 3 /\ contents s' = Vimb.CSI :: str "kl" /\
  sent (send_resolved Vimb.CSI Vimb.TERMCAP2KEY Vimb.FLAG_NOMAP Vimb.char_signed
          Vimb.mode_handle_key (Z.to_nat (resolved s')) s') =
    [Vimb.TERMCAP2KEY (ch "k") (ch "l")] /\
  exists s2,
    map_handle_keys Vimb.MAP_QUEUE_SIZE Vimb.CSI Vimb.TERMCAP2KEY Vimb.FLAG_NOMAP Vimb.char_signed
      Vimb.mode_handle_key 3 (str "a") true (Vimb.start rules) = Some (MAP_DONE, s2) /\
    sent s2 = [Vimb.TERMCAP2KEY (ch "k") (ch "l")] /\ contents s2 = [].
Proof.
  cbv zeta. split; [right; left; reflexivity|].
  split; [reflexivity|]. split; [reflexivity|]. split; [reflexivity|].
  eexists. split; [reflexivity|]. split; reflexivity.
Qed.

(** *** Longest match and ambiguity *)

Section Scenarios.

Variable MAP_QUEUE_SIZE : Z.
Variable CSI : Z.
Variable TERMCAP2KEY : Z -> Z -> Z.
Variable FLAG_NOMAP : Z.
Variable char_signed : bool.
Variable mode_handle_key : list Z -> Mode -> list Map -> Z -> Mode * list Map.

Local Abbreviation copy_keys := (copy_keys MAP_QUEUE_SIZE).
Local Abbreviation resolve_keys :=
  (resolve_keys CSI TERMCAP2KEY FLAG_NOMAP char_signed mode_handle_key).
Local Abbreviation map_handle_keys :=
  (map_handle_keys MAP_QUEUE_SIZE CSI TERMCAP2KEY FLAG_NOMAP char_signed mode_handle_key).
Local Abbreviation do_timeout :=
  (do_timeout MAP_QUEUE_SIZE CSI TERMCAP2KEY FLAG_NOMAP char_signed mode_handle_key).

Lemma rule_well_formed (i o : list Z) (M : Z) :
  Forall (fun c => c <> 0) i -> well_formed (rule i o M).
Proof. intros H. split; [reflexivity | exact H]. Qed.

Lemma str_no_nul (i : list Z) :
  forallb (fun c => negb (c =? 0)) i = true -> Forall (fun c => c <> 0) i.
Proof.
  intros H. apply List.Forall_forall. intros c Hc.
  rewrite forallb_forall in H. specialize (H c Hc).
  now apply negb_true_iff, Z.eqb_neq in H.
Qed.

(** [g] to [X] and [gg] to [Y] in either order: [gg] is sent as [Y]. *)
Lemma gg_sends_Y (fuel : nat) (M f : Z) (q : Z -> Z) (h : list Z) rules :
  2 <= MAP_QUEUE_SIZE -> Z.land f FLAG_NOMAP = 0 ->
  rules = [rule (str "g") (str "X") M; rule (str "gg") (str "Y") M] \/
  rules = [rule (str "gg") (str "Y") M; rule (str "g") (str "X") M] ->
  exists s',
    map_handle_keys (S (S fuel)) (str "gg") true
      {| maps := rules; queue := q; qlen := 0; resolved := 0;
         vb_mode := {| id := M; flags := f |}; sent := h |} = Some (MAP_DONE, s') /\
    sent s' = h ++ [ch "Y"] /\ qlen s' = 0.
Proof.
  intros HN Hf Hrules.
  set (md := {| id := M; flags := f |}).
  set (s0 := {| maps := rules; queue := q; qlen := 0; resolved := 0;
                vb_mode := md; sent := h |}).
  set (rg := rule (str "g") (str "X") M) in *.
  set (rgg := rule (str "gg") (str "Y") M) in *.
  assert (Hwg : well_formed rg) by (apply rule_well_formed, str_no_nul; reflexivity).
  assert (Hwgg : well_formed rgg) by (apply rule_well_formed, str_no_nul; reflexivity).
  assert (Hin : forall m, In m rules <-> m = rg \/ m = rgg).
  { intros m. destruct Hrules as [-> | ->]; cbn; intuition congruence. }
  assert (Hs0 : state_is s0 rules [] 0 md h)
    by (repeat split; cbn; intros; lia).
  pose proof (copy_keys_is MAP_QUEUE_SIZE (str "gg") s0 rules [] 0 md h Hs0
                ltac:(cbn; lia)) as Hs1.
  cbn [app] in Hs1. set (s1 := copy_keys (str "gg") s0) in *.
  unfold Map.map_handle_keys. fold s0 s1.
  change (Z.of_nat (length (str "gg")) =? 0) with false.
  (* the first round: [gg] is the longest exact candidate, none is ambiguous *)
  assert (Hexgg : exact_candidate s1 rgg).
  { apply (exact_candidate_is rgg s1 rules _ _ _ _ Hs1 Hwgg).
    split; [reflexivity | reflexivity]. }
  assert (Hfst : fst (find_maps false s1 rules None 0) = Some rgg).
  { pose proof (find_maps_longest false s1 rules None 0 I) as H.
    destruct (fst (find_maps false s1 rules None 0)) as [m|].
    - destruct H as (_ & [Hm|Hm] & _ & Hmax); [discriminate Hm|].
      apply Hin in Hm as [-> | ->]; [|reflexivity].
      specialize (Hmax rgg ltac:(apply Hin; now right) Hexgg). cbn in Hmax. lia.
    - destruct H as [_ H]. exfalso. apply (H rgg); [apply Hin; now right | exact Hexgg]. }
  rewrite (round_match CSI TERMCAP2KEY FLAG_NOMAP char_signed mode_handle_key
             (S fuel) false None s1 rules _ md h rgg Hs1); auto; try discriminate.
  2:{ right. intros m Hm Hamb.
      apply Hin in Hm as [-> | ->];
        apply (ambiguous_candidate_is _ s1 rules _ _ _ _ Hs1) in Hamb;
        auto; destruct Hamb as (_ & _ & Hlen); cbn in Hlen; lia. }
  (* the splice and the second round *)
  assert (Hq1 : qlen s1 = 2) by (destruct Hs1 as (_ & [Hn _] & _); exact Hn).
  pose proof (replace_matched_is rgg s1 rules _ _ md h Hs1
                ltac:(rewrite Hq1; cbn; lia) eq_refl
                ltac:(apply str_no_nul; reflexivity)) as Hs2.
  change (mapped rgg ++ drop (Z.to_nat (inlen rgg)) (str "gg")) with (str "Y") in Hs2.
  change (Z.min (inlen rgg) (mappedlen rgg)) with (Z.of_nat (length (str "Y"))) in Hs2.
  destruct (round_done CSI TERMCAP2KEY FLAG_NOMAP char_signed mode_handle_key fuel
              false true (Some rgg) _ rules _ md h Hs2)
    as (s' & md' & rules' & Hrun & Hs' & _).
  { intros p1 c p2 E. right.
    apply (f_equal (@length Z)) in E. rewrite length_app in E. cbn in E. lia. }
  exists s'. split; [exact Hrun|].
  destruct Hs' as (_ & [Hn _] & _ & _ & Hsent). split; [exact Hsent | exact Hn].
Qed.

(** C4. Of the exact candidates of a round the one with the longest input is
    taken, whatever the order of [map.list]: a reordered list gives a map
    with an input of the same length, the same input for well formed maps.
    With [g] mapped to [X] and [gg] to [Y], in either order, [gg] is sent as
    [Y]. *)
Theorem longest_exact_candidate_is_taken
    (timeout : bool) (s : state) (l : list Map) (m0 : Map) :
  In m0 l -> exact_candidate s m0 ->
  (exists m,
     fst (find_maps timeout s l None 0) = Some m /\ In m l /\
     exact_candidate s m /\
     (forall m', In m' l -> exact_candidate s m' -> inlen m' <= inlen m) /\
     (forall l', Permutation l l' ->
        exists m', fst (find_maps timeout s l' None 0) = Some m' /\
          inlen m' = inlen m /\
          (well_formed m -> well_formed m' -> in_ m' = in_ m))) /\
  (forall fuel M f q h rules,
     2 <= MAP_QUEUE_SIZE -> Z.land f FLAG_NOMAP = 0 ->
     rules = [rule (str "g") (str "X") M; rule (str "gg") (str "Y") M] \/
     rules = [rule (str "gg") (str "Y") M; rule (str "g") (str "X") M] ->
     exists s',
       map_handle_keys (S (S fuel)) (str "gg") true
         {| maps := rules; queue := q; qlen := 0; resolved := 0;
            vb_mode := {| id := M; flags := f |}; sent := h |} =
         Some (MAP_DONE, s') /\
       sent s' = h ++ [ch "Y"] /\ qlen s' = 0).
Proof.
  intros Hin0 Hex0. split; [|intros; now apply gg_sends_Y].
  assert (Hsel : forall l', In m0 l' ->
    exists m, fst (find_maps timeout s l' None 0) = Some m /\ In m l' /\
      exact_candidate s m /\
      (forall m', In m' l' -> exact_candidate s m' -> inlen m' <= inlen m)).
  { intros l' Hin'. pose proof (find_maps_longest timeout s l' None 0 I) as H.
    destruct (fst (find_maps timeout s l' None 0)) as [m|].
    - destruct H as (He & [Hm|Hm] & _ & Hmax); [discriminate Hm|]. now exists m.
    - destruct H as [_ H]. exfalso. exact (H m0 Hin' Hex0). }
  destruct (Hsel l Hin0) as (m & Hfst & Hin & Hex & Hmax).
  exists m. split; [exact Hfst|]. split; [exact Hin|]. split; [exact Hex|].
  split; [exact Hmax|]. intros l' Hperm.
  destruct (Hsel l' (Permutation_in _ Hperm Hin0)) as (m' & Hfst' & Hin' & Hex' & Hmax').
  exists m'. split; [exact Hfst'|].
  assert (Hlen : inlen m' = inlen m).
  { specialize (Hmax m' (Permutation_in _ (Permutation_sym Hperm) Hin') Hex').
    specialize (Hmax' m (Permutation_in _ Hperm Hin) Hex). lia. }
  split; [exact Hlen|]. intros Hw Hw'.
  rewrite (exact_candidate_input s m Hw Hex), (exact_candidate_input s m' Hw' Hex').
  destruct Hw as [Hw _], Hw' as [Hw' _]. f_equal. f_equal. lia.
Qed.


(** C3. With maps of [ab] and [abc] in the active mode and an empty queue,
    the key [a] and then the key [b] are kept in the queue, nothing is sent
    and the result is ambiguous both times.  The timeout that follows takes
    the map of [ab]: its mapped keys are put into the queue, where they fit,
    and are sent, each as the [int] it converts to, not [a] and [b].  The
    mapped keys are any that hold no special key.  One or two of them are
    sent in the round behind the splice, whatever the parser does with them,
    and the result is [MAP_DONE].  Of more than two the third and the
    following are matched against [map.list] again: they are sent as they
    are, with the result [MAP_NOMATCH], when the parser leaves the two maps
    alone on the keys of the output and they do not bring up [ab] again. *)
Theorem ambiguous_waits_and_timeout_takes_ab
    (fuel : nat) (M f : Z) (q : Z -> Z) (h out1 out2 : list Z) (rules : list Map) :
  3 <= MAP_QUEUE_SIZE -> Z.land f FLAG_NOMAP = 0 ->
  out1 <> [] -> Forall (fun c => c <> 0) out1 -> Forall (fun c => c <> 0) out2 ->
  Z.of_nat (length out1) <= MAP_QUEUE_SIZE ->
  (forall p1 c p2, out1 = p1 ++ c :: p2 ->
     Z.land c 0xff <> CSI \/ (length p2 < 2)%nat) ->
  rules = [rule (str "ab") out1 M; rule (str "abc") out2 M] \/
  rules = [rule (str "abc") out2 M; rule (str "ab") out1 M] ->
  exists s1 s2,
    map_handle_keys (S fuel) (str "a") true
      {| maps := rules; queue := q; qlen := 0; resolved := 0;
         vb_mode := {| id := M; flags := f |}; sent := h |} =
      Some (MAP_AMBIGUOUS, s1) /\
    contents s1 = str "a" /\ sent s1 = h /\
    map_handle_keys (S fuel) (str "b") true s1 = Some (MAP_AMBIGUOUS, s2) /\
    contents s2 = str "ab" /\ sent s2 = h /\
    splice_fits MAP_QUEUE_SIZE (rule (str "ab") out1 M) s2 /\
    contents (replace_matched (rule (str "ab") out1 M) s2) = out1 /\
    ((length out1 <= 2)%nat ->
     exists s3,
       do_timeout (S (S (length out1 + fuel))) s2 = Some (MAP_DONE, s3) /\
       contents s3 = [] /\ sent s3 = h ++ map (int_of_char char_signed) out1) /\
    ((2 < length out1)%nat ->
     keeps_maps mode_handle_key rules (map (int_of_char char_signed) out1) ->
     (forall t1 t2, drop 2 out1 = t1 ++ t2 -> ~ str "ab" `prefix_of` t2) ->
     exists s3,
       do_timeout (S (S (length out1 + fuel))) s2 = Some (MAP_NOMATCH, s3) /\
       contents s3 = [] /\ sent s3 = h ++ map (int_of_char char_signed) out1).
Proof.
  intros HN Hf Hne Hnz Hnz2 Hsize Hcsi Hrules.
  set (md := {| id := M; flags := f |}).
  set (s0 := {| maps := rules; queue := q; qlen := 0; resolved := 0;
                vb_mode := md; sent := h |}).
  set (rab := rule (str "ab") out1 M) in *.
  set (rabc := rule (str "abc") out2 M) in *.
  assert (Hwab : well_formed rab) by (apply rule_well_formed, str_no_nul; reflexivity).
  assert (Hwabc : well_formed rabc) by (apply rule_well_formed, str_no_nul; reflexivity).
  assert (Hin : forall m, In m rules <-> m = rab \/ m = rabc).
  { intros m. destruct Hrules as [-> | ->]; cbn; intuition congruence. }
  assert (Hwf : Forall well_formed rules).
  { apply List.Forall_forall. intros m Hm. apply Hin in Hm as [-> | ->]; assumption. }
  assert (Hs0 : state_is s0 rules [] 0 md h)
    by (repeat split; cbn; intros; lia).
  (* the key [a] *)
  pose proof (copy_keys_is MAP_QUEUE_SIZE (str "a") s0 rules [] 0 md h Hs0
                ltac:(cbn; lia)) as Hs1.
  cbn [app] in Hs1. set (s1 := copy_keys (str "a") s0) in *.
  assert (Hrun1 : map_handle_keys (S fuel) (str "a") true s0 = Some (MAP_AMBIGUOUS, s1)).
  { unfold Map.map_handle_keys. fold s1.
    change (Z.of_nat (length (str "a")) =? 0) with false.
    apply (round_ambiguous CSI TERMCAP2KEY FLAG_NOMAP char_signed mode_handle_key
             fuel None s1 rules (str "a") md h rab Hs1);
      [discriminate | exact Hf | apply Hin; now left |].
    apply (ambiguous_candidate_is rab s1 rules _ _ _ _ Hs1 Hwab).
    split; [reflexivity|]. split; [now exists (str "b") | cbn; lia]. }
  (* the key [b] *)
  pose proof (copy_keys_is MAP_QUEUE_SIZE (str "b") s1 rules _ 0 md h Hs1
                ltac:(cbn; lia)) as Hs2.
  change (str "a" ++ str "b") with (str "ab") in Hs2.
  set (s2 := copy_keys (str "b") s1) in *.
  assert (Hrun2 : map_handle_keys (S fuel) (str "b") true s1 = Some (MAP_AMBIGUOUS, s2)).
  { unfold Map.map_handle_keys. fold s2.
    change (Z.of_nat (length (str "b")) =? 0) with false.
    apply (round_ambiguous CSI TERMCAP2KEY FLAG_NOMAP char_signed mode_handle_key
             fuel None s2 rules (str "ab") md h rabc Hs2);
      [discriminate | exact Hf | apply Hin; now right |].
    apply (ambiguous_candidate_is rabc s2 rules _ _ _ _ Hs2 Hwabc).
    split; [reflexivity|]. split; [now exists (str "c") | cbn; lia]. }
  (* the timeout: [ab] is the one exact candidate *)
  assert (Hexab : exact_candidate s2 rab).
  { apply (exact_candidate_is rab s2 rules _ _ _ _ Hs2 Hwab).
    split; reflexivity. }
  assert (Hfst : fst (find_maps true s2 rules None 0) = Some rab).
  { pose proof (find_maps_longest true s2 rules None 0 I) as H.
    destruct (fst (find_maps true s2 rules None 0)) as [m|].
    - destruct H as (He & [Hm|Hm] & _); [discriminate Hm|].
      apply Hin in Hm as [-> | ->]; [reflexivity|].
      apply (exact_candidate_is rabc s2 rules _ _ _ _ Hs2 Hwabc) in He as [_ He].
      apply prefix_length in He. cbn in He. lia.
    - destruct H as [_ H]. exfalso. apply (H rab); [apply Hin; now left | exact Hexab]. }
  assert (Hq2 : qlen s2 = 2) by (destruct Hs2 as (_ & [Hn _] & _); exact Hn).
  pose proof (replace_matched_is rab s2 rules _ _ md h Hs2
                ltac:(rewrite Hq2; cbn; lia) eq_refl Hnz) as Hs3.
  change (mapped rab ++ drop (Z.to_nat (inlen rab)) (str "ab")) with (out1 ++ []) in Hs3.
  rewrite app_nil_r in Hs3.
  assert (Hround : forall match_,
    resolve_keys (S (S (length out1 + fuel))) true true match_ s2 =
    resolve_keys (S (length out1 + fuel)) true true (Some rab) (replace_matched rab s2)).
  { intros match_.
    apply (round_match CSI TERMCAP2KEY FLAG_NOMAP char_signed mode_handle_key
             (S (length out1 + fuel)) true match_ s2 rules _ md h rab Hs2);
      [discriminate | exact Hf | now left | exact Hfst]. }
  exists s1, s2.
  split; [exact Hrun1|]. split; [apply holds_contents, Hs1|].
  split; [apply Hs1|]. split; [exact Hrun2|].
  split; [apply holds_contents, Hs2|]. split; [apply Hs2|].
  split.
  { unfold splice_fits. rewrite Hq2. change (inlen rab) with 2.
    change (mappedlen rab) with (Z.of_nat (length out1)).
    destruct out1; [congruence | cbn [length] in *; lia]. }
  split; [apply holds_contents, Hs3|].
  split.
  - (* one or two mapped keys: sent in the round behind the splice *)
    intros Hle.
    replace (Z.min (inlen rab) (mappedlen rab)) with (Z.of_nat (length out1)) in Hs3
      by (change (inlen rab) with 2;
          change (mappedlen rab) with (Z.of_nat (length out1)); lia).
    destruct (round_done CSI TERMCAP2KEY FLAG_NOMAP char_signed mode_handle_key
                (length out1 + fuel) true true (Some rab) _ rules _ md h Hs3 Hcsi)
      as (s3 & md' & rules' & Hrun3 & Hs4 & _).
    exists s3. split.
    + unfold Map.do_timeout, Map.map_handle_keys. cbn [Map.copy_keys length].
      change (Z.of_nat 0 =? 0) with true. rewrite Hround. exact Hrun3.
    + split; [apply holds_contents, Hs4 | apply Hs4].
  - (* more: two are resolved, the others follow one by one *)
    intros Hgt Hkeep Hagain.
    assert (Hs3' : state_is (replace_matched rab s2) rules (take 2 out1 ++ drop 2 out1)
                     (Z.of_nat (length (take 2 out1))) md h).
    { rewrite take_drop, length_take.
      replace (Z.of_nat (2 `min` length out1)) with (Z.min (inlen rab) (mappedlen rab))
        by (change (inlen rab) with 2;
            change (mappedlen rab) with (Z.of_nat (length out1)); lia).
      exact Hs3. }
    destruct (literal_rounds CSI TERMCAP2KEY FLAG_NOMAP char_signed mode_handle_key rules
                (drop 2 out1) (take 2 out1) (S (length out1 + fuel)) _ md h true
                (Some rab) Hs3' Hwf) as (s3 & md' & Hrun3 & Hs4).
    { rewrite take_drop. exact Hkeep. }
    { rewrite take_drop. exact Hcsi. }
    { intros t1 t2 m E Ht2 Hm Hpre. apply (Hagain t1 t2 E).
      apply Hin in Hm as [-> | ->]; [exact Hpre|].
      destruct Hpre as [x Hx]. exists (ch "c" :: x). rewrite Hx. reflexivity. }
    { rewrite length_drop. lia. }
    rewrite take_drop in Hs4.
    exists s3. split.
    + unfold Map.do_timeout, Map.map_handle_keys. cbn [Map.copy_keys length].
      change (Z.of_nat 0 =? 0) with true. rewrite Hround, Hrun3. f_equal. f_equal.
      destruct (drop 2 out1) eqn:Hd; [|reflexivity].
      apply (f_equal (@length Z)) in Hd. rewrite length_drop in Hd. cbn in Hd. lia.
    + split; [apply holds_contents, Hs4 | apply Hs4].
Qed.

End Scenarios.

(** *** The capacity of the queue *)

(** The parser of this section is one that leaves [map.list] alone. *)
Section Capacity.

Variable MAP_QUEUE_SIZE : Z.
Variable CSI : Z.
Variable TERMCAP2KEY : Z -> Z -> Z.
Variable FLAG_NOMAP : Z.
Variable char_signed : bool.
Variable mode_handle_key : list Z -> Mode -> Z -> Mode.

Local Abbreviation copy_keys := (copy_keys MAP_QUEUE_SIZE).
Local Abbreviation map_handle_keys :=
  (map_handle_keys MAP_QUEUE_SIZE CSI TERMCAP2KEY FLAG_NOMAP char_signed
     (leaves_maps mode_handle_key)).

(** C1. The splice does not look at the capacity of the queue.  With a map
    of [a] to two [b] more than the queue has room for, and a map of those
    to [c], the key [a] is replaced, one [b] is sent, and the call returns
    with one byte more in the queue than [MAP_QUEUE_SIZE], waiting for the
    ambiguity of the rest to be resolved. *)
Theorem splice_overflows_the_queue (fuel : nat) (M f : Z) (q : Z -> Z) (h : list Z) :
  1 <= MAP_QUEUE_SIZE -> CSI <> ch "b" -> Z.land f FLAG_NOMAP = 0 ->
  mode_handle_key h (nomap_cleared FLAG_NOMAP {| id := M; flags := f |}) (ch "b") =
    nomap_cleared FLAG_NOMAP {| id := M; flags := f |} ->
  let B := ch "b" :: ch "b" :: replicate (Z.to_nat MAP_QUEUE_SIZE) (ch "b") in
  let s0 := {| maps := [rule (str "a") B M; rule B (str "c") M]; queue := q;
               qlen := 0; resolved := 0; vb_mode := {| id := M; flags := f |};
               sent := h |} in
  qlen s0 <= MAP_QUEUE_SIZE /\
  exists s',
    map_handle_keys (S (S fuel)) (str "a") true s0 = Some (MAP_AMBIGUOUS, s') /\
    qlen s' = MAP_QUEUE_SIZE + 1 /\ MAP_QUEUE_SIZE < qlen s' /\
    sent s' = h ++ [ch "b"].
Proof.
  intros HN Hcsi Hf Hstay B s0. split; [cbn; lia|].
  set (md := {| id := M; flags := f |}) in *.
  set (r1 := rule (str "a") B M). set (r2 := rule B (str "c") M).
  set (rules := [r1; r2]).
  assert (HB : Forall (fun c => c <> 0) B).
  { repeat (constructor; [discriminate|]). apply Forall_replicate. discriminate. }
  assert (HlenB : length B = (2 + Z.to_nat MAP_QUEUE_SIZE)%nat)
    by (cbn; now rewrite length_replicate).
  assert (Hw1 : well_formed r1) by (apply rule_well_formed, str_no_nul; reflexivity).
  assert (Hw2 : well_formed r2) by (apply rule_well_formed, HB).
  assert (Hs0 : state_is s0 rules [] 0 md h)
    by (repeat split; cbn; intros; lia).
  pose proof (copy_keys_is MAP_QUEUE_SIZE (str "a") s0 rules [] 0 md h Hs0
                ltac:(cbn; lia)) as Hs1.
  cbn [app] in Hs1. set (s1 := copy_keys (str "a") s0) in *.
  unfold Map.map_handle_keys. fold s1.
  change (Z.of_nat (length (str "a")) =? 0) with false.
  (* the first round takes the map of [a] *)
  assert (Hex1 : exact_candidate s1 r1).
  { apply (exact_candidate_is r1 s1 rules _ _ _ _ Hs1 Hw1). split; reflexivity. }
  assert (Hfst : fst (find_maps false s1 rules None 0) = Some r1).
  { pose proof (find_maps_longest false s1 rules None 0 I) as H.
    destruct (fst (find_maps false s1 rules None 0)) as [m|].
    - destruct H as (He & [Hm|Hm] & _); [discriminate Hm|].
      destruct Hm as [<- | [<- | []]]; [reflexivity|].
      apply (exact_candidate_is r2 s1 rules _ _ _ _ Hs1 Hw2) in He as [_ He].
      apply prefix_length in He. cbn in He. lia.
    - destruct H as [_ H]. exfalso. apply (H r1); [now left | exact Hex1]. }
  rewrite (round_match CSI TERMCAP2KEY FLAG_NOMAP char_signed (leaves_maps mode_handle_key)
             (S fuel) false None s1 rules _ md h r1 Hs1);
    [| discriminate | exact Hf | | exact Hfst].
  2:{ right. intros m [<- | [<- | []]] Hamb.
      - apply (ambiguous_candidate_is r1 s1 rules _ _ _ _ Hs1 Hw1) in Hamb
          as (_ & _ & Hlt). cbn in Hlt. lia.
      - apply (ambiguous_candidate_is r2 s1 rules _ _ _ _ Hs1 Hw2) in Hamb
          as (_ & [x Hpre] & _). discriminate Hpre. }
  (* the splice makes the queue two bytes longer than its capacity *)
  assert (Hq1 : qlen s1 = 1) by (destruct Hs1 as (_ & [Hn _] & _); exact Hn).
  pose proof (replace_matched_is r1 s1 rules _ _ md h Hs1
                ltac:(rewrite Hq1; cbn; lia) eq_refl HB) as Hs2.
  change (mapped r1 ++ drop (Z.to_nat (inlen r1)) (str "a")) with (B ++ []) in Hs2.
  rewrite app_nil_r in Hs2.
  replace (Z.min (inlen r1) (mappedlen r1)) with 1 in Hs2
    by (change (inlen r1) with 1; change (mappedlen r1) with (Z.of_nat (length B)); lia).
  set (s2 := replace_matched r1 s1) in *.
  (* one [b] is sent, the others are the beginning of the second map *)
  assert (Hq2 : qlen s2 = MAP_QUEUE_SIZE + 2)
    by (destruct Hs2 as (_ & [Hn _] & _); rewrite Hn, HlenB; lia).
  pose proof (send_key_is CSI TERMCAP2KEY FLAG_NOMAP char_signed (leaves_maps mode_handle_key) s2 rules
                (ch "b") (ch "b" :: replicate (Z.to_nat MAP_QUEUE_SIZE) (ch "b"))
                1 md h Hs2) as Hs3.
  assert (Hb : (Z.land (ch "b") 255 =? CSI) = false)
    by (apply Z.eqb_neq; change (Z.land (ch "b") 255) with (ch "b"); congruence).
  rewrite Hb in Hs3. specialize (Hs3 eq_refl).
  change (int_of_char char_signed (ch "b")) with (ch "b") in Hs3.
  change (snd (leaves_maps mode_handle_key h (nomap_cleared FLAG_NOMAP md) rules
                 (ch "b"))) with rules in Hs3.
  change (fst (leaves_maps mode_handle_key h (nomap_cleared FLAG_NOMAP md) rules
                 (ch "b")))
    with (mode_handle_key h (nomap_cleared FLAG_NOMAP md) (ch "b")) in Hs3.
  rewrite Hstay in Hs3.
  change (1 - 1) with 0 in Hs3.
  set (s3 := Map.send_key CSI TERMCAP2KEY FLAG_NOMAP char_signed (leaves_maps mode_handle_key) s2) in *.
  assert (Hsend : Map.send_resolved CSI TERMCAP2KEY FLAG_NOMAP char_signed (leaves_maps mode_handle_key)
                    (Z.to_nat (resolved s2)) s2 = s3).
  { pose proof Hs2 as (_ & _ & Hr2 & _). rewrite Hr2.
    change (Z.to_nat 1) with 1%nat.
    rewrite send_resolved_one by (rewrite Hr2; lia). reflexivity. }
  assert (Hq3 : qlen s3 = MAP_QUEUE_SIZE + 1).
  { destruct Hs3 as (_ & [Hn _] & _). rewrite Hn. cbn [length].
    rewrite length_replicate. lia. }
  exists s3. split; [|split; [exact Hq3 | split; [lia | apply Hs3]]].
  pose proof (resolve_keys_ambiguous CSI TERMCAP2KEY FLAG_NOMAP char_signed (leaves_maps mode_handle_key)
                fuel false (Some r1) s2) as Hamb.
  cbn zeta in Hamb. rewrite Hsend in Hamb. apply Hamb.
  - lia.
  - destruct Hs3 as (_ & _ & _ & -> & _). apply nomap_cleared_flag.
  - pose proof Hs3 as (Hm3 & _). rewrite Hm3.
    pose proof (find_maps_is_ambiguous false s3 rules None 0 r2 eq_refl
                  ltac:(right; now left)) as Hlt.
    assert (Ha : ambiguous_candidate s3 r2); [|specialize (Hlt Ha); lia].
    apply (ambiguous_candidate_is r2 s3 rules _ _ _ _ Hs3 Hw2).
    split; [reflexivity|]. split.
    + exists [ch "b"]. unfold r2, B. cbn [in_ rule app]. f_equal.
      apply replicate_cons_app.
    + cbn. rewrite length_replicate. lia.
Qed.
End Capacity.

(** *** The theorems at vimb's constants *)

Lemma splice_overflows_the_queue_witness :
  let B := ch "b" :: ch "b" :: replicate (Z.to_nat Vimb.MAP_QUEUE_SIZE) (ch "b") in
  let s0 := Vimb.start [rule (str "a") B (ch "n"); rule B (str "c") (ch "n")] in
  qlen s0 <= Vimb.MAP_QUEUE_SIZE /\
  exists s',
    map_handle_keys Vimb.MAP_QUEUE_SIZE Vimb.CSI Vimb.TERMCAP2KEY Vimb.FLAG_NOMAP Vimb.char_signed
      Vimb.mode_handle_key 2 (str "a") true s0 = Some (MAP_AMBIGUOUS, s') /\
    qlen s' = Vimb.MAP_QUEUE_SIZE + 1 /\ Vimb.MAP_QUEUE_SIZE < qlen s' /\
    sent s' = [] ++ [ch "b"].
Proof.
  apply (splice_overflows_the_queue Vimb.MAP_QUEUE_SIZE Vimb.CSI Vimb.TERMCAP2KEY
           Vimb.FLAG_NOMAP Vimb.char_signed Vimb.stays 0 (ch "n") 0 (fun _ => 0) []).
  - unfold Vimb.MAP_QUEUE_SIZE. lia.
  - discriminate.
  - reflexivity.
  - reflexivity.
Defined.

Lemma ambiguous_waits_and_timeout_takes_ab_witness :
  let rules := map_insert Vimb.CSI (str "abc") (str "Y") (ch "n")
                 (map_insert Vimb.CSI (str "ab") (str "X") (ch "n") []) in
  exists s1 s2,
    map_handle_keys Vimb.MAP_QUEUE_SIZE Vimb.CSI Vimb.TERMCAP2KEY Vimb.FLAG_NOMAP
      Vimb.char_signed Vimb.mode_handle_key 1 (str "a") true (Vimb.start rules) =
      Some (MAP_AMBIGUOUS, s1) /\
    contents s1 = str "a" /\ sent s1 = [] /\
    map_handle_keys Vimb.MAP_QUEUE_SIZE Vimb.CSI Vimb.TERMCAP2KEY Vimb.FLAG_NOMAP
      Vimb.char_signed Vimb.mode_handle_key 1 (str "b") true s1 =
      Some (MAP_AMBIGUOUS, s2) /\
    contents s2 = str "ab" /\ sent s2 = [] /\
    splice_fits Vimb.MAP_QUEUE_SIZE (rule (str "ab") (str "X") (ch "n")) s2 /\
    contents (replace_matched (rule (str "ab") (str "X") (ch "n")) s2) = str "X" /\
    ((length (str "X") <= 2)%nat ->
     exists s3,
       do_timeout Vimb.MAP_QUEUE_SIZE Vimb.CSI Vimb.TERMCAP2KEY Vimb.FLAG_NOMAP
         Vimb.char_signed Vimb.mode_handle_key (S (S (length (str "X") + 0))) s2 =
         Some (MAP_DONE, s3) /\
       contents s3 = [] /\ sent s3 = [] ++ map (int_of_char Vimb.char_signed) (str "X")) /\
    ((2 < length (str "X"))%nat ->
     keeps_maps Vimb.mode_handle_key rules (map (int_of_char Vimb.char_signed) (str "X")) ->
     (forall t1 t2, drop 2 (str "X") = t1 ++ t2 -> ~ str "ab" `prefix_of` t2) ->
     exists s3,
       do_timeout Vimb.MAP_QUEUE_SIZE Vimb.CSI Vimb.TERMCAP2KEY Vimb.FLAG_NOMAP
         Vimb.char_signed Vimb.mode_handle_key (S (S (length (str "X") + 0))) s2 =
         Some (MAP_NOMATCH, s3) /\
       contents s3 = [] /\ sent s3 = [] ++ map (int_of_char Vimb.char_signed) (str "X")).
Proof.
  apply (ambiguous_waits_and_timeout_takes_ab Vimb.MAP_QUEUE_SIZE Vimb.CSI
           Vimb.TERMCAP2KEY Vimb.FLAG_NOMAP Vimb.char_signed Vimb.mode_handle_key
           0 (ch "n") 0 (fun _ => 0) [] (str "X") (str "Y")).
  - unfold Vimb.MAP_QUEUE_SIZE. lia.
  - reflexivity.
  - discriminate.
  - repeat constructor; discriminate.
  - repeat constructor; discriminate.
  - now vm_compute.
  - intros p1 c p2 E. right. apply (f_equal (@length Z)) in E.
    rewrite length_app in E. cbn in E. lia.
  - right. reflexivity.
Defined.

(** The timeout at a map of [ab] to three keys: two are sent behind the
    splice, the third in a round of its own, and the result is
    [MAP_NOMATCH]. *)
Example timeout_sends_longer_output :
  let rules := map_insert Vimb.CSI (str "abc") (str "Y") (ch "n")
                 (map_insert Vimb.CSI (str "ab") (str "xyz") (ch "n") []) in
  let s2 := copy_keys Vimb.MAP_QUEUE_SIZE (str "ab") (Vimb.start rules) in
  exists s3,
    do_timeout Vimb.MAP_QUEUE_SIZE Vimb.CSI Vimb.TERMCAP2KEY Vimb.FLAG_NOMAP
      Vimb.char_signed Vimb.mode_handle_key 4 s2 = Some (MAP_NOMATCH, s3) /\
    contents s3 = [] /\ sent s3 = str "xyz".
Proof. cbv zeta. eexists. split; [reflexivity|]. split; reflexivity. Qed.

Lemma longest_exact_candidate_is_taken_witness :
  let rules := map_insert Vimb.CSI (str "gg") (str "Y") (ch "n")
                 (map_insert Vimb.CSI (str "g") (str "X") (ch "n") []) in
  let s := copy_keys Vimb.MAP_QUEUE_SIZE (str "gg") (Vimb.start rules) in
  exists m,
    fst (find_maps false s rules None 0) = Some m /\ In m rules /\
    exact_candidate s m /\
    (forall m', In m' rules -> exact_candidate s m' -> inlen m' <= inlen m) /\
    (forall l', Permutation rules l' ->
       exists m', fst (find_maps false s l' None 0) = Some m' /\
         inlen m' = inlen m /\
         (well_formed m -> well_formed m' -> in_ m' = in_ m)).
Proof.
  intros rules s.
  apply (proj1 (longest_exact_candidate_is_taken Vimb.MAP_QUEUE_SIZE Vimb.CSI
                  Vimb.TERMCAP2KEY Vimb.FLAG_NOMAP Vimb.char_signed Vimb.mode_handle_key
                  false s rules (rule (str "gg") (str "Y") (ch "n"))
                  ltac:(left; reflexivity)
                  ltac:(split; [reflexivity|split; [vm_compute; discriminate | reflexivity]]))).
Defined.

End MapFacts.

(** * Further properties of the two files *)

(** ** Key events and key labels *)

Module KeyFacts.
Import CFacts Map MapFacts.

(** *** utf_char2bytes *)

Lemma shiftr_div (c : Z) (n : Z) : 0 <= n -> Z.shiftr c n = c / 2 ^ n.
Proof. intros. now apply Z.shiftr_div_pow2. Qed.

Lemma land_3f (c : Z) : Z.land c 0x3f = c mod 64.
Proof. change 0x3f with (Z.ones 6). now rewrite Z.land_ones. Qed.

Ltac utf_arith :=
  rewrite ?land_3f, ?shiftr_div by lia;
  change (2 ^ 6) with 64 in *; change (2 ^ 12) with 4096 in *;
  change (2 ^ 18) with 262144 in *; change (2 ^ 24) with 16777216 in *;
  change (2 ^ 30) with 1073741824 in *.

(** X1. For a character below [2 ^ 31], [utf_char2bytes] writes UTF-8: one
    byte, the character itself, below 0x80; otherwise two to six bytes by the
    range of the character, a first byte from 0xc0 to 0xfd and every other
    byte from 0x80 to 0xbf. *)
Theorem utf_char2bytes_is_utf8 (c : Z) :
  0 <= c < 2 ^ 31 ->
  let b := utf_char2bytes c in
  Z.of_nat (length b) =
    (if c <? 0x80 then 1 else if c <? 0x800 then 2 else if c <? 0x10000 then 3
     else if c <? 0x200000 then 4 else if c <? 0x4000000 then 5 else 6) /\
  (c < 0x80 -> b = [c]) /\
  (0x80 <= c -> 0xc0 <= hd 0 b <= 0xfd) /\
  Forall (fun x => 0x80 <= x <= 0xbf) (tl b).
Proof.
  intros Hc b. subst b. unfold utf_char2bytes.
  repeat match goal with
         | |- context [?a <? ?b] => destruct (Z.ltb_spec a b)
         end; cbn [length hd tl]; utf_arith;
  (split; [reflexivity|]); (split; [intros; try reflexivity; lia|]);
  (split; [intros ?; Z.div_mod_to_equations; lia|]);
  repeat constructor; Z.div_mod_to_equations; lia.
Qed.

Lemma utf_char2bytes_is_utf8_witness :
  let b := utf_char2bytes 0x20ac in
  Z.of_nat (length b) = 3 /\
  (0x20ac < 0x80 -> b = [0x20ac]) /\
  (0x80 <= 0x20ac -> 0xc0 <= hd 0 b <= 0xfd) /\
  Forall (fun x => 0x80 <= x <= 0xbf) (tl b).
Proof. apply (utf_char2bytes_is_utf8 0x20ac). lia. Defined.

(** X2. Two characters that [utf_char2bytes] writes with the same bytes are
    the same character. *)
Theorem utf_char2bytes_injective (c1 c2 : Z) :
  0 <= c1 < 2 ^ 32 -> 0 <= c2 < 2 ^ 32 ->
  utf_char2bytes c1 = utf_char2bytes c2 -> c1 = c2.
Proof.
  intros H1 H2. unfold utf_char2bytes.
  repeat match goal with
         | |- context [?a <? ?b] => destruct (Z.ltb_spec a b)
         end; intros E; try discriminate E; utf_arith;
  revert E; utf_arith; intros E; inversion E; Z.div_mod_to_equations; lia.
Qed.

Lemma utf_char2bytes_injective_witness :
  utf_char2bytes 0xe9 = [0xc3; 0xa9] /\ 0xe9 = 0xc0 + 0x29.
Proof.
  split; [reflexivity|].
  apply (utf_char2bytes_injective 0xe9 (0xc0 + 0x29)); [lia | lia | reflexivity].
Defined.

(** *** convert_keys *)

Lemma search_gt_bounds (fuel : nat) : forall p symlen,
  (symlen <= length p)%nat ->
  (symlen <= search_gt fuel p symlen <= length p)%nat.
Proof.
  induction fuel as [|fuel IH]; intros p symlen H; cbn [search_gt]; [lia|].
  destruct (p !! symlen) as [c|] eqn:E; [|lia].
  apply lookup_lt_Some in E.
  destruct (_ || _); [lia|]. destruct (negb _); [|lia].
  specialize (IH p (S symlen) ltac:(lia)). lia.
Qed.

Lemma keys_raw (CSI : Z) :
  CSI <> 0 ->
  Forall (fun e => let '(_, _, c, chlen) := e in
            chlen = Z.of_nat (length c) /\ 0 < chlen /\ Forall (fun x => x <> 0) c)
         (keys CSI).
Proof.
  intros H. unfold keys.
  repeat (constructor; [split; [reflexivity|split; [reflexivity|
    repeat (constructor; [first [exact H | discriminate]|]); constructor]]|]).
  constructor.
Qed.

Lemma convert_keylabel_loop_raw tbl p inlen raw rawlen :
  Forall (fun e => let '(_, _, c, chlen) := e in
            chlen = Z.of_nat (length c) /\ 0 < chlen /\ Forall (fun x => x <> 0) c) tbl ->
  convert_keylabel_loop tbl p inlen = (raw, rawlen) ->
  (raw = None /\ rawlen = 0) \/
  exists c, raw = Some c /\ rawlen = Z.of_nat (length c) /\ 0 < rawlen /\
            Forall (fun x => x <> 0) c.
Proof.
  induction 1 as [|[[[label len] c] chlen] tbl (H1 & H2 & H3) _ IH];
    cbn [convert_keylabel_loop]; intros E.
  - inversion E. now left.
  - destruct (_ && _); [|now apply IH].
    inversion E; subst. right. now exists c.
Qed.

(** One label: it takes a byte or more of the input and gives a byte or
    more, [rawlen] is the number of the bytes of [raw], and no NUL is made. *)
Lemma convert_one_raw (CSI : Z) (p : list Z) symlen raw rawlen :
  CSI <> 0 -> p <> [] ->
  convert_one CSI p = (symlen, raw, rawlen) ->
  (1 <= symlen <= length p)%nat /\ rawlen = Z.of_nat (length raw) /\ 0 < rawlen /\
  (Forall (fun c => c <> 0) p -> Forall (fun c => c <> 0) raw).
Proof.
  intros HCSI Hp. unfold convert_one.
  assert (Hb := search_gt_bounds (length p) p 1
                  ltac:(destruct p; [congruence | cbn; lia])).
  set (n := search_gt (length p) p 1) in *.
  assert (Hlit : (1 <= n <= length p)%nat /\
                 Z.of_nat n = Z.of_nat (length (take n p)) /\ 0 < Z.of_nat n /\
                 (Forall (fun c => c <> 0) p -> Forall (fun c => c <> 0) (take n p))).
  { split; [lia|]. split; [rewrite length_take; lia|]. split; [lia|].
    intros H. now apply Forall_take. }
  destruct (cstr p (Z.of_nat n - 1) =? ch ">").
  2:{ cbn [Z.eqb]. intros E. inversion E; subst. exact Hlit. }
  lazymatch goal with
  | |- match ?X with pair _ _ => _ end = _ -> _ =>
    destruct X as [raw1 rawlen1] eqn:E1
  end.
  assert (H1 : (raw1 = None /\ rawlen1 = 0) \/
               exists c, raw1 = Some c /\ rawlen1 = Z.of_nat (length c) /\ 0 < rawlen1 /\
                         Forall (fun x => x <> 0) c).
  { destruct ((Z.of_nat n =? 5) && _).
    - destruct (cstr p 1 =? ch "C").
      + destruct ((65 <=? cstr p 3) && (cstr p 3 <=? 93)) eqn:Hr.
        * cbv beta iota zeta delta [Z.eqb Pos.eqb] in E1. inversion E1; subst. right. eexists. split; [reflexivity|].
          split; [reflexivity|]. split; [lia|]. constructor; [|constructor].
          apply andb_prop in Hr as [Hr _]. apply Z.leb_le in Hr. lia.
        * destruct ((97 <=? cstr p 3) && (cstr p 3 <=? 122)) eqn:Hr'.
          -- cbv beta iota zeta delta [Z.eqb Pos.eqb] in E1. inversion E1; subst. right. eexists. split; [reflexivity|].
             split; [reflexivity|]. split; [lia|]. constructor; [|constructor].
             apply andb_prop in Hr' as [Hr' _]. apply Z.leb_le in Hr'. lia.
          -- cbv beta iota zeta delta [Z.eqb Pos.eqb] in E1. apply (convert_keylabel_loop_raw _ _ _ _ _ (keys_raw CSI HCSI) E1).
      + cbv beta iota zeta delta [Z.eqb Pos.eqb] in E1. apply (convert_keylabel_loop_raw _ _ _ _ _ (keys_raw CSI HCSI) E1).
    - cbv beta iota zeta delta [Z.eqb Pos.eqb] in E1. apply (convert_keylabel_loop_raw _ _ _ _ _ (keys_raw CSI HCSI) E1). }
  destruct H1 as [[-> ->] | (c & -> & -> & Hpos & Hc)].
  - cbn [Z.eqb]. intros E. inversion E; subst. exact Hlit.
  - destruct (Z.eqb_spec (Z.of_nat (length c)) 0); [lia|].
    intros E. inversion E; subst. cbn [default].
    rewrite Nat2Z.id, firstn_all. split; [lia|]. split; [reflexivity|].
    split; [exact Hpos|]. intros _. exact Hc.
Qed.

(** The loop of [convert_keys] keeps [*len] the length of the buffer, makes
    no NUL and appends a byte or more for every round it runs. *)
Lemma convert_keys_loop_raw (CSI : Z) (fuel : nat) : forall p dest len d n,
  CSI <> 0 ->
  convert_keys_loop CSI fuel p dest len = (d, n) ->
  len = Z.of_nat (length dest) ->
  n = Z.of_nat (length d) /\ (length dest <= length d)%nat /\
  (fuel <> O -> p <> [] -> (length dest < length d)%nat) /\
  (Forall (fun c => c <> 0) dest -> Forall (fun c => c <> 0) p ->
   Forall (fun c => c <> 0) d).
Proof.
  induction fuel as [|fuel IH]; intros p dest len d n HCSI E Hlen;
    cbn [convert_keys_loop] in E.
  - inversion E; subst. repeat split; [lia | congruence | auto].
  - destruct p as [|c p].
    { inversion E; subst. repeat split; [lia | congruence | auto]. }
    destruct (negb (c =? ch "<")).
    + apply IH in E; [|exact HCSI|rewrite length_app; cbn; lia].
      destruct E as (E1 & E2 & _ & E4). rewrite length_app in E2. cbn in E2.
      repeat split; [exact E1 | lia | intros; lia |].
      intros Hd Hp. inversion Hp; subst. apply E4; [|assumption].
      apply Forall_app. split; [assumption | now repeat constructor].
    + destruct (convert_one CSI (c :: p)) as [[symlen raw] rawlen] eqn:E1.
      apply convert_one_raw in E1 as (Hs & Hr & Hpos & Hnz); [|exact HCSI|discriminate].
      apply IH in E; [|exact HCSI|rewrite length_app; lia].
      destruct E as (E2 & E3 & _ & E4). rewrite length_app in E3.
      repeat split; [exact E2 | lia | intros; lia |].
      intros Hd Hp. apply E4.
      * apply Forall_app. split; [assumption | now apply Hnz].
      * now apply Forall_drop.
Qed.

Lemma take_strlen_no_nul (l : list Z) :
  Forall (fun c => c <> 0) (take (Z.to_nat (strlen l)) l).
Proof.
  induction l as [|c l IH]; cbn [strlen]; [constructor|].
  destruct (Z.eqb_spec c 0); [constructor|].
  assert (0 <= strlen l).
  { clear. induction l as [|c l IH]; cbn; [lia|]. destruct (c =? 0); lia. }
  replace (Z.to_nat (1 + strlen l)) with (S (Z.to_nat (strlen l))) by lia.
  cbn [take]. now constructor.
Qed.

Lemma take_strlen_nil (l : list Z) :
  hd 0 l <> 0 -> take (Z.to_nat (strlen l)) l <> [].
Proof.
  destruct l as [|c l]; cbn [hd strlen]; [congruence|]. intros H.
  destruct (Z.eqb_spec c 0); [contradiction|].
  assert (0 <= strlen l).
  { clear. induction l as [|c l IH]; cbn; [lia|]. destruct (c =? 0); lia. }
  replace (Z.to_nat (1 + strlen l)) with (S (Z.to_nat (strlen l))) by lia.
  discriminate.
Qed.

(** [convert_keys] on a string. *)
Lemma convert_keys_raw (CSI : Z) (i : list Z) :
  CSI <> 0 -> Forall (fun c => c <> 0) i ->
  snd (convert_keys CSI i) = Z.of_nat (length (fst (convert_keys CSI i))) /\
  Forall (fun c => c <> 0) (fst (convert_keys CSI i)) /\
  (i <> [] -> fst (convert_keys CSI i) <> []).
Proof.
  intros HCSI Hi. unfold convert_keys.
  destruct (convert_keys_loop CSI (length i) i [] 0) as [d n] eqn:E.
  apply convert_keys_loop_raw in E as (E1 & _ & E3 & E4); [|exact HCSI|reflexivity].
  cbn [fst snd]. split; [exact E1|]. split; [now apply E4|].
  intros Hne. assert (length i <> O) by (destruct i; [congruence | discriminate]).
  specialize (E3 H Hne). destruct d; [cbn in E3; lia | discriminate].
Qed.

(** X3. Every map that [map_insert] puts into [map.list] has the lengths
    of its two key sequences in [inlen] and [mappedlen], no NUL in either of
    them, and a byte or more in each when the strings given are not empty. *)
Theorem map_insert_well_formed (CSI : Z) (i o : list Z) (M : Z) (l : list Map) :
  CSI <> 0 ->
  exists m, map_insert CSI i o M l = m :: l /\ mode m = M /\
    well_formed m /\
    mappedlen m = Z.of_nat (length (mapped m)) /\
    Forall (fun c => c <> 0) (mapped m) /\
    (hd 0 i <> 0 -> 0 < inlen m) /\ (hd 0 o <> 0 -> 0 < mappedlen m).
Proof.
  intros HCSI. unfold map_insert.
  pose proof (convert_keys_raw CSI _ HCSI (take_strlen_no_nul i)) as (I1 & I2 & I3).
  pose proof (convert_keys_raw CSI _ HCSI (take_strlen_no_nul o)) as (O1 & O2 & O3).
  destruct (convert_keys CSI (take (Z.to_nat (strlen i)) i)) as [lhs inlen].
  destruct (convert_keys CSI (take (Z.to_nat (strlen o)) o)) as [rhs mappedlen].
  cbn [fst snd] in *. eexists. split; [reflexivity|]. cbn.
  split; [reflexivity|]. split; [split; assumption|].
  split; [assumption|]. split; [assumption|]. split.
  - intros H. apply take_strlen_nil in H. apply I3 in H.
    destruct lhs; [congruence | cbn in I1; lia].
  - intros H. apply take_strlen_nil in H. apply O3 in H.
    destruct rhs; [congruence | cbn in O1; lia].
Qed.

Lemma map_insert_well_formed_witness :
  exists m, map_insert Vimb.CSI (str "<C-a>x") (str "<Up>") (ch "n") [] = m :: [] /\
    mode m = ch "n" /\ well_formed m /\
    mappedlen m = Z.of_nat (length (mapped m)) /\
    Forall (fun c => c <> 0) (mapped m) /\
    (hd 0 (str "<C-a>x") <> 0 -> 0 < inlen m) /\
    (hd 0 (str "<Up>") <> 0 -> 0 < mappedlen m).
Proof. apply (map_insert_well_formed Vimb.CSI). discriminate. Defined.

Lemma convert_keys_loop_acc (CSI : Z) (fuel : nat) : forall p dest len,
  convert_keys_loop CSI fuel p dest len =
  (dest ++ fst (convert_keys_loop CSI fuel p [] 0),
   len + snd (convert_keys_loop CSI fuel p [] 0)).
Proof.
  induction fuel as [|fuel IH]; intros p dest len; cbn [convert_keys_loop].
  - cbn. now rewrite app_nil_r, Z.add_0_r.
  - destruct p as [|c p]; [cbn; now rewrite app_nil_r, Z.add_0_r|].
    destruct (negb _).
    + rewrite (IH p (dest ++ [c])), (IH p ([] ++ [c])). cbn [fst snd app].
      rewrite <- app_assoc. f_equal. lia.
    + destruct (convert_one CSI (c :: p)) as [[symlen raw] rawlen].
      rewrite (IH _ (dest ++ raw)), (IH _ ([] ++ raw)). cbn [fst snd app].
      rewrite <- app_assoc. f_equal. lia.
Qed.

(** [symlen] is what the search for the [>] gives. *)
Lemma convert_one_symlen (CSI : Z) (p : list Z) :
  fst (fst (convert_one CSI p)) = search_gt (length p) p 1.
Proof.
  unfold convert_one.
  lazymatch goal with
  | |- fst (fst (match ?X with pair _ _ => _ end)) = _ => destruct X as [r l]
  end.
  now destruct (l =? 0).
Qed.

(** More fuel than the bytes of the input changes nothing. *)
Lemma convert_keys_loop_fuel (CSI : Z) (fuel : nat) : forall p dest len fuel',
  (length p <= fuel)%nat -> (length p <= fuel')%nat ->
  convert_keys_loop CSI fuel p dest len = convert_keys_loop CSI fuel' p dest len.
Proof.
  induction fuel as [|fuel IH]; intros p dest len fuel' H H'.
  - destruct p; [|cbn in H; lia]. now destruct fuel'.
  - destruct p as [|c p]; [now destruct fuel'|].
    destruct fuel' as [|fuel']; [cbn in H'; lia|]. cbn [convert_keys_loop].
    cbn [length] in H, H'.
    destruct (negb _); [apply IH; lia|].
    destruct (convert_one CSI (c :: p)) as [[symlen raw] rawlen] eqn:E.
    assert ((1 <= symlen)%nat).
    { pose proof (convert_one_symlen CSI (c :: p)) as Hs. rewrite E in Hs.
      cbn [fst] in Hs. rewrite Hs.
      apply (search_gt_bounds (length (c :: p)) (c :: p) 1). cbn. lia. }
    apply IH; rewrite length_drop; cbn [length]; lia.
Qed.

(** X4. Bytes before the first [<] are taken as they are, and the
    conversion of the rest does not depend on them. *)
Theorem convert_keys_plain_prefix (CSI : Z) (a b : list Z) :
  Forall (fun c => c <> ch "<") a ->
  convert_keys CSI (a ++ b) =
  (a ++ fst (convert_keys CSI b), Z.of_nat (length a) + snd (convert_keys CSI b)).
Proof.
  intros Ha. unfold convert_keys. rewrite length_app.
  assert (H : forall fuel dest len, (length a + length b <= fuel)%nat ->
    convert_keys_loop CSI fuel (a ++ b) dest len =
    convert_keys_loop CSI (length b) b (dest ++ a) (len + Z.of_nat (length a))).
  { induction Ha as [|c a Hc _ IH]; intros fuel dest len Hf.
    - cbn [app length]. rewrite app_nil_r, Z.add_0_r.
      apply convert_keys_loop_fuel; cbn in Hf; lia.
    - destruct fuel as [|fuel]; [cbn in Hf; lia|]. cbn [app convert_keys_loop].
      destruct (Z.eqb_spec c (ch "<")); [contradiction|]. cbn [negb].
      rewrite IH by (cbn in Hf; lia). rewrite <- app_assoc. cbn [app length].
      f_equal. lia. }
  rewrite H by lia. cbn [app]. rewrite convert_keys_loop_acc. cbn. reflexivity.
Qed.

Lemma convert_keys_plain_prefix_witness :
  convert_keys Vimb.CSI (str "gg" ++ str "<CR>") =
  (str "gg" ++ fst (convert_keys Vimb.CSI (str "<CR>")),
   Z.of_nat (length (str "gg")) + snd (convert_keys Vimb.CSI (str "<CR>"))).
Proof.
  apply (convert_keys_plain_prefix Vimb.CSI (str "gg") (str "<CR>")).
  repeat constructor; discriminate.
Defined.

(** *** Labels and key events *)

Section Labels.
Variable CSI : Z.
Variables KEY_TAB KEY_NL KEY_CR KEY_ESC KEY_BS : Z.
Variable gdk_keyval_to_unicode : Z -> Z.

Local Abbreviation keypress_string :=
  (keypress_string CSI KEY_TAB KEY_NL KEY_CR KEY_ESC KEY_BS gdk_keyval_to_unicode).
Local Abbreviation keyval_to_string :=
  (keyval_to_string KEY_TAB KEY_NL KEY_CR KEY_ESC KEY_BS gdk_keyval_to_unicode).

(** X5. Every label of the table of [convert_keylabel] is converted by
    [convert_keys] to the raw keys of its entry. *)
Theorem convert_keys_knows_every_label :
  Forall (fun e => let '(label, _, c, chlen) := e in
            convert_keys CSI label = (c, chlen)) (keys CSI).
Proof. unfold keys. repeat constructor. Qed.

(** X6. [<C-X>] is a label exactly for the bytes X from 0x41 to 0x5d and
    from 0x61 to 0x7a, and stands for X less 0x40 and less 0x60; for every
    other byte the five bytes stay as they are written. *)
Theorem ctrl_label_range (X : Z) :
  convert_keys CSI (str "<C-" ++ [X] ++ str ">") =
  if (0x41 <=? X) && (X <=? 0x5d) then ([X - 0x40], 1)
  else if (0x61 <=? X) && (X <=? 0x7a) then ([X - 0x60], 1)
  else (str "<C-" ++ [X] ++ str ">", 5).
Proof.
  destruct (Z.eq_dec X (ch "<")) as [->|H1]; [reflexivity|].
  destruct (Z.eq_dec X (ch " ")) as [->|H2]; [reflexivity|].
  destruct (Z.eq_dec X (ch ">")) as [->|H3]; [reflexivity|].
  unfold convert_keys. cbn [app str map list_ascii_of_string length convert_keys_loop].
  change (ch "<" =? ch "<") with true. cbn [negb].
  assert (Hs : search_gt 5 (ch "<" :: ch "C" :: ch "-" :: X :: [ch ">"]) 1 = 5%nat).
  { cbn [search_gt lookup list_lookup]. cbn -[Z.eqb ch].
    change (ch "C" =? ch "<") with false. change (ch "C" =? ch " ") with false.
    change (ch "C" =? ch ">") with false.
    change (ch "-" =? ch "<") with false. change (ch "-" =? ch " ") with false.
    change (ch "-" =? ch ">") with false. cbn [orb negb].
    destruct (Z.eqb_spec X (ch "<")); [contradiction|].
    destruct (Z.eqb_spec X (ch " ")); [contradiction|].
    destruct (Z.eqb_spec X (ch ">")); [contradiction|]. reflexivity. }
  unfold convert_one. cbn [length]. rewrite Hs.
  change (cstr _ (Z.of_nat 5 - 1)) with (ch ">").
  change (cstr (ch "<" :: ch "C" :: ch "-" :: X :: [ch ">"]) 1) with (ch "C").
  change (cstr (ch "<" :: ch "C" :: ch "-" :: X :: [ch ">"]) 2) with (ch "-").
  change (cstr (ch "<" :: ch "C" :: ch "-" :: X :: [ch ">"]) 3) with X.
  change (ch ">" =? ch ">") with true. change (Z.of_nat 5 =? 5) with true.
  change (ch "-" =? ch "-") with true. change (ch "C" =? ch "C") with true.
  cbn [andb].
  destruct ((65 <=? X) && (X <=? 93)); [reflexivity|].
  destruct ((97 <=? X) && (X <=? 122)); [reflexivity|].
  reflexivity.
Qed.


Lemma utf_char2bytes_not_nil (c : Z) : utf_char2bytes c <> [].
Proof.
  unfold utf_char2bytes.
  repeat match goal with |- context [?a <? ?b] => destruct (a <? b) end; discriminate.
Qed.

(** [keyval_to_string] gives no byte exactly for a key that is none of the
    named control keys and has no character. *)
Lemma keyval_to_string_nil (keyval state : Z) :
  keyval_to_string keyval state = [] <->
  gdk_keyval_to_unicode keyval = 0 /\
  ~ In keyval [GDK_Tab; GDK_KP_Tab; GDK_ISO_Left_Tab; GDK_Linefeed; GDK_Return;
               GDK_ISO_Enter; GDK_3270_Enter; GDK_Escape; GDK_BackSpace].
Proof.
  unfold Map.keyval_to_string.
  repeat match goal with
         | |- context [keyval =? ?k] =>
           destruct (Z.eqb_spec keyval k) as [->|?];
           [split; [discriminate | intros [_ H]; exfalso; apply H;
                    repeat (first [left; reflexivity | right])]|]
         end; cbn [orb].
  destruct (Z.eqb_spec (gdk_keyval_to_unicode keyval) 0) as [E|E]; cbn [negb].
  - split; [intros _; split; [exact E | cbn [In]; intuition congruence] | reflexivity].
  - split; [|tauto].
    destruct (_ && _).
    + destruct (_ <=? _); [discriminate|]. destruct (_ =? _); discriminate.
    + intros H. now apply utf_char2bytes_not_nil in H.
Qed.

(** X7. [map_keypress] leaves a key event to GTK (it returns false without
    touching the queue) exactly when the key has no character and is none of
    the keys named in [keyval_to_string] and in [special_keys]. *)
Theorem map_keypress_unhandled
    (MAP_QUEUE_SIZE : Z) (TERMCAP2KEY : Z -> Z -> Z) (FLAG_NOMAP : Z)
    (char_signed : bool)
    (mode_handle_key : list Z -> Mode -> list Map -> Z -> Mode * list Map)
    (fuel : nat) (keyval state : Z) (s : Map.state) :
  map_keypress MAP_QUEUE_SIZE CSI TERMCAP2KEY FLAG_NOMAP char_signed KEY_TAB KEY_NL
    KEY_CR KEY_ESC KEY_BS gdk_keyval_to_unicode mode_handle_key fuel keyval state s
    = None <->
  gdk_keyval_to_unicode keyval = 0 /\
  ~ In keyval [GDK_Tab; GDK_KP_Tab; GDK_ISO_Left_Tab; GDK_Linefeed; GDK_Return;
               GDK_ISO_Enter; GDK_3270_Enter; GDK_Escape; GDK_BackSpace;
               GDK_Up; GDK_Down; GDK_Left; GDK_Right;
               GDK_F1; GDK_F2; GDK_F3; GDK_F4; GDK_F5; GDK_F6;
               GDK_F7; GDK_F8; GDK_F9; GDK_F10; GDK_F11; GDK_F12].
Proof.
  unfold map_keypress.
  set (controls := [GDK_Tab; GDK_KP_Tab; GDK_ISO_Left_Tab; GDK_Linefeed; GDK_Return;
                    GDK_ISO_Enter; GDK_3270_Enter; GDK_Escape; GDK_BackSpace]).
  set (specials := [GDK_Up; GDK_Down; GDK_Left; GDK_Right;
                    GDK_F1; GDK_F2; GDK_F3; GDK_F4; GDK_F5; GDK_F6;
                    GDK_F7; GDK_F8; GDK_F9; GDK_F10; GDK_F11; GDK_F12]).
  pose proof (keyval_to_string_nil keyval state) as Hnil. fold controls in Hnil.
  assert (H : keypress_string keyval state = [] <->
              keyval_to_string keyval state = [] /\ ~ In keyval specials).
  { unfold Map.keypress_string.
    destruct (keyval_to_string keyval state) as [|b [|b' t]] eqn:Hk.
    - (* no byte: the special keys decide *)
      destruct Hnil as [Hnil _]. destruct (Hnil eq_refl) as [_ Hno].
      destruct (Z.eqb_spec keyval GDK_ISO_Left_Tab) as [->|_].
      { exfalso. apply Hno. do 2 right. left. reflexivity. }
      cbn [length Nat.eqb orb special_keys special_keys_loop].
      destruct (Z.eqb_spec GDK_Tab keyval) as [<-|_].
      { exfalso. apply Hno. left. reflexivity. }
      cbn [andb].
      repeat match goal with
             | |- context [?k =? keyval] =>
               destruct (Z.eqb_spec k keyval) as [<-|?];
               [cbn [andb orb Z.eqb]; split;
                [discriminate
                | intros [_ Hn]; exfalso; apply Hn;
                  repeat (first [left; reflexivity | right])]|];
               cbn [andb]
             end.
      split; [intros _; split; [reflexivity|] | reflexivity].
      unfold specials. cbn [In]. intuition congruence.
    - (* one byte *)
      split; [|intros [Hf _]; discriminate Hf]. intros Hf. exfalso. revert Hf.
      destruct (keyval =? GDK_ISO_Left_Tab);
        cbn [length Nat.eqb orb special_keys special_keys_loop];
        repeat match goal with
               | |- context [if ?c then _ else _] => destruct c; [discriminate|]
               end; discriminate.
    - split; [|intros [Hf _]; discriminate Hf].
      destruct (keyval =? GDK_ISO_Left_Tab); cbn [length Nat.eqb orb]; discriminate. }
  change (In keyval _) with (In keyval (controls ++ specials)).
  rewrite in_app_iff.
  destruct (keypress_string keyval state) as [|b t] eqn:Hk; cbn [length Nat.eqb].
  - destruct H as [H _]. specialize (H eq_refl).
    split; [intros _|reflexivity]. tauto.
  - split; [discriminate|]. intros Hg. exfalso.
    assert (E : b :: t = []) by (apply H; tauto). discriminate E.
Qed.

(** X8. The key events of [special_keys] are encoded as [convert_keys]
    writes the labels that name them. *)
Theorem special_key_event_is_label (st keyval : Z) (label : list Z) (state : Z) :
  In (st, keyval, label) named_keys ->
  gdk_keyval_to_unicode keyval = 0 ->
  Z.land state st = st ->
  keypress_string keyval state = fst (convert_keys CSI label).
Proof.
  intros Hin Hu Hst. unfold named_keys in Hin. cbn [In] in Hin.
  unfold Map.keypress_string, Map.keyval_to_string.
  repeat (destruct Hin as [Hin|Hin];
          [inversion Hin; subst; clear Hin;
           try rewrite Hu; cbn -[Z.land]; rewrite ?Hst; reflexivity|]).
  contradiction.
Qed.

End Labels.

Lemma special_key_event_is_label_witness :
  keypress_string Vimb.CSI Vimb.KEY_TAB Vimb.KEY_NL Vimb.KEY_CR Vimb.KEY_ESC
    Vimb.KEY_BS Vimb.gdk_keyval_to_unicode GDK_Tab GDK_SHIFT_MASK =
  fst (convert_keys Vimb.CSI (str "<S-Tab>")).
Proof.
  apply (special_key_event_is_label Vimb.CSI Vimb.KEY_TAB Vimb.KEY_NL Vimb.KEY_CR
           Vimb.KEY_ESC Vimb.KEY_BS Vimb.gdk_keyval_to_unicode GDK_SHIFT_MASK).
  - left. reflexivity.
  - reflexivity.
  - reflexivity.
Defined.

End KeyFacts.

(** ** The list of the maps *)

Module MapListFacts.
Import CFacts Map MapFacts KeyFacts.

(** *** map_insert and map_delete *)

Lemma strcmp_eq (a : list Z) : forall b,
  Forall (fun c => c <> 0) a -> Forall (fun c => c <> 0) b ->
  strcmp a b = 0 <-> a = b.
Proof.
  induction a as [|x a IH]; intros b Ha Hb.
  - destruct b as [|y b]; cbn; [tauto|]. inversion Hb; subst.
    split; [lia | discriminate].
  - inversion Ha as [|? ? Hx Ha']; subst.
    destruct b as [|y b]; cbn [strcmp]; [split; [lia | discriminate]|].
    inversion Hb as [|? ? Hy Hb']; subst.
    destruct (Z.eqb_spec x y) as [->|Hne].
    + destruct (Z.eqb_spec y 0); [contradiction|]. rewrite IH by assumption.
      split; [now intros -> | now inversion 1].
    + split; [lia | inversion 1; contradiction].
Qed.

Lemma map_delete_map_insert (CSI : Z) (i o : list Z) (M : Z) (l : list Map) :
  CSI <> 0 ->
  map_delete CSI i M (map_insert CSI i o M l) = (true, l).
Proof.
  intros HCSI. unfold map_delete, map_insert.
  pose proof (convert_keys_raw CSI _ HCSI (take_strlen_no_nul i)) as (_ & Hnz & _).
  destruct (convert_keys CSI (take (Z.to_nat (strlen i)) i)) as [lhs len].
  destruct (convert_keys CSI (take (Z.to_nat (strlen o)) o)) as [rhs mappedlen].
  cbn [map_delete_loop in_ inlen mode fst] in *. rewrite !Z.eqb_refl. cbn [andb].
  now rewrite (proj2 (strcmp_eq lhs lhs Hnz Hnz) eq_refl).
Qed.

(** X9. [map_delete] right after [map_insert] of the same keys in the same
    mode removes the new map again and says so; a map of the same keys that
    was there before is then the first one again. *)
Theorem map_delete_undoes_map_insert
    (CSI : Z) (i o o' : list Z) (M : Z) (l : list Map) :
  CSI <> 0 ->
  map_delete CSI i M (map_insert CSI i o M l) = (true, l) /\
  map_delete CSI i M (map_insert CSI i o' M (map_insert CSI i o M l)) =
    (true, map_insert CSI i o M l).
Proof. intros H. split; now apply map_delete_map_insert. Qed.

Lemma map_delete_undoes_map_insert_witness :
  map_delete Vimb.CSI (str "<C-a>") (ch "n")
    (map_insert Vimb.CSI (str "<C-a>") (str "gg") (ch "n") []) = (true, []) /\
  map_delete Vimb.CSI (str "<C-a>") (ch "n")
    (map_insert Vimb.CSI (str "<C-a>") (str "G") (ch "n")
       (map_insert Vimb.CSI (str "<C-a>") (str "gg") (ch "n") [])) =
    (true, map_insert Vimb.CSI (str "<C-a>") (str "gg") (ch "n") []).
Proof.
  apply (map_delete_undoes_map_insert Vimb.CSI (str "<C-a>") (str "gg") (str "G")
           (ch "n") []).
  discriminate.
Defined.

Lemma map_delete_loop_first (lhs : list Z) (len M : Z) (l : list Map) :
  Forall well_formed l -> Forall (fun c => c <> 0) lhs -> len = Z.of_nat (length lhs) ->
  (exists l1 m l2, l = l1 ++ m :: l2 /\ in_ m = lhs /\ mode m = M /\
     (forall m', In m' l1 -> ~ (in_ m' = lhs /\ mode m' = M)) /\
     map_delete_loop lhs len M l = (true, l1 ++ l2)) \/
  ((forall m', In m' l -> ~ (in_ m' = lhs /\ mode m' = M)) /\
   map_delete_loop lhs len M l = (false, l)).
Proof.
  intros Hwf Hlhs Hlen. induction Hwf as [|m l [Hm1 Hm2] _ IH].
  - right. split; [intros ? []|reflexivity].
  - cbn [map_delete_loop].
    destruct (Z.eqb_spec (mode m) M) as [HM|HM]; cbn [andb].
    2:{ destruct IH as [(l1 & m0 & l2 & -> & H1 & H2 & H3 & ->) | [H1 ->]].
        - left. exists (m :: l1), m0, l2. repeat split; try assumption.
          intros m' [<-|Hin]; [tauto | now apply H3].
        - right. split; [|reflexivity]. intros m' [<-|Hin]; [tauto | now apply H1]. }
    destruct (Z.eqb_spec (inlen m) len) as [HL|HL]; cbn [andb].
    2:{ assert (in_ m <> lhs) by (intros E; apply HL; rewrite Hm1, E, Hlen; reflexivity).
        destruct IH as [(l1 & m0 & l2 & -> & H1 & H2 & H3 & ->) | [H1 ->]].
        - left. exists (m :: l1), m0, l2. repeat split; try assumption.
          intros m' [<-|Hin]; [tauto | now apply H3].
        - right. split; [|reflexivity]. intros m' [<-|Hin]; [tauto | now apply H1]. }
    destruct (Z.eqb_spec (strcmp (in_ m) lhs) 0) as [HS|HS].
    + apply strcmp_eq in HS; [|assumption|assumption].
      left. exists [], m, l. repeat split; try assumption. intros ? [].
    + assert (in_ m <> lhs) by (intros E; apply HS, strcmp_eq; assumption).
      destruct IH as [(l1 & m0 & l2 & -> & H1 & H2 & H3 & ->) | [H1 ->]].
      * left. exists (m :: l1), m0, l2. repeat split; try assumption.
        intros m' [<-|Hin]; [tauto | now apply H3].
      * right. split; [|reflexivity]. intros m' [<-|Hin]; [tauto | now apply H1].
Qed.

(** X10. [map_delete] removes the first map of the list that has the given
    keys and mode, and no other; when there is none, the list stays as it is
    and the result is false. *)
Theorem map_delete_removes_first (CSI : Z) (i : list Z) (M : Z) (l : list Map) :
  CSI <> 0 -> Forall well_formed l ->
  let lhs := fst (convert_keys CSI (take (Z.to_nat (strlen i)) i)) in
  (exists l1 m l2, l = l1 ++ m :: l2 /\ in_ m = lhs /\ mode m = M /\
     (forall m', In m' l1 -> ~ (in_ m' = lhs /\ mode m' = M)) /\
     map_delete CSI i M l = (true, l1 ++ l2)) \/
  ((forall m', In m' l -> ~ (in_ m' = lhs /\ mode m' = M)) /\
   map_delete CSI i M l = (false, l)).
Proof.
  intros HCSI Hwf lhs. subst lhs. unfold map_delete.
  pose proof (convert_keys_raw CSI _ HCSI (take_strlen_no_nul i)) as (Hlen & Hnz & _).
  destruct (convert_keys CSI (take (Z.to_nat (strlen i)) i)) as [lhs len].
  cbn [fst snd] in *. now apply map_delete_loop_first.
Qed.

Lemma map_delete_removes_first_witness :
  let l := [rule (str "a") (str "b") (ch "n"); rule (str "c") (str "d") (ch "n")] in
  let lhs := fst (convert_keys Vimb.CSI (take (Z.to_nat (strlen (str "c"))) (str "c"))) in
  (exists l1 m l2, l = l1 ++ m :: l2 /\ in_ m = lhs /\ mode m = ch "n" /\
     (forall m', In m' l1 -> ~ (in_ m' = lhs /\ mode m' = ch "n")) /\
     map_delete Vimb.CSI (str "c") (ch "n") l = (true, l1 ++ l2)) \/
  ((forall m', In m' l -> ~ (in_ m' = lhs /\ mode m' = ch "n")) /\
   map_delete Vimb.CSI (str "c") (ch "n") l = (false, l)).
Proof.
  apply (map_delete_removes_first Vimb.CSI (str "c") (ch "n")).
  - discriminate.
  - repeat constructor; discriminate.
Defined.

(** *** The search of the maps *)

Section Search.

Variable timeout : bool.
Variable s : state.

(** X11. Maps for other modes than the active one take no part in the
    search: the search gives what it gives on the maps of the active mode
    alone. *)
Theorem find_maps_ignores_other_modes (l : list Map) : forall match_ ambiguous,
  find_maps timeout s l match_ ambiguous =
  find_maps timeout s (filter (fun m => mode m = id (vb_mode s)) l) match_ ambiguous.
Proof.
  induction l as [|m l IH]; intros match_ ambiguous; [reflexivity|].
  cbn [find_maps]. rewrite filter_cons.
  destruct (decide (mode m = id (vb_mode s))) as [E|E].
  - cbn [find_maps]. apply Z.eqb_eq in E. rewrite E. cbn [negb]. apply IH.
  - apply Z.eqb_neq in E. rewrite E. cbn [negb]. apply IH.
Qed.

Lemma find_maps_first (l : list Map) : forall match_ ambiguous,
  match fst (find_maps timeout s l match_ ambiguous) with
  | None => match_ = None
  | Some m =>
    (match_ = Some m /\
     forall m', In m' l -> exact_candidate s m' -> inlen m' <= inlen m) \/
    (exists l1 l2, l = l1 ++ m :: l2 /\ exact_candidate s m /\
       (forall m0, match_ = Some m0 -> inlen m0 < inlen m) /\
       (forall m', In m' l1 -> exact_candidate s m' -> inlen m' < inlen m) /\
       (forall m', In m' l2 -> exact_candidate s m' -> inlen m' <= inlen m))
  end.
Proof.
  induction l as [|m l IH]; intros match_ ambiguous.
  - cbn. destruct match_; [left; split; [reflexivity | intros ? []] | reflexivity].
  - cbn [find_maps].
    destruct (Z.eqb_spec (mode m) (id (vb_mode s))) as [HM|HM]; cbn [negb].
    2:{ specialize (IH match_ ambiguous).
        destruct (fst (find_maps timeout s l match_ ambiguous)) as [m1|]; [|exact IH].
        assert (Hnot : ~ exact_candidate s m) by (intros [H _]; contradiction).
        destruct IH as [[E H]|(l1 & l2 & -> & H1 & H2 & H3 & H4)].
        - left. split; [exact E|]. intros m' [<-|Hin] Hc; [contradiction | now apply H].
        - right. exists (m :: l1), l2.
          split; [reflexivity|]. split; [exact H1|]. split; [exact H2|].
          split; [|exact H4].
          intros m' [<-|Hin] Hc; [contradiction | now apply H3]. }
    match goal with
    | |- context [find_maps _ _ l ?mt ?a] => specialize (IH mt a); set (mt' := mt) in *
    end.
    destruct (fst (find_maps timeout s l mt' _)) as [m1|] eqn:E1.
    2:{ subst mt'. destruct (_ && _); [discriminate IH|exact IH]. }
    subst mt'.
    destruct ((inlen m <=? qlen s) && (strncmp (cstr (in_ m)) (queue s) (inlen m) =? 0))
      eqn:Hex; cbn [andb] in IH.
    + assert (Hm : exact_candidate s m).
      { apply exact_candidate_test. split; [now apply Z.eqb_eq | exact Hex]. }
      destruct match_ as [m0|].
      * destruct (Z.ltb_spec (inlen m0) (inlen m)) as [Hlt|Hge].
        -- destruct IH as [[E H]|(l1 & l2 & -> & H1 & H2 & H3 & H4)].
           ++ injection E as <-. right. exists [], l.
              split; [reflexivity|]. split; [exact Hm|]. split.
              ** intros ? E. now injection E as <-.
              ** split; [intros ? []|exact H].
           ++ right. exists (m :: l1), l2.
              split; [reflexivity|]. split; [exact H1|]. split.
              ** intros m2 E. injection E as <-. specialize (H2 m eq_refl). lia.
              ** split; [|exact H4].
                 intros m' [<-|Hin] Hc; [now apply H2 | now apply H3].
        -- destruct IH as [[E H]|(l1 & l2 & -> & H1 & H2 & H3 & H4)].
           ++ left. split; [exact E|]. injection E as <-.
              intros m' [<-|Hin] Hc; [lia | now apply H].
           ++ right. exists (m :: l1), l2.
              split; [reflexivity|]. split; [exact H1|]. split; [exact H2|].
              split; [|exact H4].
              intros m' [<-|Hin] Hc; [specialize (H2 m0 eq_refl); lia | now apply H3].
      * destruct IH as [[E H]|(l1 & l2 & -> & H1 & H2 & H3 & H4)].
        -- injection E as <-. right. exists [], l.
           split; [reflexivity|]. split; [exact Hm|]. split; [discriminate|].
           split; [intros ? []|exact H].
        -- right. exists (m :: l1), l2.
           split; [reflexivity|]. split; [exact H1|]. split; [discriminate|].
           split; [|exact H4].
           intros m' [<-|Hin] Hc; [now apply H2 | now apply H3].
    + assert (Hnot : ~ exact_candidate s m).
      { intros Hc. apply exact_candidate_test in Hc as [_ Hc]. congruence. }
      destruct IH as [[E H]|(l1 & l2 & -> & H1 & H2 & H3 & H4)].
      * left. split; [exact E|]. intros m' [<-|Hin] Hc; [contradiction | now apply H].
      * right. exists (m :: l1), l2.
        split; [reflexivity|]. split; [exact H1|]. split; [exact H2|].
        split; [|exact H4].
        intros m' [<-|Hin] Hc; [contradiction | now apply H3].
Qed.

(** X12. Of the exact candidates with the longest input the search takes
    the one nearest to the head of [map.list], which is the one that
    [map_insert] has put there last: every exact candidate before it is
    shorter, none behind it is longer. *)
Theorem find_maps_takes_newest_longest (l : list Map) (m : Map) :
  fst (find_maps timeout s l None 0) = Some m ->
  exists l1 l2, l = l1 ++ m :: l2 /\ exact_candidate s m /\
    (forall m', In m' l1 -> exact_candidate s m' -> inlen m' < inlen m) /\
    (forall m', In m' l2 -> exact_candidate s m' -> inlen m' <= inlen m).
Proof.
  intros E. pose proof (find_maps_first l None 0) as H. rewrite E in H.
  destruct H as [[H _]|(l1 & l2 & H1 & H2 & _ & H3 & H4)]; [discriminate H|].
  now exists l1, l2.
Qed.

End Search.

Lemma find_maps_takes_newest_longest_witness :
  let new := rule (str "a") (str "x") (ch "n") in
  let old := rule (str "a") (str "y") (ch "n") in
  let s := copy_keys Vimb.MAP_QUEUE_SIZE (str "a") (Vimb.start [new; old]) in
  exists l1 l2, [new; old] = l1 ++ new :: l2 /\ exact_candidate s new /\
    (forall m', In m' l1 -> exact_candidate s m' -> inlen m' < inlen new) /\
    (forall m', In m' l2 -> exact_candidate s m' -> inlen m' <= inlen new).
Proof.
  intros new old s.
  apply (find_maps_takes_newest_longest false s [new; old] new). reflexivity.
Defined.

End MapListFacts.

(** ** The key queue *)

Module QueueFacts.
Import CFacts Map MapFacts.

Section Queue.

Variable MAP_QUEUE_SIZE : Z.
Variable CSI : Z.
Variable TERMCAP2KEY : Z -> Z -> Z.
Variable FLAG_NOMAP : Z.
Variable char_signed : bool.
Variable mode_handle_key : list Z -> Mode -> list Map -> Z -> Mode * list Map.

Local Abbreviation copy_keys := (copy_keys MAP_QUEUE_SIZE).
Local Abbreviation send_key :=
  (send_key CSI TERMCAP2KEY FLAG_NOMAP char_signed mode_handle_key).
Local Abbreviation send_resolved :=
  (send_resolved CSI TERMCAP2KEY FLAG_NOMAP char_signed mode_handle_key).
Local Abbreviation resolve_keys :=
  (resolve_keys CSI TERMCAP2KEY FLAG_NOMAP char_signed mode_handle_key).
Local Abbreviation map_handle_keys :=
  (map_handle_keys MAP_QUEUE_SIZE CSI TERMCAP2KEY FLAG_NOMAP char_signed mode_handle_key).
Local Abbreviation do_timeout :=
  (do_timeout MAP_QUEUE_SIZE CSI TERMCAP2KEY FLAG_NOMAP char_signed mode_handle_key).
Local Abbreviation int_of_char := (int_of_char char_signed).
Local Abbreviation nomap_cleared := (nomap_cleared FLAG_NOMAP).

(** X13. The first loop of [map_handle_keys] appends the keys for which the
    queue has room and drops the others; it never writes behind the
    [MAP_QUEUE_SIZE] bytes of the queue. *)
Theorem copy_keys_stops_at_queue_size (keys : list Z) : forall s rules l r md h,
  state_is s rules l r md h ->
  state_is (copy_keys keys s) rules
    (l ++ take (Z.to_nat (MAP_QUEUE_SIZE - qlen s)) keys) r md h /\
  (qlen s <= MAP_QUEUE_SIZE -> qlen (copy_keys keys s) <= MAP_QUEUE_SIZE).
Proof.
  induction keys as [|k keys IH]; intros s rules l r md h Hs.
  - cbn [Map.copy_keys]. rewrite take_nil, app_nil_r. split; [exact Hs | trivial].
  - cbn [Map.copy_keys]. destruct (Z.ltb_spec (qlen s) MAP_QUEUE_SIZE) as [Hlt|Hge].
    + destruct Hs as (Hm & Hq & Hr & Hmd & Hh).
      set (s1 := {| maps := maps s; queue := poke (queue s) (qlen s) k;
                    qlen := qlen s + 1; resolved := resolved s;
                    vb_mode := vb_mode s; sent := sent s |}).
      assert (Hs1 : state_is s1 rules (l ++ [k]) r md h).
      { split; [exact Hm|]. split; [|auto]. now apply holds_snoc. }
      destruct (IH s1 rules _ r md h Hs1) as [H1 H2].
      replace (Z.to_nat (MAP_QUEUE_SIZE - qlen s))
        with (S (Z.to_nat (MAP_QUEUE_SIZE - qlen s1))) by (cbn; lia).
      cbn [take]. rewrite <- app_assoc in H1. split; [exact H1|].
      intros _. apply H2. cbn. lia.
    + replace (Z.to_nat (MAP_QUEUE_SIZE - qlen s)) with O by lia.
      cbn [take]. rewrite app_nil_r. split; [exact Hs | trivial].
Qed.

(** *** Keys that are not mapped *)

(** A round without mapping resolves one key. *)
Lemma round_unmapped (fuel : nat) (timeout : bool) match_ s rules l md h :
  state_is s rules l 0 md h -> l <> [] ->
  resolve_keys (S fuel) timeout false match_ s =
  resolve_keys fuel timeout false None (set_resolved s 1).
Proof.
  intros (Hm & Hq & Hr & Hmd & Hh) Hl.
  cbn [Map.resolve_keys]. rewrite send_resolved_none by (rewrite Hr; lia).
  destruct (Z.eqb_spec (qlen s) 0) as [Hz|_]; [|reflexivity].
  destruct Hq as [Hn _]. destruct l; [congruence | cbn in Hn; lia].
Qed.

Lemma unmapped_rounds (t : list Z) :
  forall p fuel s rules md h timeout match_,
  state_is s rules (p ++ t) (Z.of_nat (length p)) md h ->
  (forall p1 c p2, p ++ t = p1 ++ c :: p2 ->
     Z.land c 0xff <> CSI \/ (length p2 < 2)%nat) ->
  (length t < fuel)%nat ->
  exists s' md' rules',
    resolve_keys fuel timeout false match_ s =
      Some (match t, match_ with [], Some _ => MAP_DONE | _, _ => MAP_NOMATCH end, s') /\
    state_is s' rules' [] 0 md' (h ++ map int_of_char (p ++ t)).
Proof.
  induction t as [|c t IH]; intros p fuel s rules md h timeout match_ Hs Hcsi Hfuel.
  - destruct fuel as [|fuel]; [cbn in Hfuel; lia|]. rewrite app_nil_r in *.
    destruct (round_done CSI TERMCAP2KEY FLAG_NOMAP char_signed mode_handle_key
                fuel timeout false match_ s rules p md h Hs Hcsi)
      as (s' & md' & rules' & Hrun & Hs' & _).
    exists s', md', rules'. split; [|exact Hs']. rewrite Hrun. now destruct match_.
  - destruct fuel as [|fuel]; [cbn in Hfuel; lia|].
    pose proof Hs as (_ & _ & Hr & _).
    destruct (send_resolved_bytes CSI TERMCAP2KEY FLAG_NOMAP char_signed mode_handle_key
                p (Z.to_nat (resolved s)) s rules (c :: t) md h Hs)
      as (md1 & rules1 & Hs1 & _).
    { intros p1 x p2 ->. specialize (Hcsi p1 x (p2 ++ c :: t)).
      rewrite <- app_assoc in Hcsi. destruct (Hcsi eq_refl) as [H|H]; [now left|].
      right. rewrite length_app in H. cbn [length] in *. lia. }
    { rewrite Hr. lia. }
    rewrite (resolve_keys_sent CSI TERMCAP2KEY FLAG_NOMAP char_signed mode_handle_key)
      by (destruct Hs1 as (_ & _ & -> & _); lia).
    rewrite (round_unmapped fuel timeout match_ _ rules1 (c :: t) md1
               (h ++ map int_of_char p) Hs1);
      [|discriminate].
    destruct (IH [c] fuel
                (set_resolved (send_resolved (Z.to_nat (resolved s)) s) 1)
                rules1 md1 (h ++ map int_of_char p) timeout None)
      as (s' & md' & rules' & Hrun & Hs').
    + destruct Hs1 as (H1 & H2 & H3 & H4 & H5).
      split; [exact H1|]. split; [exact H2|]. split; [reflexivity|]. split; assumption.
    + intros p1 x p2 E. apply (Hcsi (p ++ p1) x p2).
      rewrite <- app_assoc. cbn [app] in E |- *. now rewrite <- E.
    + cbn [length] in Hfuel. lia.
    + exists s', md', rules'. split.
      * rewrite Hrun. now destruct t.
      * rewrite <- app_assoc, <- map_app in Hs'. exact Hs'.
Qed.

(** X14. With [use_map] false the keys go to the parser as they are, in their
    order and behind the keys that waited in the queue, whatever maps there
    are and whatever the parser does with the keys.  The parser gets each
    byte as the [int] it converts to, which is negative for a byte from 0x80
    on where [char] is signed.  The queue is empty afterwards and the result
    is [MAP_NOMATCH]. *)
Theorem unmapped_keys_pass_through
    (fuel : nat) (keys : list Z) (s : state) rules l md h :
  state_is s rules l 0 md h ->
  Z.of_nat (length l) + Z.of_nat (length keys) <= MAP_QUEUE_SIZE ->
  (forall p1 c p2, l ++ keys = p1 ++ c :: p2 ->
     Z.land c 0xff <> CSI \/ (length p2 < 2)%nat) ->
  (length l + length keys < fuel)%nat ->
  exists s' md' rules',
    map_handle_keys fuel keys false s = Some (MAP_NOMATCH, s') /\
    state_is s' rules' [] 0 md' (h ++ map int_of_char (l ++ keys)).
Proof.
  intros Hs Hsize Hcsi Hfuel. unfold Map.map_handle_keys.
  pose proof (copy_keys_is MAP_QUEUE_SIZE keys s rules l 0 md h Hs Hsize) as Hs1.
  destruct (unmapped_rounds (l ++ keys) [] fuel (copy_keys keys s) rules md h
              (Z.of_nat (length keys) =? 0) None) as (s' & md' & rules' & Hrun & Hs').
  - exact Hs1.
  - exact Hcsi.
  - rewrite length_app. exact Hfuel.
  - exists s', md', rules'. split; [|exact Hs']. rewrite Hrun. now destruct (l ++ keys).
Qed.

(** *** The length of the queue *)

Lemma send_key_in_bounds (P : Map -> Prop) (s : state) :
  installs_only mode_handle_key P -> Forall P (maps s) ->
  in_bounds s -> 0 < resolved s ->
  in_bounds (send_key s) /\ Forall P (maps (send_key s)) /\
  resolved (send_key s) < resolved s /\ qlen (send_key s) <= qlen s.
Proof.
  intros HP Hmaps [H1 H2] Hr. unfold Map.send_key, in_bounds.
  cbn [maps qlen resolved]. split; [|split; [now apply HP|]].
  - destruct (Z.eqb_spec (Z.land (queue_int char_signed s 0) 255) CSI); cbn [andb];
      [destruct (Z.leb_spec 3 (qlen s))|]; lia.
  - destruct (Z.eqb_spec (Z.land (queue_int char_signed s 0) 255) CSI); cbn [andb];
      [destruct (Z.leb_spec 3 (qlen s))|]; lia.
Qed.

Lemma send_resolved_in_bounds (P : Map -> Prop) (fuel : nat) : forall s,
  installs_only mode_handle_key P -> Forall P (maps s) ->
  in_bounds s ->
  in_bounds (send_resolved fuel s) /\ Forall P (maps (send_resolved fuel s)) /\
  qlen (send_resolved fuel s) <= qlen s.
Proof.
  induction fuel as [|fuel IH]; intros s HP Hmaps Hs; cbn [Map.send_resolved].
  - split; [exact Hs|]. split; [exact Hmaps | lia].
  - destruct (Z.ltb_spec 0 (resolved s)) as [Hr|Hr].
    + destruct (send_key_in_bounds P s HP Hmaps Hs Hr) as (H1 & H2 & _ & H4).
      destruct (IH _ HP H2 H1) as (H5 & H6 & H7).
      split; [exact H5|]. split; [exact H6 | lia].
    + split; [exact Hs|]. split; [exact Hmaps | lia].
Qed.

Lemma copy_keys_in_bounds (keys : list Z) : forall s,
  in_bounds s ->
  in_bounds (copy_keys keys s) /\ maps (copy_keys keys s) = maps s /\
  (qlen s <= MAP_QUEUE_SIZE -> qlen (copy_keys keys s) <= MAP_QUEUE_SIZE).
Proof.
  induction keys as [|k keys IH]; intros s Hs; cbn [Map.copy_keys]; [auto|].
  destruct (Z.ltb_spec (qlen s) MAP_QUEUE_SIZE); [|auto].
  destruct Hs as [H1 H2].
  match goal with |- context [Map.copy_keys _ _ ?x] => destruct (IH x) as (H3 & H4 & H5) end.
  - split; cbn; lia.
  - split; [exact H3|]. split; [exact H4|]. intros _. apply H5. cbn. lia.
Qed.

Lemma resolve_keys_in_bounds (fuel : nat) : forall s timeout use_map match_ st s',
  installs_only mode_handle_key not_growing ->
  Forall not_growing (maps s) ->
  in_bounds s -> qlen s <= MAP_QUEUE_SIZE ->
  resolve_keys fuel timeout use_map match_ s = Some (st, s') ->
  in_bounds s' /\ qlen s' <= MAP_QUEUE_SIZE /\ Forall not_growing (maps s') /\
  (st <> MAP_AMBIGUOUS -> qlen s' = 0 /\ resolved s' = 0) /\
  (st = MAP_AMBIGUOUS -> 0 < qlen s').
Proof.
  induction fuel as [|fuel IH];
    intros s timeout use_map match_ st s' HP Hmaps Hb Hsize Hrun; [discriminate Hrun|].
  cbn [Map.resolve_keys] in Hrun.
  destruct (send_resolved_in_bounds not_growing (Z.to_nat (resolved s)) s HP Hmaps Hb)
    as (Hb1 & Hm1 & Hq1).
  set (s1 := send_resolved (Z.to_nat (resolved s)) s) in *.
  destruct (Z.eqb_spec (qlen s1) 0) as [Hz|Hz].
  { inversion Hrun; subst. unfold in_bounds. cbn.
    split; [lia|]. split; [lia|]. split; [exact Hm1|]. split; [intros _; lia|].
    intros E. destruct match_; discriminate E. }
  set (try := use_map && (Z.land (flags (vb_mode s1)) FLAG_NOMAP =? 0)) in *.
  destruct (if try then find_maps timeout s1 (maps s1) None 0 else (None, 0))
    as [mt amb] eqn:Hfind.
  destruct (try && negb (amb =? 0)) eqn:Hamb.
  { inversion Hrun; subst. split; [exact Hb1|]. split; [lia|]. split; [exact Hm1|].
    split; [congruence|]. intros _. destruct Hb1. lia. }
  destruct mt as [m|].
  - (* the splice *)
    assert (Hm : exact_candidate s1 m /\ In m (maps s1)).
    { destruct try; [|discriminate Hfind].
      pose proof (find_maps_longest timeout s1 (maps s1) None 0 I) as H.
      rewrite Hfind in H. cbn [fst] in H.
      destruct H as (He & [Hin|Hin] & _); [discriminate Hin | auto]. }
    destruct Hm as [(_ & Hle & _) Hin].
    assert (Hml : not_growing m).
    { rewrite List.Forall_forall in Hm1. now apply Hm1. }
    destruct Hml as (Hi & Hm0 & Hmi). destruct Hb1 as [B1 B2].
    apply IH in Hrun; [exact Hrun | exact HP | exact Hm1 | |].
    + unfold in_bounds. cbn [qlen resolved replace_matched].
      destruct (Z.leb_spec (inlen m) (mappedlen m)); lia.
    + cbn [qlen replace_matched]. lia.
  - destruct Hb1 as [B1 B2].
    apply IH in Hrun; [exact Hrun | exact HP | exact Hm1 | |].
    + unfold in_bounds. cbn [qlen resolved set_resolved]. lia.
    + cbn [qlen set_resolved]. lia.
Qed.

(** X15. As long as no map has more mapped keys than keys, and the parser
    installs none that has, the queue stays within its bounds: after a call
    of [map_handle_keys] its length is neither negative nor above
    [MAP_QUEUE_SIZE], no more keys are resolved than it holds, and the maps
    are still of that kind.  The call returns with an empty queue and
    nothing resolved unless the keys are ambiguous, and with keys in the
    queue when they are.  (At a queue that is nearly full the loop that
    deletes keys reads up to [inlen - mappedlen] bytes behind the array; it
    writes inside it, and what it read ends up behind the new length.) *)
Theorem queue_length_stays_in_bounds
    (fuel : nat) (keys : list Z) (use_map : bool) (s : state) st s' :
  installs_only mode_handle_key not_growing ->
  Forall not_growing (maps s) ->
  in_bounds s -> qlen s <= MAP_QUEUE_SIZE ->
  map_handle_keys fuel keys use_map s = Some (st, s') ->
  in_bounds s' /\ qlen s' <= MAP_QUEUE_SIZE /\ Forall not_growing (maps s') /\
  (st <> MAP_AMBIGUOUS -> qlen s' = 0 /\ resolved s' = 0) /\
  (st = MAP_AMBIGUOUS -> 0 < qlen s').
Proof.
  intros HP Hmaps Hs Hsize Hrun. unfold Map.map_handle_keys in Hrun.
  destruct (copy_keys_in_bounds keys s Hs) as (Hb & Hm & Hq).
  apply resolve_keys_in_bounds in Hrun; auto. now rewrite Hm.
Qed.

(** *** The flag that turns the maps off for a key *)

(** X16. A key that arrives while the mode has [FLAG_NOMAP] set goes to the
    parser as it is, whatever maps there are: the parser is called with the
    flag taken away again and with the [int] that the byte converts to, and
    the mode and the maps are the ones that it leaves. *)
Theorem nomap_flag_skips_the_maps
    (fuel : nat) (c : Z) (s : state) rules md h :
  state_is s rules [] 0 md h ->
  1 <= MAP_QUEUE_SIZE ->
  Z.land (flags md) FLAG_NOMAP <> 0 ->
  exists s',
    map_handle_keys (S (S fuel)) [c] true s = Some (MAP_NOMATCH, s') /\
    state_is s'
      (snd (mode_handle_key h (nomap_cleared md) rules (int_of_char c))) [] 0
      (fst (mode_handle_key h (nomap_cleared md) rules (int_of_char c)))
      (h ++ [int_of_char c]).
Proof.
  intros Hs Hsize Hflag. unfold Map.map_handle_keys.
  pose proof (copy_keys_is MAP_QUEUE_SIZE [c] s rules [] 0 md h Hs ltac:(cbn; lia))
    as Hs1.
  cbn [app] in Hs1. set (s1 := copy_keys [c] s) in *.
  change (Z.of_nat (length [c]) =? 0) with false.
  pose proof Hs1 as (Hm1 & [Hq1 Hq1'] & Hr1 & Hmd1 & Hh1).
  (* the first round: the maps are not tried *)
  assert (Hround : resolve_keys (S (S fuel)) false true None s1 =
                   resolve_keys (S fuel) false true None (set_resolved s1 1)).
  { cbn [Map.resolve_keys]. rewrite send_resolved_none by (rewrite Hr1; lia).
    rewrite Hq1. cbn [length Z.of_nat Z.eqb Pos.of_succ_nat]. rewrite Hmd1.
    apply Z.eqb_neq in Hflag. rewrite Hflag. reflexivity. }
  rewrite Hround.
  assert (Hs2 : state_is (set_resolved s1 1) rules [c] 1 md h).
  { split; [exact Hm1|]. split; [split; assumption|]. split; [reflexivity|].
    split; assumption. }
  assert (Hs3 : state_is (send_key (set_resolved s1 1))
                  (snd (mode_handle_key h (nomap_cleared md) rules (int_of_char c)))
                  [] (1 - 1)
                  (fst (mode_handle_key h (nomap_cleared md) rules (int_of_char c)))
                  (h ++ [int_of_char c])).
  { apply send_key_is; [exact Hs2|]. cbn [qlen set_resolved]. rewrite Hq1.
    apply andb_false_r. }
  exists (set_resolved (send_key (set_resolved s1 1)) 0). split.
  - cbn [Map.resolve_keys resolved set_resolved]. change (Z.to_nat 1) with 1%nat.
    cbn [Map.send_resolved resolved set_resolved Z.ltb Z.compare].
    destruct Hs3 as (_ & [Hq3 _] & _). fold (set_resolved s1 1).
    fold (send_key (set_resolved s1 1)). rewrite Hq3. reflexivity.
  - destruct Hs3 as (H1 & H2 & H3 & H4 & H5).
    split; [exact H1|]. split; [exact H2|]. split; [reflexivity|]. split; assumption.
Qed.

(** *** A map that brings up its own key *)

(** A round of the map of [a] to [aa] and the key that is sent behind it. *)
Lemma recursive_map_round (a M : Z) :
  a <> 0 -> Z.land a 0xff <> CSI ->
  let m := rule [a] [a; a] M in
  (forall h' md, id md = M -> Z.land (flags md) FLAG_NOMAP = 0 ->
     id (fst (mode_handle_key h' md [m] (int_of_char a))) = M /\
     Z.land (flags (fst (mode_handle_key h' md [m] (int_of_char a)))) FLAG_NOMAP = 0 /\
     snd (mode_handle_key h' md [m] (int_of_char a)) = [m]) ->
  forall s md h,
  state_is s [m] [a] 0 md h -> id md = M -> Z.land (flags md) FLAG_NOMAP = 0 ->
  let s' := send_key (replace_matched m s) in
  qlen (replace_matched m s) = 2 /\
  (exists md', state_is s' [m] [a] 0 md' (h ++ [int_of_char a]) /\
     id md' = M /\ Z.land (flags md') FLAG_NOMAP = 0) /\
  forall fuel match_,
    resolve_keys (S (S fuel)) false true match_ s =
    resolve_keys (S fuel) false true (Some m) s'.
Proof.
  intros Ha Hcsi m Hmode s md h Hs Hid Hflag s'.
  assert (Hwf : well_formed m) by (apply rule_well_formed; now repeat constructor).
  pose proof Hs as (Hm & [Hq Hq'] & Hr & Hmd & Hh).
  assert (Hex : exact_candidate s m).
  { apply (exact_candidate_is m s [m] _ _ _ _ Hs Hwf).
    split; [now rewrite Hid | now exists []]. }
  assert (Hfst : fst (find_maps false s [m] None 0) = Some m).
  { pose proof (find_maps_longest false s [m] None 0 I) as H.
    destruct (fst (find_maps false s [m] None 0)) as [m'|].
    - destruct H as (_ & [H|[<-|[]]] & _); [discriminate H | reflexivity].
    - destruct H as [_ H]. exfalso. apply (H m); [now left | exact Hex]. }
  (* the splice, and the key that is sent in the round behind it *)
  pose proof (replace_matched_is m s [m] _ _ md h Hs) as Hs2.
  cbn [inlen mappedlen mapped m rule length] in Hs2.
  specialize (Hs2 ltac:(rewrite Hq; cbn [length]; lia) eq_refl
                  ltac:(now repeat constructor)).
  change (Z.to_nat (Z.of_nat 1)) with 1%nat in Hs2. cbn [drop app] in Hs2.
  change (Z.min (Z.of_nat 1) (Z.of_nat 2)) with 1 in Hs2.
  set (s2 := replace_matched m s) in *.
  assert (Hq2 : qlen s2 = 2) by (destruct Hs2 as (_ & [Hn _] & _); exact Hn).
  pose proof (send_key_is CSI TERMCAP2KEY FLAG_NOMAP char_signed mode_handle_key
                s2 [m] a [a] 1 md h Hs2) as Hs3.
  apply Z.eqb_neq in Hcsi. rewrite Hcsi in Hs3. specialize (Hs3 eq_refl).
  destruct (Hmode h (nomap_cleared md) Hid (nomap_cleared_flag FLAG_NOMAP md))
    as (Hid' & Hflag' & Hkeep).
  rewrite Hkeep in Hs3. change (1 - 1) with 0 in Hs3. fold s' in Hs3.
  split; [exact Hq2|]. split; [eauto|].
  intros fuel match_.
  rewrite (round_match CSI TERMCAP2KEY FLAG_NOMAP char_signed mode_handle_key
             (S fuel) false match_ s [m] _ md h m Hs); auto; try discriminate.
  2:{ right. intros m' [<-|[]] Hamb.
      apply (ambiguous_candidate_is _ s [m] _ _ _ _ Hs Hwf) in Hamb.
      destruct Hamb as (_ & _ & Hlen). cbn in Hlen. lia. }
  fold s2.
  assert (Hsend : send_resolved (Z.to_nat (resolved s2)) s2 = s').
  { pose proof Hs2 as (_ & _ & Hr2 & _). rewrite Hr2. change (Z.to_nat 1) with 1%nat.
    cbn [Map.send_resolved]. now rewrite Hr2. }
  rewrite (resolve_keys_sent CSI TERMCAP2KEY FLAG_NOMAP char_signed mode_handle_key);
    rewrite Hsend; [reflexivity|].
  destruct Hs3 as (_ & _ & -> & _). lia.
Qed.

Lemma recursive_map_rounds (a M : Z) :
  a <> 0 -> Z.land a 0xff <> CSI ->
  let m := rule [a] [a; a] M in
  (forall h' md, id md = M -> Z.land (flags md) FLAG_NOMAP = 0 ->
     id (fst (mode_handle_key h' md [m] (int_of_char a))) = M /\
     Z.land (flags (fst (mode_handle_key h' md [m] (int_of_char a)))) FLAG_NOMAP = 0 /\
     snd (mode_handle_key h' md [m] (int_of_char a)) = [m]) ->
  forall n s md h,
  state_is s [m] [a] 0 md h -> id md = M -> Z.land (flags md) FLAG_NOMAP = 0 ->
  let sn := Nat.iter n (fun s => send_key (replace_matched m s)) s in
  contents sn = [a] /\ sent sn = h ++ replicate n (int_of_char a) /\
  qlen (replace_matched m sn) = 2 /\
  forall fuel match_,
    resolve_keys (S (n + fuel)) false true match_ s =
    resolve_keys (S fuel) false true
      (match n with O => match_ | S _ => Some m end) sn.
Proof.
  intros Ha Hcsi m Hmode.
  assert (Hgen : forall n s md h,
    state_is s [m] [a] 0 md h -> id md = M -> Z.land (flags md) FLAG_NOMAP = 0 ->
    let sn := Nat.iter n (fun s => send_key (replace_matched m s)) s in
    (exists md', state_is sn [m] [a] 0 md' (h ++ replicate n (int_of_char a)) /\
       id md' = M /\ Z.land (flags md') FLAG_NOMAP = 0) /\
    forall fuel match_,
      resolve_keys (S (n + fuel)) false true match_ s =
      resolve_keys (S fuel) false true
        (match n with O => match_ | S _ => Some m end) sn).
  { induction n as [|n IH]; intros s md h Hs Hid Hflag.
    - cbn [Nat.iter replicate]. rewrite app_nil_r. split; [eauto|]. reflexivity.
    - destruct (IH s md h Hs Hid Hflag) as ((md1 & Hs1 & Hid1 & Hflag1) & Hrun).
      cbn zeta in Hrun. cbn [Nat.iter].
      set (sn := Nat.iter n (fun s => send_key (replace_matched m s)) s) in *.
      destruct (recursive_map_round a M Ha Hcsi Hmode sn md1 _ Hs1 Hid1 Hflag1)
        as (_ & (md2 & Hs2 & Hid2 & Hflag2) & Hstep).
      split.
      + exists md2. split; [|auto].
        replace (replicate (S n) (int_of_char a))
          with (replicate n (int_of_char a) ++ [int_of_char a])
          by (symmetry; apply replicate_cons_app).
        rewrite app_assoc. exact Hs2.
      + intros fuel match_.
        replace (S (S n + fuel)) with (S (n + S fuel)) by lia.
        rewrite Hrun, Hstep. reflexivity. }
  intros n s md h Hs Hid Hflag sn.
  destruct (Hgen n s md h Hs Hid Hflag) as ((md' & Hsn & Hid' & Hflag') & Hrun).
  fold sn in Hsn, Hrun.
  split; [apply holds_contents, Hsn|]. split; [apply Hsn|].
  split; [|exact Hrun].
  now destruct (recursive_map_round a M Ha Hcsi Hmode sn md' _ Hsn Hid' Hflag').
Qed.

(** X17. A map of a key to the same key twice never stops, as long as the
    parser stays in the mode of the map, leaves the maps turned on and
    leaves the map alone when it is sent the key: every round puts the two
    mapped keys into the queue, where they fit, and sends one, the queue
    holds the key of the map again, and no number of rounds ends the loop of
    [map_handle_keys].  After [n] rounds the key has been sent [n] times. *)
Theorem recursive_map_never_returns
    (a M f : Z) (q : Z -> Z) (h : list Z) :
  2 <= MAP_QUEUE_SIZE ->
  a <> 0 -> Z.land a 0xff <> CSI ->
  Z.land f FLAG_NOMAP = 0 ->
  (forall h' md, id md = M -> Z.land (flags md) FLAG_NOMAP = 0 ->
     id (fst (mode_handle_key h' md [rule [a] [a; a] M] (int_of_char a))) = M /\
     Z.land (flags (fst (mode_handle_key h' md [rule [a] [a; a] M] (int_of_char a))))
       FLAG_NOMAP = 0 /\
     snd (mode_handle_key h' md [rule [a] [a; a] M] (int_of_char a)) =
       [rule [a] [a; a] M]) ->
  let s0 := {| maps := [rule [a] [a; a] M]; queue := q; qlen := 0; resolved := 0;
               vb_mode := {| id := M; flags := f |}; sent := h |} in
  (forall fuel, map_handle_keys fuel [a] true s0 = None) /\
  (forall n,
     let sn := Nat.iter n (fun s => send_key (replace_matched (rule [a] [a; a] M) s))
                 (copy_keys [a] s0) in
     contents sn = [a] /\ sent sn = h ++ replicate n (int_of_char a) /\
     qlen (replace_matched (rule [a] [a; a] M) sn) <= MAP_QUEUE_SIZE /\
     forall fuel,
       map_handle_keys (S (n + fuel)) [a] true s0 =
       resolve_keys (S fuel) false true
         (match n with O => None | S _ => Some (rule [a] [a; a] M) end) sn).
Proof.
  intros Hsize Ha Hcsi Hf Hmode s0.
  set (m := rule [a] [a; a] M) in *.
  set (md := {| id := M; flags := f |}).
  assert (Hs0 : state_is s0 [m] [] 0 md h)
    by (repeat split; cbn; intros; lia).
  pose proof (copy_keys_is MAP_QUEUE_SIZE [a] s0 _ [] 0 md h Hs0 ltac:(cbn; lia))
    as Hs1.
  cbn [app] in Hs1.
  split.
  - (* a round more needs a unit of fuel more *)
    assert (Hgen : forall k s md' h' match_,
      state_is s [m] [a] 0 md' h' -> id md' = M ->
      Z.land (flags md') FLAG_NOMAP = 0 ->
      resolve_keys k false true match_ s = None).
    { induction k as [|k IH]; intros s md' h' match_ Hs Hid Hflag; [reflexivity|].
      destruct (recursive_map_round a M Ha Hcsi Hmode s md' h' Hs Hid Hflag)
        as (_ & (md2 & Hs2 & Hid2 & Hflag2) & Hstep).
      destruct k as [|k].
      - assert (Hwf : well_formed m)
          by (apply rule_well_formed; now repeat constructor).
        assert (Hex : exact_candidate s m).
        { apply (exact_candidate_is _ s [m] _ _ _ _ Hs Hwf).
          split; [now rewrite Hid | now exists []]. }
        assert (Hfst : fst (find_maps false s [m] None 0) = Some m).
        { pose proof (find_maps_longest false s [m] None 0 I) as H.
          destruct (fst (find_maps false s [m] None 0)) as [m'|].
          - destruct H as (_ & [H|[<-|[]]] & _); [discriminate H | reflexivity].
          - destruct H as [_ H]. exfalso. apply (H m); [now left | exact Hex]. }
        rewrite (round_match CSI TERMCAP2KEY FLAG_NOMAP char_signed mode_handle_key
                   0 false match_ s [m] _ md' h' m Hs); auto; try discriminate.
        right. intros m' [<-|[]] Hamb.
        apply (ambiguous_candidate_is _ s [m] _ _ _ _ Hs Hwf) in Hamb.
        destruct Hamb as (_ & _ & Hlen). cbn in Hlen. lia.
      - rewrite Hstep. exact (IH _ md2 _ _ Hs2 Hid2 Hflag2). }
    intros fuel. unfold Map.map_handle_keys.
    exact (Hgen fuel _ md h None Hs1 eq_refl Hf).
  - intros n sn.
    destruct (recursive_map_rounds a M Ha Hcsi Hmode n _ md h Hs1 eq_refl Hf)
      as (H1 & H2 & H3 & H4).
    fold m sn in H1, H2, H3, H4.
    split; [exact H1|]. split; [exact H2|]. split; [fold m; lia|].
    intros fuel. unfold Map.map_handle_keys.
    change (Z.of_nat (length [a]) =? 0) with false. rewrite H4.
    now destruct n.
Qed.

(** *** A map at work *)

Lemma Map_eq_dec (a b : Map) : {a = b} + {a <> b}.
Proof.
  decide equality; first [apply Z.eq_dec | apply (List.list_eq_dec Z.eq_dec)].
Qed.

(** X28. When the keys of a map of the active mode are handed to
    [map_handle_keys] in one call, as [map_handle_string] does, the mapped
    keys are sent in their place, each as the [int] it converts to, and the
    result is [MAP_DONE], whatever the parser does with them.  The map has
    no more mapped keys than keys, the keys and the loop that deletes keys
    stay inside the queue, and no other map of the mode has keys that begin
    the keys of the map or begin with them. *)
Theorem keys_of_a_map_are_replaced
    (fuel : nat) (m : Map) (s : state) rules md h :
  state_is s rules [] 0 md h ->
  Forall well_formed rules -> In m rules ->
  mode m = id md -> Z.land (flags md) FLAG_NOMAP = 0 ->
  in_ m <> [] ->
  mappedlen m = Z.of_nat (length (mapped m)) -> Forall (fun c => c <> 0) (mapped m) ->
  mappedlen m <= inlen m ->
  inlen m + (inlen m - mappedlen m) <= MAP_QUEUE_SIZE ->
  (forall m', In m' rules -> m' <> m -> mode m' = id md ->
     ~ in_ m' `prefix_of` in_ m /\ ~ in_ m `prefix_of` in_ m') ->
  (forall p1 c p2, mapped m = p1 ++ c :: p2 ->
     Z.land c 0xff <> CSI \/ (length p2 < 2)%nat) ->
  exists s' md' rules',
    map_handle_keys (S (S fuel)) (in_ m) true s = Some (MAP_DONE, s') /\
    splice_fits MAP_QUEUE_SIZE m (copy_keys (in_ m) s) /\
    state_is s' rules' [] 0 md' (h ++ map int_of_char (mapped m)).
Proof.
  intros Hs Hwf Hin Hmode Hflag Hne Hml Hnz Hlen Hsize Hother Hcsi.
  assert (Hwm : well_formed m).
  { rewrite List.Forall_forall in Hwf. now apply Hwf. }
  destruct Hwm as [Hil Hinz].
  unfold Map.map_handle_keys.
  pose proof (copy_keys_is MAP_QUEUE_SIZE (in_ m) s rules [] 0 md h Hs
                ltac:(cbn [length]; lia)) as Hs1.
  cbn [app] in Hs1. set (s1 := copy_keys (in_ m) s) in *.
  assert (Ht : (Z.of_nat (length (in_ m)) =? 0) = false).
  { apply Z.eqb_neq. destruct (in_ m); [congruence | cbn; lia]. }
  rewrite Ht.
  assert (Hex : exact_candidate s1 m).
  { apply (exact_candidate_is m s1 rules _ _ _ _ Hs1 (conj Hil Hinz)).
    split; [exact Hmode | reflexivity]. }
  assert (Hfst : fst (find_maps false s1 rules None 0) = Some m).
  { pose proof (find_maps_longest false s1 rules None 0 I) as H.
    destruct (fst (find_maps false s1 rules None 0)) as [m'|].
    - destruct H as (He & [Hm|Hm] & _); [discriminate Hm|].
      destruct (Map_eq_dec m' m) as [->|Hneq]; [reflexivity|]. exfalso.
      assert (Hw' : well_formed m') by (rewrite List.Forall_forall in Hwf; now apply Hwf).
      apply (exact_candidate_is m' s1 rules _ _ _ _ Hs1 Hw') in He as [Hmd' Hp'].
      destruct (Hother m' Hm Hneq Hmd') as [H1 _]. exact (H1 Hp').
    - destruct H as [_ H]. exfalso. exact (H m Hin Hex). }
  rewrite (round_match CSI TERMCAP2KEY FLAG_NOMAP char_signed mode_handle_key
             (S fuel) false None s1 rules _ md h m Hs1 Hne Hflag); [|right|exact Hfst].
  2:{ intros m' Hm' Hamb.
      assert (Hw' : well_formed m') by (rewrite List.Forall_forall in Hwf; now apply Hwf).
      apply (ambiguous_candidate_is m' s1 rules _ _ _ _ Hs1 Hw') in Hamb
        as (Hmd' & Hp' & Hl').
      destruct (Map_eq_dec m' m) as [->|Hneq]; [lia|].
      destruct (Hother m' Hm' Hneq Hmd') as [_ H2]. exact (H2 Hp'). }
  assert (Hq1 : qlen s1 = Z.of_nat (length (in_ m)))
    by (destruct Hs1 as (_ & [Hn _] & _); exact Hn).
  pose proof (replace_matched_is m s1 rules _ _ md h Hs1 ltac:(lia) Hml Hnz) as Hs2.
  rewrite Hil, Nat2Z.id, drop_all, app_nil_r in Hs2.
  rewrite Z.min_r, Hml in Hs2 by lia.
  destruct (round_done CSI TERMCAP2KEY FLAG_NOMAP char_signed mode_handle_key fuel
              false true (Some m) _ rules _ md h Hs2 Hcsi)
    as (s' & md' & rules' & Hrun & Hs' & _).
  exists s', md', rules'. split; [exact Hrun|]. split; [|exact Hs'].
  unfold splice_fits. rewrite Hq1. lia.
Qed.

(** *** Maps that do not make the queue longer *)

Lemma send_key_measure (s : state) :
  qlen (send_key s) - resolved (send_key s) = qlen s - resolved s.
Proof.
  unfold Map.send_key. cbn [qlen resolved]. destruct (_ && _); lia.
Qed.

Lemma send_resolved_measure (fuel : nat) : forall s,
  resolved s <= Z.of_nat fuel ->
  qlen (send_resolved fuel s) - resolved (send_resolved fuel s) =
    qlen s - resolved s /\
  resolved (send_resolved fuel s) <= 0.
Proof.
  induction fuel as [|fuel IH]; intros s Hr; cbn [Map.send_resolved].
  - split; lia.
  - destruct (Z.ltb_spec 0 (resolved s)) as [Hpos|Hneg]; [|split; lia].
    assert (Hd : resolved (send_key s) <= resolved s - 1).
    { unfold Map.send_key. cbn [resolved]. destruct (_ && _); lia. }
    destruct (IH (send_key s) ltac:(lia)) as [H1 H2].
    rewrite send_key_measure in H1. split; assumption.
Qed.

Lemma copy_keys_measure (keys : list Z) : forall s,
  qlen s <= qlen (copy_keys keys s) <= qlen s + Z.of_nat (length keys) /\
  resolved (copy_keys keys s) = resolved s.
Proof.
  induction keys as [|k keys IH]; intros s; cbn [Map.copy_keys length].
  - split; [lia | reflexivity].
  - destruct (qlen s <? MAP_QUEUE_SIZE); [|split; [lia | reflexivity]].
    match goal with |- context [Map.copy_keys _ _ ?x] => destruct (IH x) as [H1 H2] end.
    cbn [qlen resolved] in H1, H2. split; [lia | exact H2].
Qed.

Lemma resolve_keys_returns (fuel : nat) : forall s timeout use_map match_,
  installs_only mode_handle_key not_growing ->
  Forall not_growing (maps s) ->
  in_bounds s ->
  (Z.to_nat (qlen s - resolved s) < fuel)%nat ->
  exists st s', resolve_keys fuel timeout use_map match_ s = Some (st, s').
Proof.
  induction fuel as [|fuel IH]; intros s timeout use_map match_ HP Hmaps Hb Hfuel; [lia|].
  cbn [Map.resolve_keys].
  destruct (send_resolved_in_bounds not_growing (Z.to_nat (resolved s)) s HP Hmaps Hb)
    as (Hb1 & Hm1 & _).
  destruct (send_resolved_measure (Z.to_nat (resolved s)) s ltac:(lia)) as [Hmu Hr1].
  set (s1 := send_resolved (Z.to_nat (resolved s)) s) in *.
  destruct (Z.eqb_spec (qlen s1) 0) as [Hz|Hz]; [eauto|].
  set (try := use_map && (Z.land (flags (vb_mode s1)) FLAG_NOMAP =? 0)) in *.
  destruct (if try then find_maps timeout s1 (maps s1) None 0 else (None, 0))
    as [mt amb] eqn:Hfind.
  destruct (try && negb (amb =? 0)); [eauto|].
  destruct Hb1 as [B1 B2].
  destruct mt as [m|].
  - assert (Hm : exact_candidate s1 m /\ In m (maps s1)).
    { destruct try; [|discriminate Hfind].
      pose proof (find_maps_longest timeout s1 (maps s1) None 0 I) as H.
      rewrite Hfind in H. cbn [fst] in H.
      destruct H as (He & [Hin|Hin] & _); [discriminate Hin | auto]. }
    destruct Hm as [(_ & Hle & _) Hin].
    assert (Hml : not_growing m).
    { rewrite List.Forall_forall in Hm1. now apply Hm1. }
    destruct Hml as (Hi & Hm0 & Hmi).
    apply IH; [exact HP | exact Hm1 | |].
    + unfold in_bounds. cbn [qlen resolved replace_matched].
      destruct (Z.leb_spec (inlen m) (mappedlen m)); lia.
    + cbn [qlen resolved replace_matched].
      destruct (Z.leb_spec (inlen m) (mappedlen m)); lia.
  - apply IH; [exact HP | exact Hm1 | |].
    + unfold in_bounds. cbn [qlen resolved set_resolved]. lia.
    + cbn [qlen resolved set_resolved]. lia.
Qed.

(** X26. When no map has more mapped keys than keys, every map has a key,
    and the parser installs no map that is otherwise while it handles the
    keys it is sent, [map_handle_keys] returns: the loop ends within as many
    rounds as there are unresolved keys in the queue, and one more.  A
    parser that defines a map with more mapped keys than keys in the middle
    of the call is not covered. *)
Theorem shrinking_maps_always_return (keys : list Z) (use_map : bool) (s : state) :
  installs_only mode_handle_key not_growing ->
  Forall not_growing (maps s) ->
  in_bounds s ->
  exists st s',
    map_handle_keys (S (Z.to_nat (qlen s - resolved s) + length keys)) keys use_map s =
    Some (st, s').
Proof.
  intros HP Hmaps Hb. unfold Map.map_handle_keys.
  destruct (copy_keys_in_bounds keys s Hb) as (Hb1 & Hm1 & _).
  destruct (copy_keys_measure keys s) as [Hq Hr].
  apply resolve_keys_returns; [exact HP | now rewrite Hm1 | exact Hb1 | lia].
Qed.

End Queue.

Lemma copy_keys_stops_at_queue_size_witness :
  let s := Vimb.start [] in
  state_is (copy_keys 2 (str "abc") s) []
    ([] ++ take (Z.to_nat (2 - qlen s)) (str "abc")) 0 (vb_mode s) [] /\
  (qlen s <= 2 -> qlen (copy_keys 2 (str "abc") s) <= 2).
Proof.
  intros s. apply (copy_keys_stops_at_queue_size 2 (str "abc") s [] [] 0 (vb_mode s) []).
  repeat split; cbn; intros; lia.
Defined.

(** The two bytes of a letter with an umlaut in UTF-8, not mapped. *)
Lemma unmapped_keys_pass_through_witness :
  let rules := [rule (str "a") (str "b") (ch "n")] in
  exists s' md' rules',
    map_handle_keys Vimb.MAP_QUEUE_SIZE Vimb.CSI Vimb.TERMCAP2KEY Vimb.FLAG_NOMAP
      Vimb.char_signed Vimb.mode_handle_key 3 [0xc3; 0xa4] false (Vimb.start rules) =
      Some (MAP_NOMATCH, s') /\
    state_is s' rules' [] 0 md'
      ([] ++ map (int_of_char Vimb.char_signed) ([] ++ [0xc3; 0xa4])).
Proof.
  intros rules.
  apply (unmapped_keys_pass_through Vimb.MAP_QUEUE_SIZE Vimb.CSI Vimb.TERMCAP2KEY
           Vimb.FLAG_NOMAP Vimb.char_signed Vimb.mode_handle_key 3 [0xc3; 0xa4]
           (Vimb.start rules) rules [] {| id := ch "n"; flags := 0 |} []).
  - repeat split; cbn; intros; lia.
  - now vm_compute.
  - intros p1 c p2 E. left.
    assert (Hc : In c [0xc3; 0xa4]).
    { change ([] ++ [0xc3; 0xa4]) with [0xc3; 0xa4] in E. rewrite E. apply in_elt. }
    cbn in Hc. destruct Hc as [<- | [<- | []]]; discriminate.
  - cbn. lia.
Defined.

Lemma queue_length_stays_in_bounds_witness :
  let s := Vimb.start [rule (str "ab") (str "c") (ch "n")] in
  let r := map_handle_keys Vimb.MAP_QUEUE_SIZE Vimb.CSI Vimb.TERMCAP2KEY
             Vimb.FLAG_NOMAP Vimb.char_signed Vimb.mode_handle_key 5 (str "ab") true s in
  let st := fst (default (MAP_NOMATCH, s) r) in
  let s' := snd (default (MAP_NOMATCH, s) r) in
  st = MAP_DONE /\ sent s' = str "c" /\
  in_bounds s' /\ qlen s' <= Vimb.MAP_QUEUE_SIZE /\ Forall not_growing (maps s') /\
  (st <> MAP_AMBIGUOUS -> qlen s' = 0 /\ resolved s' = 0) /\
  (st = MAP_AMBIGUOUS -> 0 < qlen s').
Proof.
  intros s r st s'. split; [reflexivity|]. split; [reflexivity|].
  apply (queue_length_stays_in_bounds Vimb.MAP_QUEUE_SIZE Vimb.CSI Vimb.TERMCAP2KEY
           Vimb.FLAG_NOMAP Vimb.char_signed Vimb.mode_handle_key 5 (str "ab") true s).
  - intros h md l k H. exact H.
  - repeat constructor; now vm_compute.
  - split; now vm_compute.
  - now vm_compute.
  - reflexivity.
Defined.

Lemma nomap_flag_skips_the_maps_witness :
  let rules := [rule (str "a") (str "b") (ch "n")] in
  let md := {| id := ch "n"; flags := Vimb.FLAG_NOMAP |} in
  let s := {| maps := rules; queue := fun _ => 0; qlen := 0; resolved := 0;
              vb_mode := md; sent := [] |} in
  exists s',
    map_handle_keys Vimb.MAP_QUEUE_SIZE Vimb.CSI Vimb.TERMCAP2KEY Vimb.FLAG_NOMAP
      Vimb.char_signed Vimb.mode_handle_key 2 [ch "a"] true s =
      Some (MAP_NOMATCH, s') /\
    state_is s'
      (snd (Vimb.mode_handle_key [] (nomap_cleared Vimb.FLAG_NOMAP md) rules
              (int_of_char Vimb.char_signed (ch "a")))) [] 0
      (fst (Vimb.mode_handle_key [] (nomap_cleared Vimb.FLAG_NOMAP md) rules
              (int_of_char Vimb.char_signed (ch "a"))))
      ([] ++ [int_of_char Vimb.char_signed (ch "a")]).
Proof.
  intros rules md s.
  apply (nomap_flag_skips_the_maps Vimb.MAP_QUEUE_SIZE Vimb.CSI Vimb.TERMCAP2KEY
           Vimb.FLAG_NOMAP Vimb.char_signed Vimb.mode_handle_key 0 (ch "a") s rules md []).
  - repeat split; cbn; intros; lia.
  - now vm_compute.
  - discriminate.
Defined.

Lemma recursive_map_never_returns_witness :
  let m := rule [ch "a"] [ch "a"; ch "a"] (ch "n") in
  let s0 := {| maps := [m]; queue := fun _ => 0; qlen := 0; resolved := 0;
               vb_mode := {| id := ch "n"; flags := 0 |}; sent := [] |} in
  (forall fuel,
     map_handle_keys Vimb.MAP_QUEUE_SIZE Vimb.CSI Vimb.TERMCAP2KEY Vimb.FLAG_NOMAP
       Vimb.char_signed Vimb.mode_handle_key fuel [ch "a"] true s0 = None) /\
  (forall n,
     let sn := Nat.iter n
                 (fun s => send_key Vimb.CSI Vimb.TERMCAP2KEY Vimb.FLAG_NOMAP
                             Vimb.char_signed Vimb.mode_handle_key (replace_matched m s))
                 (copy_keys Vimb.MAP_QUEUE_SIZE [ch "a"] s0) in
     contents sn = [ch "a"] /\
     sent sn = [] ++ replicate n (int_of_char Vimb.char_signed (ch "a")) /\
     qlen (replace_matched m sn) <= Vimb.MAP_QUEUE_SIZE /\
     forall fuel,
       map_handle_keys Vimb.MAP_QUEUE_SIZE Vimb.CSI Vimb.TERMCAP2KEY Vimb.FLAG_NOMAP
         Vimb.char_signed Vimb.mode_handle_key (S (n + fuel)) [ch "a"] true s0 =
       resolve_keys Vimb.CSI Vimb.TERMCAP2KEY Vimb.FLAG_NOMAP Vimb.char_signed
         Vimb.mode_handle_key (S fuel) false true
         (match n with O => None | S _ => Some m end) sn).
Proof.
  intros m s0.
  apply (recursive_map_never_returns Vimb.MAP_QUEUE_SIZE Vimb.CSI Vimb.TERMCAP2KEY
           Vimb.FLAG_NOMAP Vimb.char_signed Vimb.mode_handle_key (ch "a") (ch "n") 0
           (fun _ => 0) []).
  - now vm_compute.
  - discriminate.
  - discriminate.
  - reflexivity.
  - intros h' md Hid Hf. split; [exact Hid|]. split; [exact Hf | reflexivity].
Defined.

Lemma shrinking_maps_always_return_witness :
  let s := Vimb.start [rule (str "ab") (str "a") (ch "n");
                       rule (str "a") (str "b") (ch "n")] in
  exists st s',
    map_handle_keys Vimb.MAP_QUEUE_SIZE Vimb.CSI Vimb.TERMCAP2KEY Vimb.FLAG_NOMAP
      Vimb.char_signed Vimb.mode_handle_key
      (S (Z.to_nat (qlen s - resolved s) + length (str "abab"))) (str "abab") true s =
    Some (st, s').
Proof.
  intros s.
  apply (shrinking_maps_always_return Vimb.MAP_QUEUE_SIZE Vimb.CSI Vimb.TERMCAP2KEY
           Vimb.FLAG_NOMAP Vimb.char_signed Vimb.mode_handle_key (str "abab") true s).
  - intros h md l k H. exact H.
  - repeat constructor; now vm_compute.
  - split; now vm_compute.
Defined.

Lemma keys_of_a_map_are_replaced_witness :
  let m := rule (str "gg") (str "G") (ch "n") in
  let rules := [rule (str "x") (str "dd") (ch "n"); m; rule (str "g") (str "0") (ch "i")] in
  exists s' md' rules',
    map_handle_keys Vimb.MAP_QUEUE_SIZE Vimb.CSI Vimb.TERMCAP2KEY Vimb.FLAG_NOMAP
      Vimb.char_signed Vimb.mode_handle_key 2 (in_ m) true (Vimb.start rules) =
      Some (MAP_DONE, s') /\
    splice_fits Vimb.MAP_QUEUE_SIZE m
      (copy_keys Vimb.MAP_QUEUE_SIZE (in_ m) (Vimb.start rules)) /\
    state_is s' rules' [] 0 md' ([] ++ map (int_of_char Vimb.char_signed) (mapped m)).
Proof.
  intros m rules.
  apply (keys_of_a_map_are_replaced Vimb.MAP_QUEUE_SIZE Vimb.CSI Vimb.TERMCAP2KEY
           Vimb.FLAG_NOMAP Vimb.char_signed Vimb.mode_handle_key 0 m (Vimb.start rules)
           rules {| id := ch "n"; flags := 0 |} []).
  - repeat split; cbn; intros; lia.
  - repeat constructor; discriminate.
  - right. left. reflexivity.
  - reflexivity.
  - reflexivity.
  - discriminate.
  - reflexivity.
  - repeat constructor; discriminate.
  - now vm_compute.
  - now vm_compute.
  - intros m' [<- | [<- | [<- | []]]] Hneq Hmd.
    + split; intros [k Hk]; discriminate Hk.
    + congruence.
    + discriminate Hmd.
  - intros p1 c p2 E. right.
    apply (f_equal (@length Z)) in E. rewrite length_app in E. cbn in E. lia.
Defined.

End QueueFacts.

(** ** Lines of the ex command line *)

Module LineFacts.
Import CFacts Ex ExFacts.

(** *** The command that a word selects *)

Lemma parse_command_name_first (s : list Z) (arg : ExArg) input' arg' :
  parse_command_name (At s) arg = Ret (true, input', arg') ->
  exists p r e,
    s = p ++ r /\ input' = At r /\ p <> [] /\ (hd 0 r = 0 \/ hd 0 r = ch " ") /\
    commands !! idx arg' = Some e /\
    arg' = {| count := count arg; idx := idx arg'; name := i_name e;
              code := i_code e; bang := bang arg; lhs := lhs arg; rhs := rhs arg |} /\
    p `prefix_of` i_name e /\
    forall j e', (j < idx arg')%nat -> commands !! j = Some e' ->
      ~ p `prefix_of` i_name e'.
Proof.
  unfold parse_command_name.
  destruct (command_name_loop commands s [] 0 arg) as [[[f m] i]|] eqn:Hl;
    cbn [bind]; [|discriminate].
  destruct (Nat.eqb_spec m 0) as [Hm|Hm]; [discriminate|].
  remember (nth f commands (info "" EX_BMA fn_ex_bookmark 0)) as E eqn:HE.
  intros H. injection H as <- <-. cbn [idx].
  destruct (command_name_loop_first commands s [] 0%nat arg f m i)
    as (p & r & -> & -> & Hp & Hr & e & He & Hpre & Hleast);
    [apply commands_names_ok | constructor | now left | intros; lia
    | exact Hl | lia |].
  exists p, r, e. cbn [app] in Hpre, Hleast.
  rewrite (nth_lookup_Some _ _ _ _ He) in HE. subst E. repeat split; assumption.
Qed.

(** X18. Whenever [parse_command_name] succeeds, the word it has read (up
    to the end of the line or a space) is the beginning of the name of the
    command it selects, and no command before that one in the table begins
    with the word.  Count, bang, lhs and rhs are left alone. *)
Theorem parse_command_name_sound (s : list Z) (arg : ExArg) input' arg' :
  parse_command_name (At s) arg = Ret (true, input', arg') ->
  exists p r e,
    s = p ++ r /\ input' = At r /\ p <> [] /\ (hd 0 r = 0 \/ hd 0 r = ch " ") /\
    commands !! idx arg' = Some e /\
    arg' = {| count := count arg; idx := idx arg'; name := i_name e;
              code := i_code e; bang := bang arg; lhs := lhs arg; rhs := rhs arg |} /\
    p `prefix_of` i_name e /\
    forall j e', (j < idx arg')%nat -> commands !! j = Some e' ->
      ~ p `prefix_of` i_name e'.
Proof. apply parse_command_name_first. Qed.

Lemma parse_command_name_sound_witness :
  exists p r e,
    str "sh x" = p ++ r /\ At (str " x") = At r /\ p <> [] /\
    (hd 0 r = 0 \/ hd 0 r = ch " ") /\
    commands !! 17%nat = Some e /\
    {| count := 0; idx := 17; name := str "shellcmd"; code := EX_SHELLCMD;
       bang := false; lhs := []; rhs := [] |} =
    {| count := 0; idx := 17; name := i_name e; code := i_code e; bang := false;
       lhs := []; rhs := [] |} /\
    p `prefix_of` i_name e /\
    forall j e', (j < 17)%nat -> commands !! j = Some e' -> ~ p `prefix_of` i_name e'.
Proof.
  apply (parse_command_name_sound (str "sh x") new_arg (At (str " x"))
           {| count := 0; idx := 17; name := str "shellcmd"; code := EX_SHELLCMD;
              bang := false; lhs := []; rhs := [] |}).
  reflexivity.
Defined.

(** [qun] and what follows it is no command: the search gives up at
    [qclear], which stands between [quit] and [qunshift]. *)
Lemma command_name_loop_qun (x : list Z) (arg : ExArg) :
  command_name_loop commands (str "qun" ++ x) [] 0 arg = Ret (10%nat, 0%nat, At x).
Proof. destruct x; reflexivity. Qed.

(** X19. No line runs [qunshift]: the command can not be selected, neither by
    its name nor by any beginning of it, because [qu] selects [quit] and
    every longer beginning fails. *)
Theorem qunshift_is_never_selected (s : list Z) (arg : ExArg) input' arg' :
  parse_command_name (At s) arg = Ret (true, input', arg') ->
  code arg' <> EX_QUNSHIFT.
Proof.
  intros H Hcode.
  destruct (parse_command_name_first s arg input' arg' H)
    as (p & r & e & -> & _ & Hp & _ & He & Harg & Hpre & Hleast).
  rewrite Harg in Hcode. cbn [code] in Hcode.
  (* the command is the entry 14 *)
  assert (Hidx : idx arg' = 14%nat).
  { pose proof (lookup_lt_Some _ _ _ He) as Hlt.
    change (length commands) with 22%nat in Hlt.
    destruct (idx arg') as [|n]; [inversion He; subst; discriminate Hcode|].
    do 21 (destruct n as [|n];
           [try reflexivity; inversion He; subst; discriminate Hcode|]).
    lia. }
  rewrite Hidx in He, Hleast. inversion He; subst e. clear He.
  (* the word begins with [qun] *)
  assert (Hq : ~ p `prefix_of` str "quit").
  { apply (Hleast 10%nat (info "quit" EX_QUIT fn_ex_quit EX_FLAG_NONE));
      [lia | reflexivity]. }
  destruct Hpre as [x Hx].
  destruct p as [|c1 [|c2 [|c3 p]]]; [congruence| | |]; cbn in Hx.
  - injection Hx as <- _. apply Hq. now exists (str "uit").
  - injection Hx as <- <- _. apply Hq. now exists (str "it").
  - injection Hx as <- <- <- _.
    unfold parse_command_name in H.
    change ((ch "q" :: ch "u" :: ch "n" :: p) ++ r) with (str "qun" ++ (p ++ r)) in H.
    rewrite command_name_loop_qun in H. discriminate H.
Qed.

Lemma qunshift_is_never_selected_witness :
  parse_command_name (At (str "qu")) new_arg =
    Ret (true, At [],
         {| count := 0; idx := 10; name := str "quit"; code := EX_QUIT;
            bang := false; lhs := []; rhs := [] |}) /\
  EX_QUIT <> EX_QUNSHIFT.
Proof.
  split; [reflexivity|].
  apply (qunshift_is_never_selected (str "qu") new_arg (At [])
           {| count := 0; idx := 10; name := str "quit"; code := EX_QUIT;
              bang := false; lhs := []; rhs := [] |}).
  reflexivity.
Defined.

Lemma full_name_parses (k : nat) (e : ExInfo) (r : list Z) (arg : ExArg) :
  commands !! k = Some e -> i_code e <> EX_QUNSHIFT ->
  r = [] \/ hd 0 r = ch " " ->
  parse_command_name (At (i_name e ++ r)) arg =
  Ret (true, At r,
       {| count := count arg; idx := k; name := i_name e; code := i_code e;
          bang := bang arg; lhs := lhs arg; rhs := rhs arg |}).
Proof.
  intros He Hcode Hr.
  assert (Hloop : exists m, command_name_loop commands (i_name e) [] 0 new_arg =
                            Ret (k, S m, At [])).
  { pose proof (lookup_lt_Some _ _ _ He) as Hlt.
    change (length commands) with 22%nat in Hlt.
    do 22 (destruct k as [|k];
           [inversion He; subst;
            first [eexists; vm_compute; reflexivity | exfalso; now apply Hcode]|]).
    lia. }
  destruct Hloop as [m Hloop].
  apply (command_name_loop_arg _ _ _ _ _ arg) in Hloop.
  apply (command_name_loop_app _ _ r) in Hloop; [|exact Hr|lia].
  unfold parse_command_name. rewrite Hloop. cbn [bind Nat.eqb].
  now rewrite (nth_lookup_Some _ _ _ _ He).
Qed.

(** X20. Every command but [qunshift] is selected by its full name, at
    the end of the line and before a space. *)
Theorem full_name_selects_command (k : nat) (e : ExInfo) (r : list Z) (arg : ExArg) :
  commands !! k = Some e -> i_code e <> EX_QUNSHIFT ->
  r = [] \/ hd 0 r = ch " " ->
  parse_command_name (At (i_name e ++ r)) arg =
  Ret (true, At r,
       {| count := count arg; idx := k; name := i_name e; code := i_code e;
          bang := bang arg; lhs := lhs arg; rhs := rhs arg |}).
Proof. apply full_name_parses. Qed.

Lemma full_name_selects_command_witness :
  parse_command_name (At (str "shortcut-remove" ++ str " x")) new_arg =
  Ret (true, At (str " x"),
       {| count := 0; idx := 20; name := str "shortcut-remove"; code := EX_SCR;
          bang := false; lhs := []; rhs := [] |}).
Proof.
  apply (full_name_selects_command 20
           (info "shortcut-remove" EX_SCR fn_ex_shortcut EX_FLAG_RHS) (str " x") new_arg).
  - reflexivity.
  - discriminate.
  - right. reflexivity.
Defined.

(** *** Completion of command names *)

Lemma g_str_has_prefix_true (name input : list Z) :
  Forall (fun c => c <> 0) input ->
  g_str_has_prefix name input = true <-> input `prefix_of` name.
Proof.
  intros Hnz. unfold g_str_has_prefix.
  rewrite (MapFacts.strlen_no_nul input Hnz), Z.eqb_eq.
  rewrite <- (app_nil_r input) at 1. now apply strncmp_prefix.
Qed.

Lemma fill_all_rows (tbl : list ExInfo) : forall store found,
  fill_all tbl store found =
  (found || negb (bool_decide (tbl = [])), store ++ map i_name tbl).
Proof.
  induction tbl as [|e tbl IH]; intros store found; cbn [fill_all map].
  - now rewrite orb_false_r, app_nil_r.
  - rewrite IH, <- app_assoc. cbn. now rewrite orb_true_r.
Qed.

Lemma fill_matching_rows (input : list Z) (tbl : list ExInfo) :
  Forall (fun c => c <> 0) input ->
  forall store found,
  let rows := filter (fun e => input `prefix_of` i_name e) tbl in
  fill_matching tbl input store found =
  (found || negb (bool_decide (rows = [])), store ++ map i_name rows).
Proof.
  intros Hnz. induction tbl as [|e tbl IH]; intros store found; cbn zeta in *.
  - cbn. now rewrite orb_false_r, app_nil_r.
  - cbn [fill_matching]. rewrite filter_cons.
    pose proof (g_str_has_prefix_true (i_name e) input Hnz) as Hp.
    destruct (g_str_has_prefix (i_name e) input).
    + destruct (decide (input `prefix_of` i_name e)) as [_|Hn]; [|tauto].
      rewrite IH. cbn [map]. rewrite <- app_assoc. cbn. now rewrite orb_true_r.
    + destruct (decide (input `prefix_of` i_name e)) as [Hy|_].
      * apply Hp in Hy. discriminate Hy.
      * apply IH.
Qed.

Lemma filter_all {A} (P : A -> Prop) `{!forall x, Decision (P x)} (l : list A) :
  (forall x, P x) -> filter P l = l.
Proof.
  intros HP. induction l as [|x l IH]; [reflexivity|].
  rewrite filter_cons. destruct (decide (P x)) as [_|Hn]; [now rewrite IH|].
  exfalso. apply Hn, HP.
Qed.

Lemma filter_first {A} (P : A -> Prop) `{!forall x, Decision (P x)}
    (l : list A) (k : nat) (e : A) :
  l !! k = Some e -> P e ->
  (forall j e', (j < k)%nat -> l !! j = Some e' -> ~ P e') ->
  head (filter P l) = Some e.
Proof.
  revert k. induction l as [|x l IH]; intros k Hk He Hleast; [discriminate Hk|].
  rewrite filter_cons. destruct k as [|k].
  - injection Hk as ->. now destruct (decide (P e)).
  - destruct (decide (P x)) as [Hx|_].
    + exfalso. apply (Hleast 0%nat x); [lia | reflexivity | exact Hx].
    + apply (IH k); [exact Hk | exact He |].
      intros j e' Hj He'. apply (Hleast (S j) e'); [lia | exact He'].
Qed.

(** X21. [ex_fill_completion] appends to the store, in the order of the table,
    the names of the commands that begin with the input, and all the names
    for an empty or missing input; it reports whether it has appended one.
    When the input is a word that [parse_command_name] accepts, the first
    name appended is the command that the word runs. *)
Theorem ex_fill_completion_rows (store : list (list Z)) (input : list Z) :
  Forall (fun c => c <> 0) input ->
  let rows := filter (fun e => input `prefix_of` i_name e) commands in
  ex_fill_completion store (Some input) =
    (negb (bool_decide (rows = [])), store ++ map i_name rows) /\
  ex_fill_completion store None = (true, store ++ map i_name commands) /\
  (forall arg r input' arg',
     r = [] \/ hd 0 r = ch " " -> Forall (fun c => c <> ch " ") input ->
     parse_command_name (At (input ++ r)) arg = Ret (true, input', arg') ->
     head (map i_name rows) = Some (name arg')).
Proof.
  intros Hnz rows. split; [|split].
  - unfold ex_fill_completion. destruct input as [|c input].
    + cbn [hd Z.eqb]. rewrite fill_all_rows. subst rows.
      assert (Hall : filter (fun e => [] `prefix_of` i_name e) commands = commands).
      { apply filter_all. intros e. apply prefix_nil. }
      rewrite Hall. reflexivity.
    + cbn [hd]. inversion Hnz as [|? ? Hc _]; subst.
      destruct (Z.eqb_spec c 0); [contradiction|].
      now rewrite fill_matching_rows.
  - unfold ex_fill_completion. now rewrite fill_all_rows.
  - intros arg r input' arg' Hr Hsp H.
    destruct (parse_command_name_first _ _ _ _ H)
      as (p & r' & e & Happ & _ & Hp & Hr' & He & Harg & Hpre & Hleast).
    (* the word read is the input *)
    assert (Hnsp : Forall (fun c => c <> 0 /\ c <> ch " ") p).
    { destruct Hpre as [x Hx].
      assert (Hall : Forall (fun e => Forall (fun c => c <> 0 /\ c <> ch " ") (i_name e))
                       commands) by (repeat constructor; discriminate).
      rewrite List.Forall_forall in Hall.
      specialize (Hall e (proj1 (list_elem_of_In _ _) (list_elem_of_lookup_2 _ _ _ He))).
      rewrite Hx in Hall. now apply Forall_app in Hall. }
    assert (Hsame : input = p).
    { clear - Happ Hnz Hsp Hr Hr' Hnsp. revert p Happ Hnsp.
      induction input as [|c input IH]; intros p Happ Hnsp.
      - destruct p as [|x p]; [reflexivity|]. exfalso. cbn in Happ.
        apply Forall_cons in Hnsp as [[Hx0 Hxs] _].
        destruct Hr as [Hr | Hr]; [rewrite Hr in Happ; discriminate Happ|].
        rewrite Happ in Hr. cbn in Hr. contradiction.
      - apply Forall_cons in Hnz as [Hc0 Hnz'].
        apply Forall_cons in Hsp as [Hcs Hsp'].
        destruct p as [|x p].
        + exfalso. cbn in Happ. rewrite <- Happ in Hr'. cbn in Hr'. tauto.
        + cbn in Happ. injection Happ as <- Happ. f_equal.
          apply Forall_cons in Hnsp as [_ Hnsp]. now apply IH. }
    subst p. subst rows. rewrite Harg. cbn [name].
    pose proof (filter_first _ commands (idx arg') e He Hpre Hleast) as Hhd.
    destruct (filter _ commands); [discriminate Hhd|].
    cbn in Hhd |- *. now injection Hhd as ->.
Qed.

Lemma ex_fill_completion_rows_witness :
  let rows := filter (fun e => str "qp" `prefix_of` i_name e) commands in
  ex_fill_completion [] (Some (str "qp")) =
    (negb (bool_decide (rows = [])), [] ++ map i_name rows) /\
  ex_fill_completion [] None = (true, [] ++ map i_name commands) /\
  (forall arg r input' arg',
     r = [] \/ hd 0 r = ch " " -> Forall (fun c => c <> ch " ") (str "qp") ->
     parse_command_name (At (str "qp" ++ r)) arg = Ret (true, input', arg') ->
     head (map i_name rows) = Some (name arg')).
Proof.
  apply (ex_fill_completion_rows [] (str "qp")). repeat constructor; discriminate.
Defined.

(** *** Lines *)

Lemma parse_lhs_loop_word (l : list Z) : forall rest arg acc,
  Forall (fun c => c <> 0 /\ c <> ch " " /\ c <> quote) l ->
  hd 0 rest = 0 \/ hd 0 rest = ch " " ->
  parse_lhs_loop (l ++ rest) arg acc = Ret (At rest, with_lhs arg (acc ++ l)).
Proof.
  induction l as [|c l IH]; intros rest arg acc Hl Hr.
  - cbn [app]. rewrite app_nil_r. destruct rest as [|x rest]; [reflexivity|].
    cbn [hd] in Hr. cbn [parse_lhs_loop].
    destruct (Z.eqb_spec x 0), (Z.eqb_spec x (ch " ")); cbn [orb]; try reflexivity.
    tauto.
  - apply Forall_cons in Hl as [(H0 & Hs & Hq) Hl]. cbn [app parse_lhs_loop].
    destruct (Z.eqb_spec c 0); [contradiction|].
    destruct (Z.eqb_spec c (ch " ")); [contradiction|].
    destruct (Z.eqb_spec c quote); [contradiction|]. cbn [orb].
    rewrite IH by assumption. now rewrite <- app_assoc.
Qed.

Lemma parse_rhs_loop_text (r : list Z) : forall rest arg acc,
  Forall (fun c => c <> 0 /\ c <> 10 /\ c <> ch "|" /\ c <> quote) r ->
  hd 0 rest = 0 \/ hd 0 rest = 10 \/ hd 0 rest = ch "|" ->
  parse_rhs_loop (r ++ rest) arg acc = Ret (At rest, with_rhs arg (acc ++ r)).
Proof.
  induction r as [|c r IH]; intros rest arg acc Hl Hr.
  - cbn [app]. rewrite app_nil_r. destruct rest as [|x rest]; [reflexivity|].
    cbn [hd] in Hr. cbn [parse_rhs_loop].
    destruct (Z.eqb_spec x 0), (Z.eqb_spec x 10), (Z.eqb_spec x (ch "|"));
      cbn [orb]; try reflexivity.
    tauto.
  - apply Forall_cons in Hl as [(H0 & Hs & Hb & Hq) Hl]. cbn [app parse_rhs_loop].
    destruct (Z.eqb_spec c 0); [contradiction|].
    destruct (Z.eqb_spec c 10); [contradiction|].
    destruct (Z.eqb_spec c (ch "|")); [contradiction|].
    destruct (Z.eqb_spec c quote); [contradiction|]. cbn [orb].
    rewrite IH by assumption. now rewrite <- app_assoc.
Qed.

Lemma parse_lhs_loop_plain (l : list Z) : forall rest arg acc,
  Forall (fun c => c <> 0 /\ c <> ch " " /\ c <> quote) l ->
  parse_lhs_loop (l ++ rest) arg acc = parse_lhs_loop rest arg (acc ++ l).
Proof.
  induction l as [|c l IH]; intros rest arg acc Hl.
  - cbn [app]. now rewrite app_nil_r.
  - apply Forall_cons in Hl as [(H0 & Hs & Hq) Hl]. cbn [app parse_lhs_loop].
    destruct (Z.eqb_spec c 0); [contradiction|].
    destruct (Z.eqb_spec c (ch " ")); [contradiction|].
    destruct (Z.eqb_spec c quote); [contradiction|]. cbn [orb].
    rewrite IH by assumption. now rewrite <- app_assoc.
Qed.

Lemma parse_rhs_loop_plain (r : list Z) : forall rest arg acc,
  Forall (fun c => c <> 0 /\ c <> 10 /\ c <> ch "|" /\ c <> quote) r ->
  parse_rhs_loop (r ++ rest) arg acc = parse_rhs_loop rest arg (acc ++ r).
Proof.
  induction r as [|c r IH]; intros rest arg acc Hl.
  - cbn [app]. now rewrite app_nil_r.
  - apply Forall_cons in Hl as [(H0 & Hs & Hb & Hq) Hl]. cbn [app parse_rhs_loop].
    destruct (Z.eqb_spec c 0); [contradiction|].
    destruct (Z.eqb_spec c 10); [contradiction|].
    destruct (Z.eqb_spec c (ch "|")); [contradiction|].
    destruct (Z.eqb_spec c quote); [contradiction|]. cbn [orb].
    rewrite IH by assumption. now rewrite <- app_assoc.
Qed.

(** X27. A backslash keeps the byte behind it from ending the argument: a
    space in a word, a bar or a newline in a text.  It is dropped only before
    a space; before any other byte it stays in the argument together with
    that byte. *)
Theorem backslash_protects_next_byte
    (a b rest : list Z) (c : Z) (arg : ExArg) (acc : list Z) :
  Forall (fun c => c <> 0 /\ c <> 10 /\ c <> ch "|" /\ c <> quote) a ->
  Forall (fun c => c <> 0 /\ c <> 10 /\ c <> ch "|" /\ c <> quote) b ->
  Forall (fun c => c <> ch " ") a -> Forall (fun c => c <> ch " ") b ->
  rest = [] \/ hd 0 rest = ch " " ->
  let kept := if c =? ch " " then [c] else [quote; c] in
  parse_rhs_loop (a ++ quote :: c :: b) arg acc =
    Ret (At [], with_rhs arg (acc ++ a ++ kept ++ b)) /\
  parse_lhs_loop (a ++ quote :: c :: b ++ rest) arg acc =
    Ret (At rest, with_lhs arg (acc ++ a ++ kept ++ b)).
Proof.
  intros Ha Hb Has Hbs Hrest kept.
  assert (Hw : forall x, Forall (fun c => c <> 0 /\ c <> 10 /\ c <> ch "|" /\ c <> quote) x ->
                         Forall (fun c => c <> ch " ") x ->
                         Forall (fun c => c <> 0 /\ c <> ch " " /\ c <> quote) x).
  { intros x H1 H2. rewrite List.Forall_forall in *. intros y Hy.
    specialize (H1 y Hy). specialize (H2 y Hy). tauto. }
  split.
  - rewrite parse_rhs_loop_plain by exact Ha. subst kept.
    destruct (Z.eqb_spec c (ch " ")) as [->|Hc].
    + rewrite parse_rhs_loop_escaped_space. rewrite <- (app_nil_r b) at 1.
      rewrite parse_rhs_loop_plain by exact Hb. cbn [parse_rhs_loop].
      now rewrite <- !app_assoc.
    + rewrite parse_rhs_loop_escaped_other by exact Hc. rewrite <- (app_nil_r b) at 1.
      rewrite parse_rhs_loop_plain by exact Hb. cbn [parse_rhs_loop].
      now rewrite <- !app_assoc.
  - rewrite parse_lhs_loop_plain by (apply Hw; assumption). subst kept.
    assert (Hend : forall acc', parse_lhs_loop rest arg acc' = Ret (At rest, with_lhs arg acc')).
    { intros acc'. destruct Hrest as [-> | Hr]; [reflexivity|].
      destruct rest as [|x rest]; [reflexivity|]. cbn in Hr. subst x. reflexivity. }
    destruct (Z.eqb_spec c (ch " ")) as [->|Hc].
    + rewrite parse_lhs_loop_escaped_space.
      rewrite parse_lhs_loop_plain by (apply Hw; assumption).
      rewrite Hend. now rewrite <- !app_assoc.
    + rewrite parse_lhs_loop_escaped_other by exact Hc.
      rewrite parse_lhs_loop_plain by (apply Hw; assumption).
      rewrite Hend. now rewrite <- !app_assoc.
Qed.

Lemma backslash_protects_next_byte_witness :
  let kept := if ch "|" =? ch " " then [ch "|"] else [quote; ch "|"] in
  parse_rhs_loop (str "a" ++ quote :: ch "|" :: str "b") new_arg [] =
    Ret (At [], with_rhs new_arg ([] ++ str "a" ++ kept ++ str "b")) /\
  parse_lhs_loop (str "a" ++ quote :: ch "|" :: str "b" ++ str " c") new_arg [] =
    Ret (At (str " c"), with_lhs new_arg ([] ++ str "a" ++ kept ++ str "b")).
Proof.
  apply (backslash_protects_next_byte (str "a") (str "b") (str " c") (ch "|") new_arg []).
  - repeat constructor; discriminate.
  - repeat constructor; discriminate.
  - repeat constructor; discriminate.
  - repeat constructor; discriminate.
  - right. reflexivity.
Defined.

Lemma skip_spaces_word (s : list Z) :
  hd 0 s <> ch " " -> skip_spaces s = s.
Proof.
  destruct s as [|c s]; [reflexivity|]. cbn. intros H.
  destruct (Z.eqb_spec c (ch " ")); [contradiction|]. now rewrite andb_false_r.
Qed.

Lemma parse_map_line (nm : list Z) (c : ExCode) (k : nat) (M : Z) (L R : list Z)
    (arg : ExArg) :
  In (nm, c, k, M) map_commands -> plain_word L -> plain_text R ->
  parse (At (nm ++ ch " " :: L ++ ch " " :: R)) arg =
  Ret (true, At [],
       {| count := 0; idx := k; name := nm; code := c; bang := bang arg;
          lhs := L; rhs := R |}).
Proof.
  intros Hin [HL1 HL2] (HR1 & HR2 & HR3).
  assert (HhdL : hd 0 L <> ch " ").
  { destruct L as [|x L]; [congruence|]. apply Forall_cons in HL2 as [(_ & H & _) _].
    exact H. }
  set (line := ch " " :: L ++ ch " " :: R).
  assert (Hname : parse_command_name (At (nm ++ line))
                    (with_count (with_rhs (with_lhs arg []) []) 0) =
                  Ret (true, At line,
                       {| count := 0; idx := k; name := nm; code := c;
                          bang := bang arg; lhs := []; rhs := [] |})).
  { cbn [In map_commands] in Hin.
    destruct Hin as [E|[E|[E|[]]]]; injection E as <- <- <- <-.
    - exact (full_name_parses 2
               (info "cmap" EX_CMAP fn_ex_map (Z.lor EX_FLAG_LHS EX_FLAG_RHS))
               line _ eq_refl ltac:(discriminate) (or_intror eq_refl)).
    - exact (full_name_parses 5
               (info "imap" EX_IMAP fn_ex_map (Z.lor EX_FLAG_LHS EX_FLAG_RHS))
               line _ eq_refl ltac:(discriminate) (or_intror eq_refl)).
    - exact (full_name_parses 7
               (info "nmap" EX_NMAP fn_ex_map (Z.lor EX_FLAG_LHS EX_FLAG_RHS))
               line _ eq_refl ltac:(discriminate) (or_intror eq_refl)). }
  unfold parse.
  assert (Hhd : hd 0 (nm ++ line) <> 0 /\ skip_colons (nm ++ line) = nm ++ line /\
                isdigit (hd 0 (nm ++ line)) = false /\
                skip_spaces (nm ++ line) = nm ++ line).
  { cbn [In map_commands] in Hin.
    destruct Hin as [E|[E|[E|[]]]]; injection E as <- <- <- <-;
      (split; [discriminate | split; [reflexivity | split; reflexivity]]). }
  destruct Hhd as (Hh1 & Hh2 & Hh3 & Hh4).
  cbn [deref bind]. destruct (Z.eqb_spec (hd 0 (nm ++ line)) 0); [contradiction|].
  rewrite Hh2, parse_count_no_digit by exact Hh3. cbn [bind skip_whitespace].
  rewrite Hh4, Hname. cbn [bind negb idx skip_whitespace].
  assert (Hflags : i_flags (nth k commands (info "" EX_BMA fn_ex_bookmark 0)) =
                   Z.lor EX_FLAG_LHS EX_FLAG_RHS).
  { cbn [In map_commands] in Hin.
    destruct Hin as [E|[E|[E|[]]]]; injection E as <- <- <- <-; reflexivity. }
  rewrite Hflags.
  change (negb (Z.land (Z.lor EX_FLAG_LHS EX_FLAG_RHS) EX_FLAG_LHS =? 0)) with true.
  change (negb (Z.land (Z.lor EX_FLAG_LHS EX_FLAG_RHS) EX_FLAG_RHS =? 0)) with true.
  cbv iota. unfold line. cbn [skip_spaces].
  change (negb (ch " " =? 0) && (ch " " =? ch " ")) with true. cbv iota.
  rewrite (skip_spaces_word (L ++ ch " " :: R))
    by (destruct L; [congruence | exact HhdL]).
  unfold parse_lhs. cbn [deref bind].
  destruct (Z.eqb_spec (hd 0 (L ++ ch " " :: R)) 0) as [E|_].
  { exfalso. destruct L as [|x L]; [congruence|]. cbn in E.
    apply Forall_cons in HL2 as [(H & _) _]. contradiction. }
  cbn [lhs]. rewrite parse_lhs_loop_word; [|exact HL2|now right].
  cbn [bind skip_whitespace skip_spaces app].
  change (negb (ch " " =? 0) && (ch " " =? ch " ")) with true. cbv iota.
  rewrite (skip_spaces_word R) by exact HR2.
  unfold parse_rhs. cbn [deref bind].
  destruct (Z.eqb_spec (hd 0 R) 0); [contradiction|].
  cbn [rhs with_lhs]. rewrite <- (app_nil_r R) at 1.
  rewrite parse_rhs_loop_text; [|exact HR3|now left].
  cbn [bind deref hd app with_rhs count idx name code bang lhs Z.eqb negb].
  reflexivity.
Qed.

Lemma parse_unmap_line (nm : list Z) (c : ExCode) (k : nat) (M : Z) (L : list Z)
    (arg : ExArg) :
  In (nm, c, k, M) unmap_commands -> plain_word L ->
  parse (At (nm ++ ch " " :: L)) arg =
  Ret (true, At [],
       {| count := 0; idx := k; name := nm; code := c; bang := bang arg;
          lhs := L; rhs := [] |}).
Proof.
  intros Hin [HL1 HL2].
  assert (HhdL : hd 0 L <> ch " " /\ hd 0 L <> 0).
  { destruct L as [|x L]; [congruence|]. apply Forall_cons in HL2 as [(? & ? & _) _].
    now split. }
  destruct HhdL as [HhdL HhdL0].
  set (line := ch " " :: L).
  assert (Hname : parse_command_name (At (nm ++ line))
                    (with_count (with_rhs (with_lhs arg []) []) 0) =
                  Ret (true, At line,
                       {| count := 0; idx := k; name := nm; code := c;
                          bang := bang arg; lhs := []; rhs := [] |})).
  { cbn [In unmap_commands] in Hin.
    destruct Hin as [E|[E|[E|[]]]]; injection E as <- <- <- <-.
    - exact (full_name_parses 3
               (info "cunmap" EX_CUNMAP fn_ex_unmap EX_FLAG_LHS)
               line _ eq_refl ltac:(discriminate) (or_intror eq_refl)).
    - exact (full_name_parses 6
               (info "iunmap" EX_IUNMAP fn_ex_unmap EX_FLAG_LHS)
               line _ eq_refl ltac:(discriminate) (or_intror eq_refl)).
    - exact (full_name_parses 8
               (info "nunmap" EX_NUNMAP fn_ex_unmap EX_FLAG_LHS)
               line _ eq_refl ltac:(discriminate) (or_intror eq_refl)). }
  unfold parse.
  assert (Hhd : hd 0 (nm ++ line) <> 0 /\ skip_colons (nm ++ line) = nm ++ line /\
                isdigit (hd 0 (nm ++ line)) = false /\
                skip_spaces (nm ++ line) = nm ++ line).
  { cbn [In unmap_commands] in Hin.
    destruct Hin as [E|[E|[E|[]]]]; injection E as <- <- <- <-;
      (split; [discriminate | split; [reflexivity | split; reflexivity]]). }
  destruct Hhd as (Hh1 & Hh2 & Hh3 & Hh4).
  cbn [deref bind]. destruct (Z.eqb_spec (hd 0 (nm ++ line)) 0); [contradiction|].
  rewrite Hh2, parse_count_no_digit by exact Hh3. cbn [bind skip_whitespace].
  rewrite Hh4, Hname. cbn [bind negb idx skip_whitespace].
  assert (Hflags : i_flags (nth k commands (info "" EX_BMA fn_ex_bookmark 0)) =
                   EX_FLAG_LHS).
  { cbn [In unmap_commands] in Hin.
    destruct Hin as [E|[E|[E|[]]]]; injection E as <- <- <- <-; reflexivity. }
  rewrite Hflags.
  change (negb (Z.land EX_FLAG_LHS EX_FLAG_LHS =? 0)) with true.
  change (negb (Z.land EX_FLAG_LHS EX_FLAG_RHS =? 0)) with false.
  cbv iota. unfold line. cbn [skip_spaces].
  change (negb (ch " " =? 0) && (ch " " =? ch " ")) with true. cbv iota.
  rewrite (skip_spaces_word L) by exact HhdL.
  unfold parse_lhs. cbn [deref bind].
  destruct (Z.eqb_spec (hd 0 L) 0); [contradiction|].
  cbn [lhs]. rewrite <- (app_nil_r L) at 1.
  rewrite parse_lhs_loop_word; [|exact HL2|now left].
  cbn [bind skip_whitespace skip_spaces app deref hd with_lhs with_rhs
       count idx name code bang lhs rhs Z.eqb negb].
  reflexivity.
Qed.

Section Lines.

Variable CSI : Z.
Variable collab : list (ExArg * bool) -> ExArg -> bool.

Lemma run_map_line (nm : list Z) (c : ExCode) (k : nat) (M : Z)
    (L R : list Z) (w : world) :
  In (nm, c, k, M) map_commands -> plain_word L -> plain_text R ->
  ex_run_string CSI collab (nm ++ ch " " :: L ++ ch " " :: R) w =
  Some (Finished true
    {| maplist := Map.map_insert CSI L R M (maplist w);
       dispatched := dispatched w ++
         [({| count := 0; idx := k; name := nm; code := c; bang := false;
              lhs := L; rhs := R |}, true)] |}).
Proof.
  intros Hin HL HR. unfold ex_run_string.
  pose proof (parse_map_line nm c k M L R new_arg Hin HL HR) as Hp.
  destruct (parse_inv _ _ _ _ Hp) as (Hhd & _).
  cbn [run_loop deref]. destruct (Z.eqb_spec (hd 0 (nm ++ ch " " :: L ++ ch " " :: R)) 0);
    [contradiction|].
  rewrite Hp. cbn [negb bang new_arg].
  assert (Hex : execute CSI collab
                  {| count := 0; idx := k; name := nm; code := c; bang := false;
                     lhs := L; rhs := R |} w =
                (true, {| maplist := Map.map_insert CSI L R M (maplist w);
                          dispatched := dispatched w ++
                            [({| count := 0; idx := k; name := nm; code := c;
                                 bang := false; lhs := L; rhs := R |}, true)] |})).
  { destruct HL as [HL _]. destruct HR as (HR & _).
    assert (HgL : (g_len L =? 0) = false).
    { apply Z.eqb_neq. unfold g_len. destruct L; [congruence | cbn; lia]. }
    assert (HgR : (g_len R =? 0) = false).
    { apply Z.eqb_neq. unfold g_len. destruct R; [cbn in HR; congruence | cbn; lia]. }
    cbn [In map_commands] in Hin.
    destruct Hin as [E|[E|[E|[]]]]; injection E as <- <- <- <-;
      unfold execute; cbn [idx nth commands i_func info]; unfold ex_map;
      cbn [lhs rhs code]; rewrite HgL, HgR; reflexivity. }
  rewrite Hex. cbn [negb].
  destruct (length (nm ++ ch " " :: L ++ ch " " :: R)) as [|fuel] eqn:Hlen.
  { rewrite length_app in Hlen. cbn in Hlen. lia. }
  reflexivity.
Qed.

(** X22. [cmap], [imap] and [nmap] with a word and a text put the map of
    the two into [map.list] for their mode, whatever the collaborators do,
    and the line succeeds. *)
Theorem map_line_inserts_map (nm : list Z) (c : ExCode) (k : nat) (M : Z)
    (L R : list Z) (w : world) :
  In (nm, c, k, M) map_commands -> plain_word L -> plain_text R ->
  ex_run_string CSI collab (nm ++ ch " " :: L ++ ch " " :: R) w =
  Some (Finished true
    {| maplist := Map.map_insert CSI L R M (maplist w);
       dispatched := dispatched w ++
         [({| count := 0; idx := k; name := nm; code := c; bang := false;
              lhs := L; rhs := R |}, true)] |}).
Proof. apply run_map_line. Qed.

(** X23. [cunmap], [iunmap] and [nunmap] with a word take the first map of the
    word and the mode out of [map.list]; the line succeeds also when there is
    no such map.  Right behind the command that has defined a map for the
    word in the same mode, [map.list] is again what it was before. *)
Theorem unmap_line_deletes_map (nm : list Z) (c : ExCode) (k : nat) (M : Z)
    (L : list Z) (w : world) :
  In (nm, c, k, M) unmap_commands -> plain_word L ->
  ex_run_string CSI collab (nm ++ ch " " :: L) w =
  Some (Finished true
    {| maplist := snd (Map.map_delete CSI L M (maplist w));
       dispatched := dispatched w ++
         [({| count := 0; idx := k; name := nm; code := c; bang := false;
              lhs := L; rhs := [] |}, true)] |}) /\
  (CSI <> 0 -> forall nm' c' k' R w0 w1,
     In (nm', c', k', M) map_commands -> plain_text R ->
     ex_run_string CSI collab (nm' ++ ch " " :: L ++ ch " " :: R) w0 =
       Some (Finished true w1) ->
     exists w2, ex_run_string CSI collab (nm ++ ch " " :: L) w1 =
                  Some (Finished true w2) /\
                maplist w2 = maplist w0).
Proof.
  intros Hin HL.
  assert (Hrun : forall w, ex_run_string CSI collab (nm ++ ch " " :: L) w =
    Some (Finished true
      {| maplist := snd (Map.map_delete CSI L M (maplist w));
         dispatched := dispatched w ++
           [({| count := 0; idx := k; name := nm; code := c; bang := false;
                lhs := L; rhs := [] |}, true)] |})).
  { clear w. intros w. unfold ex_run_string.
    pose proof (parse_unmap_line nm c k M L new_arg Hin HL) as Hp.
    destruct (parse_inv _ _ _ _ Hp) as (Hhd & _).
    cbn [run_loop deref]. destruct (Z.eqb_spec (hd 0 (nm ++ ch " " :: L)) 0);
      [contradiction|].
    rewrite Hp. cbn [negb bang new_arg].
    assert (Hex : execute CSI collab
                    {| count := 0; idx := k; name := nm; code := c; bang := false;
                       lhs := L; rhs := [] |} w =
                  (true, {| maplist := snd (Map.map_delete CSI L M (maplist w));
                            dispatched := dispatched w ++
                              [({| count := 0; idx := k; name := nm; code := c;
                                   bang := false; lhs := L; rhs := [] |}, true)] |})).
    { destruct HL as [HL _].
      assert (HgL : (g_len L =? 0) = false).
      { apply Z.eqb_neq. unfold g_len. destruct L; [congruence | cbn; lia]. }
      cbn [In unmap_commands] in Hin.
      destruct Hin as [E|[E|[E|[]]]]; injection E as <- <- <- <-;
        unfold execute; cbn [idx nth commands i_func info]; unfold ex_unmap;
        cbn [lhs rhs code]; rewrite HgL; reflexivity. }
    rewrite Hex. cbn [negb].
    destruct (length (nm ++ ch " " :: L)) as [|fuel] eqn:Hlen.
    { rewrite length_app in Hlen. cbn in Hlen. lia. }
    reflexivity. }
  split; [apply Hrun|].
  intros HCSI nm' c' k' R w0 w1 Hin' HR Hmap.
  rewrite (run_map_line nm' c' k' M L R w0 Hin' HL HR) in Hmap.
  injection Hmap as <-. eexists. split; [apply Hrun|]. cbn [maplist].
  now rewrite MapListFacts.map_delete_map_insert.
Qed.

Lemma skip_colons_all (l : list Z) :
  Forall (fun c => c = ch ":" \/ c = ch " ") l -> skip_colons l = [].
Proof.
  induction 1 as [|c l [-> | ->] _ IH]; [reflexivity | exact IH | exact IH].
Qed.

(** X24. The empty line succeeds and a line of nothing but colons and blanks
    fails; neither dispatches a command. *)
Theorem blank_line_runs_nothing (l : list Z) (w : world) :
  Forall (fun c => c = ch ":" \/ c = ch " ") l ->
  ex_run_string CSI collab l w =
  Some (Finished (match l with [] => true | _ => false end) w).
Proof.
  intros Hl. destruct l as [|c l]; [reflexivity|].
  unfold ex_run_string. cbn [run_loop deref length].
  assert (Hc : (hd 0 (c :: l) =? 0) = false).
  { apply Forall_cons in Hl as [[-> | ->] _]; reflexivity. }
  rewrite Hc.
  assert (Hp : parse (At (c :: l)) new_arg = Ret (false, Past, new_arg)).
  { unfold parse. cbn [deref bind]. rewrite Hc.
    now rewrite skip_colons_all by exact Hl. }
  now rewrite Hp.
Qed.

(** X25. [eval], [set], [shellcmd], [shortcut-add] and the commands for maps fail
    when nothing follows the name: the line fails, [map.list] stays as it is
    and no collaborator is asked. *)
Theorem missing_argument_fails (w : world) :
  Forall (fun e => let '(n, c, k) := e in
    ex_run_string CSI collab n w =
    Some (Finished false
      {| maplist := maplist w;
         dispatched := dispatched w ++
           [({| count := 0; idx := k; name := n; code := c;
                bang := false; lhs := []; rhs := [] |}, false)] |}))
    [ (str "eval", EX_EVAL, 4%nat); (str "set", EX_SET, 16%nat);
      (str "shellcmd", EX_SHELLCMD, 17%nat); (str "shortcut-add", EX_SCA, 18%nat);
      (str "cmap", EX_CMAP, 2%nat); (str "imap", EX_IMAP, 5%nat);
      (str "nmap", EX_NMAP, 7%nat); (str "cunmap", EX_CUNMAP, 3%nat);
      (str "iunmap", EX_IUNMAP, 6%nat); (str "nunmap", EX_NUNMAP, 8%nat) ].
Proof.
  repeat (constructor; [vm_compute; reflexivity|]). constructor.
Qed.

End Lines.

Lemma map_line_inserts_map_witness :
  ex_run_string Vimb.CSI (fun _ _ => false)
    (str "nmap" ++ ch " " :: str "<C-a>" ++ ch " " :: str ":open x<CR>")
    {| maplist := []; dispatched := [] |} =
  Some (Finished true
    {| maplist := Map.map_insert Vimb.CSI (str "<C-a>") (str ":open x<CR>") (ch "n") [];
       dispatched := [] ++
         [({| count := 0; idx := 7; name := str "nmap"; code := EX_NMAP;
              bang := false; lhs := str "<C-a>"; rhs := str ":open x<CR>" |}, true)] |}).
Proof.
  apply (map_line_inserts_map Vimb.CSI (fun _ _ => false) (str "nmap") EX_NMAP 7
           (ch "n") (str "<C-a>") (str ":open x<CR>")
           {| maplist := []; dispatched := [] |}).
  - right. right. left. reflexivity.
  - split; [discriminate | repeat constructor; discriminate].
  - split; [discriminate|]. split; [discriminate | repeat constructor; discriminate].
Defined.

Lemma unmap_line_deletes_map_witness :
  let w := {| maplist := [Map.rule (str "a") (str "b") (ch "n")]; dispatched := [] |} in
  ex_run_string Vimb.CSI (fun _ _ => false) (str "nunmap" ++ ch " " :: str "a") w =
  Some (Finished true
    {| maplist := snd (Map.map_delete Vimb.CSI (str "a") (ch "n") (maplist w));
       dispatched := dispatched w ++
         [({| count := 0; idx := 8; name := str "nunmap"; code := EX_NUNMAP;
              bang := false; lhs := str "a"; rhs := [] |}, true)] |}) /\
  (Vimb.CSI <> 0 -> forall nm' c' k' R w0 w1,
     In (nm', c', k', ch "n") map_commands -> plain_text R ->
     ex_run_string Vimb.CSI (fun _ _ => false)
       (nm' ++ ch " " :: str "a" ++ ch " " :: R) w0 = Some (Finished true w1) ->
     exists w2, ex_run_string Vimb.CSI (fun _ _ => false)
                  (str "nunmap" ++ ch " " :: str "a") w1 =
                  Some (Finished true w2) /\
                maplist w2 = maplist w0).
Proof.
  intros w.
  apply (unmap_line_deletes_map Vimb.CSI (fun _ _ => false) (str "nunmap") EX_NUNMAP 8
           (ch "n") (str "a") w).
  - right. right. left. reflexivity.
  - split; [discriminate | repeat constructor; discriminate].
Defined.

Lemma blank_line_runs_nothing_witness :
  ex_run_string Vimb.CSI (fun _ _ => true) (str ": :") {| maplist := []; dispatched := [] |} =
  Some (Finished false {| maplist := []; dispatched := [] |}).
Proof.
  apply (blank_line_runs_nothing Vimb.CSI (fun _ _ => true) (str ": :")
           {| maplist := []; dispatched := [] |}).
  apply Forall_cons; split; [left; reflexivity|].
  apply Forall_cons; split; [right; reflexivity|].
  apply Forall_cons; split; [left; reflexivity|]. constructor.
Defined.

End LineFacts.
